(** * godot-docs-llm: the document transformation pipeline of src/index.ts

    A shallow embedding of the GodotDocsConverter class: the language tab
    filter (filterByLanguage), the markup cleaner (cleanupForLLM), the table
    reconstructor (reconstructTables, extractPropertiesTable,
    extractMethodsTable) and the batch orchestrator
    (convertFilesConcurrently), with the properties of the specification
    stated and settled against them.

    JavaScript strings are sequences of UTF-16 code units; they are modelled
    as lists of code units (N).  Regular expressions are embedded as syntax
    trees interpreted by a backtracking matcher that follows the ECMAScript
    matching order (greedy and lazy quantifiers, capture groups, line
    anchors, lookahead). *)

From Stdlib Require Import NArith Ascii String List Lia Bool Arith.
From stdpp Require Import base list.
Import ListNotations.

Local Open Scope N_scope.
Local Open Scope nat_scope.
Local Open Scope list_scope.

(** ** JavaScript strings *)

Module JS.

(** A string is its sequence of UTF-16 code units. *)
Abbreviation jsstr := (list N).

(** An ASCII literal as a JavaScript string. *)
Definition str (s : string) : jsstr :=
  map N_of_ascii (list_ascii_of_string s).

Definition eqb_str (a b : jsstr) : bool := bool_decide (a = b).

(** Line terminators of ECMAScript: LF, CR, LS, PS. *)
Definition is_line_terminator (c : N) : bool :=
  (c =? 10)%N || (c =? 13)%N || (c =? 8232)%N || (c =? 8233)%N.

(** White space as used by String.prototype.trim and by the class \s:
    TAB, VT, FF, SP, NBSP, ZWNBSP, the Zs category and the line
    terminators. *)
Definition is_space (c : N) : bool :=
  (c =? 9)%N || (c =? 11)%N || (c =? 12)%N || (c =? 32)%N || (c =? 160)%N
  || (c =? 5760)%N || ((8192 <=? c)%N && (c <=? 8202)%N)
  || (c =? 8239)%N || (c =? 8287)%N || (c =? 12288)%N || (c =? 65279)%N
  || is_line_terminator c.

Definition is_digit (c : N) : bool := (48 <=? c)%N && (c <=? 57)%N.

(** The class \w: ASCII letters, digits and underscore. *)
Definition is_word (c : N) : bool :=
  ((65 <=? c)%N && (c <=? 90)%N) || ((97 <=? c)%N && (c <=? 122)%N)
  || is_digit c || (c =? 95)%N.

Fixpoint trimStart (s : jsstr) : jsstr :=
  match s with
  | c :: t => if is_space c then trimStart t else s
  | [] => []
  end.

Definition trimEnd (s : jsstr) : jsstr := rev (trimStart (rev s)).

Definition trim (s : jsstr) : jsstr := trimEnd (trimStart s).

Fixpoint startsWith (s p : jsstr) : bool :=
  match p, s with
  | [], _ => true
  | a :: p', b :: s' => (a =? b)%N && startsWith s' p'
  | _ :: _, [] => false
  end.

Fixpoint includes (s p : jsstr) : bool :=
  startsWith s p ||
  match s with
  | _ :: t => includes t p
  | [] => false
  end.

(** s.split(sep) for a one-unit separator: always at least one piece. *)
Fixpoint split (sep : N) (s : jsstr) : list jsstr :=
  match s with
  | [] => [[]]
  | c :: t =>
      if (c =? sep)%N then [] :: split sep t
      else match split sep t with
           | l :: ls => (c :: l) :: ls
           | [] => [[c]]
           end
  end.

(** a.join(sep): the empty array gives the empty string. *)
Fixpoint join (sep : jsstr) (ls : list jsstr) : jsstr :=
  match ls with
  | [] => []
  | [l] => l
  | l :: ls' => l ++ sep ++ join sep ls'
  end.

Definition LF : N := 10%N.
Definition nl : jsstr := [LF].

Definition lines (s : jsstr) : list jsstr := split LF s.
Definition unlines (ls : list jsstr) : jsstr := join nl ls.

End JS.

Import JS.

(** ** Regular expressions *)

Module Regex.

(** Members of a character class. *)
Inductive citem :=
| IChar (c : N)
| IRange (lo hi : N)
| IWord
| IDigit
| ISpace
| INotSpace.

(** A one-character matcher: a class (possibly negated) or the dot. *)
Inductive cset :=
| Class (neg : bool) (items : list citem)
| Dot.

Definition in_citem (i : citem) (c : N) : bool :=
  match i with
  | IChar x => (x =? c)%N
  | IRange lo hi => (lo <=? c)%N && (c <=? hi)%N
  | IWord => is_word c
  | IDigit => is_digit c
  | ISpace => is_space c
  | INotSpace => negb (is_space c)
  end.

Definition in_cset (cs : cset) (c : N) : bool :=
  match cs with
  | Class neg items => xorb neg (existsb (fun i => in_citem i c) items)
  | Dot => negb (is_line_terminator c)
  end.

(** Patterns.  Every quantifier of the source applies to a one-character
    atom, except the optional groups, which are [Opt]. *)
Inductive regex :=
| Empty
| Char (c : N)
| Set_ (cs : cset)
| Seq (r1 r2 : regex)
| Quant (greedy : bool) (lo : nat) (hi : option nat) (cs : cset)
| Opt (r : regex)
| Group (i : nat) (r : regex)
| Bol
| Eol
| Ahead (r : regex).

(** Captures: the most recent binding of a group index comes first. *)
Definition caps := list (nat * jsstr).

Fixpoint cap (i : nat) (c : caps) : option jsstr :=
  match c with
  | [] => None
  | (j, v) :: c' => if Nat.eqb i j then Some v else cap i c'
  end.

(** A continuation receives the last consumed unit, the rest of the input
    and the captures. *)
Definition cont := option N -> jsstr -> caps -> option (jsstr * caps).

Definition hi_allows (hi : option nat) : bool :=
  match hi with Some 0 => false | _ => true end.

Definition hi_pred (hi : option nat) : option nat :=
  match hi with Some n => Some (pred n) | None => None end.

(** x{lo,hi} on a one-character atom: greedy tries one more unit first,
    lazy tries the continuation first. *)
Fixpoint quant (greedy : bool) (cs : cset) (lo : nat) (hi : option nat)
    (prev : option N) (s : jsstr) (c : caps) (k : cont)
    : option (jsstr * caps) :=
  match s with
  | x :: t =>
      if hi_allows hi && in_cset cs x then
        if greedy then
          match quant greedy cs (pred lo) (hi_pred hi) (Some x) t c k with
          | Some res => Some res
          | None => match lo with 0 => k prev s c | S _ => None end
          end
        else
          match match lo with 0 => k prev s c | S _ => None end with
          | Some res => Some res
          | None => quant greedy cs (pred lo) (hi_pred hi) (Some x) t c k
          end
      else match lo with 0 => k prev s c | S _ => None end
  | [] => match lo with 0 => k prev s c | S _ => None end
  end.

Definition at_bol (m : bool) (prev : option N) : bool :=
  match prev with
  | None => true
  | Some p => m && is_line_terminator p
  end.

Definition at_eol (m : bool) (s : jsstr) : bool :=
  match s with
  | [] => true
  | x :: _ => m && is_line_terminator x
  end.

(** The backtracking matcher, in continuation-passing style; [m] is the
    multiline flag. *)
Fixpoint mt (m : bool) (r : regex) (prev : option N) (s : jsstr) (c : caps)
    (k : cont) : option (jsstr * caps) :=
  match r with
  | Empty => k prev s c
  | Char x =>
      match s with
      | y :: t => if (x =? y)%N then k (Some y) t c else None
      | [] => None
      end
  | Set_ cs =>
      match s with
      | y :: t => if in_cset cs y then k (Some y) t c else None
      | [] => None
      end
  | Seq a b => mt m a prev s c (fun p s' c' => mt m b p s' c' k)
  | Quant g lo hi cs => quant g cs lo hi prev s c k
  | Opt a =>
      match mt m a prev s c k with
      | Some res => Some res
      | None => k prev s c
      end
  | Group i a =>
      mt m a prev s c
         (fun p s' c' => k p s' ((i, take (length s - length s') s) :: c'))
  | Bol => if at_bol m prev then k prev s c else None
  | Eol => if at_eol m s then k prev s c else None
  | Ahead a =>
      match mt m a prev s c (fun _ s' c' => Some (s', c')) with
      | Some (_, c') => k prev s c'
      | None => None
      end
  end.

Definition accept : cont := fun _ s c => Some (s, c).

(** A regular expression object: pattern and the flags g and m. *)
Record regexp := RegExp { pattern : regex; flag_g : bool; flag_m : bool }.

(** One match attempt at the current position: the rest after the match
    and the captures. *)
Definition exec_at (re : regexp) (prev : option N) (s : jsstr)
    : option (jsstr * caps) :=
  mt (flag_m re) (pattern re) prev s [] accept.

(** Replacement templates: literal text and group references. *)
Inductive titem := TLit (s : jsstr) | TGroup (i : nat).

Definition expand (tpl : list titem) (c : caps) : jsstr :=
  flat_map (fun t => match t with
                     | TLit s => s
                     | TGroup i => default [] (cap i c)
                     end) tpl.

(** The scan of String.prototype.replace: [skip] units of a match are still
    to be dropped; [active] is false once a non-global pattern has had its
    one match.  After an empty match the next unit is copied. *)
Fixpoint replace_go (re : regexp) (tpl : list titem) (active : bool)
    (prev : option N) (s : jsstr) (skip : nat) : jsstr :=
  match skip with
  | S n =>
      match s with
      | x :: t => replace_go re tpl active (Some x) t n
      | [] => []
      end
  | 0 =>
      if active then
        match exec_at re prev s with
        | Some (rest, c) =>
            expand tpl c ++
            match s with
            | x :: t =>
                match length s - length rest with
                | 0 => x :: replace_go re tpl (flag_g re) (Some x) t 0
                | S n => replace_go re tpl (flag_g re) (Some x) t n
                end
            | [] => []
            end
        | None =>
            match s with
            | x :: t => x :: replace_go re tpl active (Some x) t 0
            | [] => []
            end
        end
      else s
  end.

Definition replace (re : regexp) (tpl : list titem) (s : jsstr) : jsstr :=
  replace_go re tpl true None s 0.

(** s.match(re) for a pattern without the g flag: the first position at
    which the pattern matches, with the matched text and the captures. *)
Fixpoint search_go (re : regexp) (prev : option N) (s : jsstr)
    : option (jsstr * caps) :=
  match exec_at re prev s with
  | Some (rest, c) => Some (take (length s - length rest) s, c)
  | None =>
      match s with
      | x :: t => search_go re (Some x) t
      | [] => None
      end
  end.

Definition search (re : regexp) (s : jsstr) : option (jsstr * caps) :=
  search_go re None s.

Definition test (re : regexp) (s : jsstr) : bool :=
  bool_decide (is_Some (search re s)).

(** Pattern combinators. *)
Definition lit (s : string) : regex :=
  fold_right (fun a r => Seq (Char (N_of_ascii a)) r) Empty
             (list_ascii_of_string s).

Fixpoint cat (rs : list regex) : regex :=
  match rs with
  | [] => Empty
  | [r] => r
  | r :: rs' => Seq r (cat rs')
  end.

Definition ch (a : ascii) : N := N_of_ascii a.
Definition one (a : ascii) : cset := Class false [IChar (ch a)].
Definition no (a : ascii) : cset := Class true [IChar (ch a)].
Definition star (cs : cset) : regex := Quant true 0 None cs.
Definition plus (cs : cset) : regex := Quant true 1 None cs.
Definition lazy_star (cs : cset) : regex := Quant false 0 None cs.
Definition at_least (n : nat) (cs : cset) : regex := Quant true n None cs.
Definition between (lo hi : nat) (cs : cset) : regex :=
  Quant true lo (Some hi) cs.
Definition space : cset := Class false [ISpace].
Definition not_space : cset := Class false [INotSpace].
Definition word : cset := Class false [IWord].
Definition digit : cset := Class false [IDigit].

(** *** The declarative reading of a pattern

    [Matches m r p s c p' s' c'] : from the input [s], with last unit [p]
    and captures [c], the pattern can consume a prefix of [s] and reach
    the rest [s'], last unit [p'] and captures [c'].  The relation forgets
    the priorities of the backtracking order. *)

Definition last_unit (p : option N) (w : jsstr) : option N :=
  fold_left (fun _ x => Some x) w p.

Definition hi_ok (hi : option nat) (n : nat) : Prop :=
  match hi with Some h => n <= h | None => True end.

Inductive Matches (m : bool) :
    regex -> option N -> jsstr -> caps -> option N -> jsstr -> caps -> Prop :=
| M_Empty p s c : Matches m Empty p s c p s c
| M_Char x p t c : Matches m (Char x) p (x :: t) c (Some x) t c
| M_Set cs y p t c :
    in_cset cs y = true -> Matches m (Set_ cs) p (y :: t) c (Some y) t c
| M_Seq a b p s c p1 s1 c1 p2 s2 c2 :
    Matches m a p s c p1 s1 c1 -> Matches m b p1 s1 c1 p2 s2 c2 ->
    Matches m (Seq a b) p s c p2 s2 c2
| M_Quant g lo hi cs p w s c :
    forallb (in_cset cs) w = true -> lo <= length w -> hi_ok hi (length w) ->
    Matches m (Quant g lo hi cs) p (w ++ s) c (last_unit p w) s c
| M_Opt_some a p s c p' s' c' :
    Matches m a p s c p' s' c' -> Matches m (Opt a) p s c p' s' c'
| M_Opt_none a p s c : Matches m (Opt a) p s c p s c
| M_Group i a p s c p' s' c' :
    Matches m a p s c p' s' c' ->
    Matches m (Group i a) p s c p' s'
            ((i, take (length s - length s') s) :: c')
| M_Bol p s c : at_bol m p = true -> Matches m Bol p s c p s c
| M_Eol p s c : at_eol m s = true -> Matches m Eol p s c p s c
| M_Ahead a p s c p1 s1 c1 :
    Matches m a p s c p1 s1 c1 -> Matches m (Ahead a) p s c p s c1.

(** Can the pattern match inside a text written with the units [alpha]
    only?  A conservative test: false means that it cannot. *)
Fixpoint can_match (alpha : list N) (r : regex) : bool :=
  match r with
  | Empty => true
  | Char x => existsb (N.eqb x) alpha
  | Set_ cs => existsb (in_cset cs) alpha
  | Seq a b => can_match alpha a && can_match alpha b
  | Quant _ lo _ cs =>
      match lo with 0 => true | S _ => existsb (in_cset cs) alpha end
  | Opt _ => true
  | Group _ a => can_match alpha a
  | Bol => true
  | Eol => true
  | Ahead a => can_match alpha a
  end.

End Regex.

Import Regex.

(** ** The language tab filter (filterByLanguage) *)

Inductive language := gdscript | csharp | both.

(** The scanner variables of filterByLanguage. *)
Record fstate := FState {
  insideTabsBlock : bool;
  insideTargetCodeTab : bool;
  insideOtherCodeTab : bool;
  tabsDepth : nat
}.

Definition fstate0 : fstate := FState false false false 0.

Definition targetLanguage (lang : language) : jsstr :=
  match lang with
  | gdscript => str "gdscript"
  | _ => str "csharp"
  end.

(** line.length - line.trimStart().length *)
Definition indent (line : jsstr) : nat :=
  length line - length (trimStart line).

Definition tabs_directive : jsstr := str ".. tabs::".
Definition code_tab_prefix : jsstr := str ".. code-tab::".

(** One iteration of the loop over the lines: the next state and the lines
    pushed to filteredLines. *)
Definition filter_step (lang : language) (st : fstate) (line : jsstr)
    : fstate * list jsstr :=
  let trimmed := trim line in
  if eqb_str trimmed tabs_directive then
    (FState true (insideTargetCodeTab st) (insideOtherCodeTab st)
            (indent line), [line])
  else if insideTabsBlock st then
    let currentIndent := indent line in
    if (0 <? length trimmed) && (currentIndent <=? tabsDepth st)
       && negb (startsWith trimmed (str "..")) then
      (FState false false false (tabsDepth st), [line])
    else if startsWith trimmed code_tab_prefix then
      if includes trimmed (targetLanguage lang) then
        (FState true true false (tabsDepth st), [])
      else
        (FState true false true (tabsDepth st), [])
    else if insideTargetCodeTab st then (st, [line])
    else if insideOtherCodeTab st then (st, [])
    else if negb (startsWith trimmed code_tab_prefix) then (st, [line])
    else (st, [])
  else (st, [line]).

Fixpoint filter_loop (lang : language) (st : fstate) (ls : list jsstr)
    : list jsstr :=
  match ls with
  | [] => []
  | line :: ls' =>
      let '(st', out) := filter_step lang st line in
      out ++ filter_loop lang st' ls'
  end.

Definition filterByLanguage (lang : language) (content : jsstr) : jsstr :=
  match lang with
  | both => content
  | _ => unlines (filter_loop lang fstate0 (lines content))
  end.

(** ** The table reconstructor *)

Record PropertyRecord := PropertyRec {
  p_type : jsstr;
  p_name : jsstr;
  p_defaultValue : option jsstr
}.

Record MethodRecord := MethodRec {
  m_returnType : jsstr;
  m_signature : jsstr
}.

Definition ident_start : cset :=
  Class false [IRange (ch "a") (ch "z"); IRange (ch "A") (ch "Z"); IChar (ch "_")].
Definition ident_char : cset :=
  Class false [IRange (ch "a") (ch "z"); IRange (ch "A") (ch "Z");
               IRange (ch "0") (ch "9"); IChar (ch "_")].
Definition lower_start : cset :=
  Class false [IRange (ch "a") (ch "z"); IChar (ch "_")].
Definition alnum_ : cset :=
  Class false [IRange (ch "a") (ch "z"); IRange (ch "A") (ch "Z");
               IRange (ch "0") (ch "9"); IChar (ch "_")].

(** The property declaration pattern (index.ts, line 525): a type that is
    a run of word characters (with an optional digits-and-D suffix), white
    space, the bold identifier and, optionally, an equals sign followed by a
    backticked default.  Groups: 1 type, 2 name, 3 default. *)
Definition re_property : regexp :=
  RegExp (cat [Bol;
               Group 1 (Seq (plus word)
                            (Opt (Seq (plus digit) (Opt (Char (ch "D"))))));
               plus space; lit "**";
               Group 2 (Seq (Set_ ident_start) (star ident_char));
               lit "**";
               Opt (cat [star space; lit "="; star space; lit "`";
                         Group 3 (plus (no "`")); lit "`"])])
         false false.

(** The method declaration pattern (index.ts, line 571): the backticked
    return type, white space, the bold identifier, optional white space and
    the parenthesised parameters.  Groups: 1 return type, 2 name,
    3 parameters. *)
Definition re_method : regexp :=
  RegExp (cat [Bol; lit "`"; Group 1 (plus (no "`")); lit "`";
               plus space; lit "**";
               Group 2 (Seq (Set_ ident_start) (star ident_char));
               lit "**"; star space; lit "(";
               Group 3 (star (no ")")); lit ")"])
         false false.

(** The annotation pattern of line 574: optional white space, an opening
    parenthesis, a lazy run of non-terminators, a closing parenthesis and
    optional white space; no flags. *)
Definition re_annotation : regexp :=
  RegExp (cat [star space; lit "("; lazy_star Dot; lit ")"; star space])
         false false.

Definition h_properties : jsstr := str "## Properties".
Definition h_methods : jsstr := str "## Methods".
Definition h_property_descriptions : jsstr := str "## Property Descriptions".
Definition h_method_descriptions : jsstr := str "## Method Descriptions".

(** The search loop for a heading, from index [i] on. *)
Fixpoint find_heading (h : jsstr) (ls : list jsstr) (i : nat) : option nat :=
  match ls with
  | [] => None
  | l :: ls' =>
      if eqb_str (trim l) h then Some i else find_heading h ls' (S i)
  end.

Definition propertyMatch (line : jsstr) : option PropertyRecord :=
  match search re_property line with
  | Some (_, c) =>
      Some (PropertyRec (default [] (cap 1 c)) (default [] (cap 2 c)) (cap 3 c))
  | None => None
  end.

Fixpoint parse_properties (ls : list jsstr) : list PropertyRecord :=
  match ls with
  | [] => []
  | l :: ls' =>
      let line := trim l in
      if startsWith line (str "## ")
         && negb (eqb_str line h_property_descriptions)
      then []
      else match propertyMatch line with
           | Some p => p :: parse_properties ls'
           | None => parse_properties ls'
           end
  end.

(** prop.defaultValue || '' *)
Definition or_empty (o : option jsstr) : jsstr :=
  match o with
  | Some (x :: v) => x :: v
  | _ => []
  end.

Definition property_row (p : PropertyRecord) : jsstr :=
  str "| " ++ p_type p ++ str " | **" ++ p_name p ++ str "** | "
  ++ or_empty (p_defaultValue p) ++ str " |".

Definition property_header : jsstr :=
  str "| Type | Property | Default |" ++ nl ++ str "|------|----------|---------|".

Definition extractPropertiesTable (lns : list jsstr) (startIndex : nat)
    : option jsstr :=
  match find_heading h_property_descriptions (drop startIndex lns) startIndex with
  | None => None
  | Some propertyDescIndex =>
      match parse_properties (drop (propertyDescIndex + 1) lns) with
      | [] => None
      | properties =>
          Some (unlines (property_header :: map property_row properties))
      end
  end.

(** The annotation is replaced by nothing, the result trimmed, and void is
    the default for an empty result (line 574). *)
Definition or_void (t : jsstr) : jsstr :=
  match t with [] => str "void" | _ => t end.

Definition cleanReturnType (returnType : jsstr) : jsstr :=
  or_void (trim (replace re_annotation [] returnType)).

Definition methodMatch (line : jsstr) : option MethodRecord :=
  match search re_method line with
  | Some (_, c) =>
      let returnType := default [] (cap 1 c) in
      let methodName := default [] (cap 2 c) in
      let params := default [] (cap 3 c) in
      Some (MethodRec (cleanReturnType returnType)
                      (str "**" ++ methodName ++ str "**(" ++ params ++ str ")"))
  | None => None
  end.

Fixpoint parse_methods (ls : list jsstr) : list MethodRecord :=
  match ls with
  | [] => []
  | l :: ls' =>
      let line := trim l in
      if startsWith line (str "## ")
         && negb (eqb_str line h_method_descriptions)
      then []
      else match methodMatch line with
           | Some p => p :: parse_methods ls'
           | None => parse_methods ls'
           end
  end.

Definition method_row (r : MethodRecord) : jsstr :=
  str "| " ++ m_returnType r ++ str " | " ++ m_signature r ++ str " |".

Definition method_header : jsstr :=
  str "| Return Type | Method |" ++ nl ++ str "|-------------|--------|".

Definition extractMethodsTable (lns : list jsstr) (startIndex : nat)
    : option jsstr :=
  match find_heading h_method_descriptions (drop startIndex lns) startIndex with
  | None => None
  | Some methodDescIndex =>
      match parse_methods (drop (methodDescIndex + 1) lns) with
      | [] => None
      | methods => Some (unlines (method_header :: map method_row methods))
      end
  end.

(** if (table) { result.push(''); result.push(table); result.push(''); }:
    null and the empty string are falsy. *)
Definition push_table (table : option jsstr) : list jsstr :=
  match table with
  | Some (x :: t) => [[]; x :: t; []]
  | _ => []
  end.

Definition next_is (h : jsstr) (rest : list jsstr) : bool :=
  match rest with
  | next :: _ => eqb_str (trim next) h
  | [] => false
  end.

(** The while loop of reconstructTables: [rest] is lines.slice(i). *)
Fixpoint reconstruct_loop (lns : list jsstr) (i : nat) (rest : list jsstr)
    : list jsstr :=
  match rest with
  | [] => []
  | line :: rest' =>
      if eqb_str (trim line) h_properties && next_is h_methods rest' then
        line :: push_table (extractPropertiesTable lns i)
             ++ reconstruct_loop lns (S i) rest'
      else if eqb_str (trim line) h_methods
              && next_is h_property_descriptions rest' then
        line :: push_table (extractMethodsTable lns i)
             ++ reconstruct_loop lns (S i) rest'
      else line :: reconstruct_loop lns (S i) rest'
  end.

Definition reconstructTables (content : jsstr) : jsstr :=
  let lns := lines content in
  unlines (reconstruct_loop lns 0 lns).

(** ** The markup cleaner (cleanupForLLM) *)

Definition G (p : regex) : regexp := RegExp p true false.
Definition GM (p : regex) : regexp := RegExp p true true.
Definition plain (p : regex) : regexp := RegExp p false false.

Definition quote : N := 34%N.
Definition backtick : regex := Char 96%N.

(** A rewrite rule: pattern and replacement template. *)
Definition rule := (regexp * list titem)%type.

Definition apply_rules (rules : list rule) (content : jsstr) : jsstr :=
  fold_left (fun s r => replace (fst r) (snd r) s) rules content.

Definition T1 : list titem := [TGroup 1].
Definition del : list titem := [].

(** removeImageReferences (lines 592-604): markdown images, [image]
    markers, figure and image directives. *)
Definition rules_images : list rule :=
  [ (G (cat [lit "!["; lazy_star Dot; lit "]("; star (no ")"); lit ")"]), del);
    (G (lit "[image]"), del);
    (GM (cat [Bol; star space; lit ".. figure::"; star Dot; Eol]), del);
    (GM (cat [Bol; star space; lit ".. image::"; star Dot; Eol]), del) ].

Definition removeImageReferences (content : jsstr) : jsstr :=
  apply_rules rules_images content.

Definition any_unit : cset := Class false [ISpace; INotSpace].
Definition not_lf : cset := Class true [IChar LF].
Definition upper : cset := Class false [IRange (ch "A") (ch "Z")].
Definition dash : cset := one "-".
Definition hash : cset := one "#".

(** The ws-collapsing pattern of line 407: a run of spaces and tabs. *)
Definition hspace_class : cset := Class false [IChar 32%N; IChar 9%N].
Definition re_hspace : regexp := G (plus hspace_class).

(** The newline-collapsing pattern of lines 404 and 439: three or more
    line feeds. *)
Definition lf_class : cset := Class false [IChar LF].
Definition re_newlines : regexp := G (at_least 3 lf_class).

Definition two_newlines : list titem := [TLit (nl ++ nl)].

(** The first chain of cleanupForLLM (lines 340-410), in source order. *)
Definition rules_main : list rule :=
  [ (* 342 *)
    (G (cat [lit "<div"; star (no ">"); lit ">"; lazy_star any_unit;
             lit "</div>"]), del);
    (* 345, 346 *)
    (GM (cat [Bol; lit "||"; star Dot; Eol]), del);
    (GM (cat [Bol; star space; lit "|"; star space; lit "|"; star space; Eol]),
     del);
    (* 349-353 *)
    (G (cat [lit "::::"; star space; lit "{"; star (no "}"); lit "}"]), del);
    (GM (cat [lit ":::"; star space; lit "rst-class"; star (no ":"); Eol]), del);
    (GM (cat [lit ":::"; star space; plus word; Eol]), del);
    (G (lit "::::"), del);
    (G (lit ":::"), del);
    (* 356 *)
    (G (cat [lit "{.interpreted-text role="; Char quote;
             star (Class true [IChar quote]); Char quote; lit "}"]), del);
    (* 359: the link emoji U+1F517 is the surrogate pair D83D DD17 *)
    (G (cat [backtick; Char 55357%N; Char 56599%N; lit "<"; star (no ">");
             lit ">"; backtick]), del);
    (* 362, 363 *)
    (G (cat [lit "{#"; star (no "}"); lit "}"]), del);
    (G (cat [lit "{.classref"; star (no "}"); lit "}"]), del);
    (* 366-368 *)
    (G (cat [lit "`const (This method has no side effects"; star (no "`");
             lit ")`"]), del);
    (G (cat [lit "`static (This method"; star (no "`"); lit ")`"]), del);
    (G (cat [lit "`virtual (This method"; star (no "`"); lit ")`"]), del);
    (* 371 *)
    (GM (cat [Bol; star space; lit ".."; plus space; plus word; lit "::"]), del);
    (* 374, 375 *)
    (GM (cat [Bol; lit "github_url"; star space; lit ":"; star space;
              lit "hide"; star space; Eol]), del);
    (GM (cat [Bol; plus lower_start; star space; lit ":"; star space;
              star not_lf; Eol]), del);
    (* 378, 379 *)
    (GM (cat [Bol; at_least 4 dash; Eol]), del);
    (GM (cat [Bol; star space; at_least 4 dash; star space; Eol]), del);
    (* 382, 383 *)
    (GM (cat [Bol; star space; lit ":"; plus word; lit ":"; star space; Eol]),
     del);
    (GM (cat [Bol; star space; lit "-group"; star space; Eol]), del);
    (* 386-389 *)
    (G (cat [backtick; Group 1 (Seq (Set_ upper) (star alnum_));
             lit "<class_"; star (no ">"); lit ">"; backtick]), T1);
    (G (cat [backtick; Group 1 (Seq (Set_ lower_start) (star alnum_));
             lit "()<class_"; star (no ">"); lit "_method_"; star (no ">");
             lit ">"; backtick]), [TGroup 1; TLit (str "()")]);
    (G (cat [backtick; Group 1 (Seq (Set_ lower_start) (star alnum_));
             lit "<class_"; star (no ">"); lit "_method_"; star (no ">");
             lit ">"; backtick]), [TGroup 1; TLit (str "()")]);
    (G (cat [backtick; Group 1 (plus alnum_); lit "<"; star (no ">");
             lit ">"; backtick]), T1);
    (* 392 *)
    (GM (cat [Bol; Group 1 (plus hash); star space; lit "class_";
              Group 2 (plus alnum_); Eol]),
     [TGroup 1; TLit (str " "); TGroup 2]);
    (* 395 *)
    (G (cat [lit "classref-"; plus (Class false [IWord; IChar (ch "-")])]), del);
    (* 398 *)
    (G (cat [lit "**"; Group 1 (plus (no "*")); lit "**("; star (no ")");
             lit ")"; star space; lit "{"; star (no "}"); lit "}"]),
     [TLit (str "**"); TGroup 1; TLit (str "()**")]);
    (* 401 *)
    (G (cat [Group 1 (Seq (between 1 6 hash) (star not_lf)); Char LF;
             star space; Char LF; Ahead (Set_ not_space)]),
     [TGroup 1; TLit (nl ++ nl)]);
    (* 404 *)
    (re_newlines, two_newlines);
    (* 407 *)
    (re_hspace, [TLit (str " ")]);
    (* 410 *)
    (GM (cat [Bol; plus hash; star space; Eol]), del) ].

(** The second chain (lines 418-422). *)
Definition rules_post : list rule :=
  [ (G (cat [Group 1 (Set_ word); Group 2 (Seq (lit "**") (Set_ word))]),
     [TGroup 1; TLit (str " "); TGroup 2]);
    (G (cat [Group 1 (Set_ (Class false [IChar (ch "."); IChar (ch "!");
                                         IChar (ch "?")]));
             Group 2 (Set_ upper)]),
     [TGroup 1; TLit (str " "); TGroup 2]);
    (G (cat [backtick; Group 1 (Seq (Set_ lower_start) (star alnum_));
             lit "()` "]), [TGroup 1; TLit (str "() ")]) ].

(** The line patterns of the filter (lines 429-434); no flags. *)
Definition artifact_patterns : list regexp :=
  [ plain (cat [Bol; plus (Class false [IChar (ch "-"); IChar (ch ":")]); Eol]);
    plain (cat [Bol; plus (Class false [IChar (ch "{"); IChar (ch "}")]); Eol]);
    plain (cat [Bol; star space; lit "group"; star space; Eol]);
    plain (cat [Bol; star space; lit "separator"; star space; Eol]);
    plain (cat [Bol; star space; lit "classref-"; star Dot; Eol]);
    plain (cat [Bol; star space; lit "<"; star Dot; lit ">"; star space; Eol]) ].

(** The predicate of the filter over the lines (lines 426-435). *)
Definition keep_line (line : jsstr) : bool :=
  let trimmed := trim line in
  (0 <? length trimmed)
  && forallb (fun re => negb (test re trimmed)) artifact_patterns.

Definition cleanupForLLM (content : jsstr) : jsstr :=
  let content := removeImageReferences content in
  let content := trim (apply_rules rules_main content) in
  let content := apply_rules rules_post content in
  let content := unlines (List.filter keep_line (lines content)) in
  let content := trim (replace re_newlines two_newlines content) in
  reconstructTables content.


(** ** The batch orchestrator (convertFilesConcurrently) *)

Section Orchestrator.

(** The collaborators outside the core: the file system (readFileSync,
    None when it throws), the external converter process (None when it
    exits with an error) and path.relative. *)
Variable readFile : jsstr -> option jsstr.
Variable pandoc : jsstr -> option jsstr.
Variable relativePath : jsstr -> jsstr.
Variable lang : language.
Variable concurrency : nat.

(** convertRstToMarkdown (lines 292-330): None models the thrown error. *)
Definition convertRstToMarkdown (rstFilePath : jsstr) : option jsstr :=
  match readFile rstFilePath with
  | None => None
  | Some rstContent =>
      let filteredContent := filterByLanguage lang rstContent in
      match pandoc filteredContent with
      | None => None
      | Some result =>
          let cleanedContent := cleanupForLLM result in
          let header :=
            nl ++ nl ++ str "## " ++ relativePath rstFilePath ++ nl ++ nl in
          Some (header ++ cleanedContent)
      end
  end.


(** The body of one promise of a batch (lines 163-178): the only effect
    on the shared results array is the assignment at globalIndex.  The
    array starts as new Array(n), all holes (None); a slot holds a string
    once its document has been converted. *)
Definition complete (results : list (option jsstr)) (globalIndex : nat) (rstFile : jsstr)
    : list (option jsstr) :=
  match convertRstToMarkdown rstFile with
  | Some markdownContent =>
      match trim markdownContent with
      | _ :: _ => <[globalIndex := Some markdownContent]> results
      | [] => results
      end
  | None => results
  end.

(** One batch: the promises complete in the order [order], a list of
    positions within the batch. *)
Definition run_batch (results : list (option jsstr)) (i : nat) (batch : list jsstr)
    (order : list nat) : list (option jsstr) :=
  fold_left (fun res b =>
               match batch !! b with
               | Some rstFile => complete res (i + b) rstFile
               | None => res
               end) order results.

(** The for loop over the batches (lines 161-182); [schedule i] is the
    completion order of the batch that starts at index [i].  The loop
    does not terminate for a concurrency of 0 and a non-empty list: the
    result is None when the fuel runs out. *)
Fixpoint batch_loop (fuel : nat) (rstFiles : list jsstr)
    (schedule : nat -> list nat) (i : nat) (results : list (option jsstr))
    : option (list (option jsstr)) :=
  if i <? length rstFiles then
    match fuel with
    | 0 => None
    | S fuel' =>
        let batch := take concurrency (drop i rstFiles) in
        batch_loop fuel' rstFiles schedule (i + concurrency)
                   (run_batch results i batch (schedule i))
    end
  else Some results.

(** results.filter(result => result !== null): holes are skipped. *)
Definition convertFilesConcurrently (rstFiles : list jsstr)
    (schedule : nat -> list nat) : option (list jsstr) :=
  match batch_loop (length rstFiles) rstFiles schedule 0
                   (replicate (length rstFiles) None) with
  | Some results => Some (omap id results)
  | None => None
  end.

(** A schedule is admissible when every batch completes each of its
    promises exactly once, in any order. *)
Definition admissible (rstFiles : list jsstr) (schedule : nat -> list nat)
    : Prop :=
  forall i,
    schedule i ≡ₚ seq 0 (length (take concurrency (drop i rstFiles))).

(** The results array when the loop is at index [i]: the slots below [i]
    hold the outcomes of their documents, the others are holes. *)
Definition loop_inv (rstFiles : list jsstr) (i : nat)
    (res : list (option jsstr)) : Prop :=
  length res = length rstFiles /\
  forall j, j < length rstFiles ->
    res !! j = Some (if bool_decide (j < i)
                     then rstFiles !! j ≫= convertRstToMarkdown
                     else None).

End Orchestrator.

(** ** Vocabulary of the statements *)

(** The lines of a Descriptions section, as the specification has it: the
    lines after the heading, up to the next second-level heading (a repeat
    of the section's own heading does not end it). *)
Fixpoint section_of (h : jsstr) (ls : list jsstr) : list jsstr :=
  match ls with
  | [] => []
  | l :: ls' =>
      if startsWith (trim l) (str "## ") && negb (eqb_str (trim l) h)
      then []
      else l :: section_of h ls'
  end.

(** The two heading pairs that reconstructTables looks for: a line and the
    line immediately after it. *)
Definition properties_pair (l l' : jsstr) : bool :=
  eqb_str (trim l) h_properties && eqb_str (trim l') h_methods.

Definition methods_pair (l l' : jsstr) : bool :=
  eqb_str (trim l) h_methods && eqb_str (trim l') h_property_descriptions.

Definition pair_after (l : jsstr) (rest : list jsstr) : bool :=
  match rest with
  | l' :: _ => properties_pair l l' || methods_pair l l'
  | [] => false
  end.

Fixpoint no_pair (ls : list jsstr) : bool :=
  match ls with
  | [] => true
  | l :: rest => negb (pair_after l rest) && no_pair rest
  end.

(** What the loop of reconstructTables pushes right after the line [l] of
    index [i], given the lines [rest] that follow it. *)
Definition inserted (lns : list jsstr) (i : nat) (l : jsstr)
    (rest : list jsstr) : list jsstr :=
  if eqb_str (trim l) h_properties && next_is h_methods rest
  then push_table (extractPropertiesTable lns i)
  else if eqb_str (trim l) h_methods && next_is h_property_descriptions rest
  then push_table (extractMethodsTable lns i)
  else [].

(** The longest prefix of units of a class, and what follows it. *)
Fixpoint lead (cs : cset) (s : jsstr) : jsstr :=
  match s with
  | x :: t => if in_cset cs x then x :: lead cs t else []
  | [] => []
  end.

Fixpoint after_lead (cs : cset) (s : jsstr) : jsstr :=
  match s with
  | x :: t => if in_cset cs x then after_lead cs t else s
  | [] => []
  end.

(** A text written with the units [alpha] only. *)
Definition over (alpha : list N) (s : jsstr) : Prop :=
  Forall (fun x => In x alpha) s.

(** Captures and templates whose texts satisfy a predicate on units. *)
Definition caps_ok (P : N -> Prop) (c : caps) : Prop :=
  Forall (fun iv => Forall P (snd iv)) c.

Definition tpl_ok (P : N -> Prop) (tpl : list titem) : Prop :=
  Forall (fun t => match t with TLit s => Forall P s | TGroup _ => True end) tpl.

Definition not_tab (c : N) : Prop := c <> 9%N.

(** The last unit of the text is not in the class (or there is none). *)
Definition ends_free (cs : cset) (a : jsstr) : Prop :=
  match last a with Some y => in_cset cs y = false | None => True end.

(** The first unit of the text is not in the class (or there is none). *)
Definition starts_free (cs : cset) (b : jsstr) : Prop :=
  match b with y :: _ => in_cset cs y = false | [] => True end.

(** Plain text: letters, digits, underscore, space, line feed and the
    punctuation that no rule of the cleaner looks for. *)
Definition plain_alphabet : list N :=
  str "abcdefghijklmnopqrstuvwxyzABCDEFGHIJKLMNOPQRSTUVWXYZ0123456789_ "
  ++ str "$%&'()+,/;=>@]^}~" ++ [LF].

Definition is_plain (c : N) : bool := existsb (N.eqb c) plain_alphabet.

(** No two adjacent units of horizontal white space. *)
Fixpoint no_space_run (s : jsstr) : bool :=
  match s with
  | x :: t =>
      match t with
      | y :: _ => negb (in_cset hspace_class x && in_cset hspace_class y)
      | [] => true
      end && no_space_run t
  | [] => true
  end.

(** Already-clean input: plain text without runs of spaces, trimmed, every
    line of which passes the line filter of the cleaner (so there is no
    blank line and no artifact line). *)
Definition clean (x : jsstr) : bool :=
  forallb is_plain x && no_space_run x && eqb_str (trim x) x
  && forallb keep_line (lines x).

(** The return type as the specification words it: the text with its
    trailing parenthetical annotation, if it has one, stripped, and void
    when nothing is left. *)
Fixpoint before_last_open (s : jsstr) : option jsstr :=
  match s with
  | [] => None
  | x :: t =>
      match before_last_open t with
      | Some u => Some (x :: u)
      | None => if (x =? 40)%N then Some [] else None
      end
  end.

Definition strip_trailing_annotation (ret : jsstr) : jsstr :=
  match last (trim ret), before_last_open (trim ret) with
  | Some 41%N, Some u => trim u
  | _, _ => trim ret
  end.

Definition spec_return_type (ret : jsstr) : jsstr :=
  or_void (strip_trailing_annotation ret).

(** The lines after the first line whose trimmed text is [h]. *)
Fixpoint after_heading (h : jsstr) (ls : list jsstr) : option (list jsstr) :=
  match ls with
  | [] => None
  | l :: ls' => if eqb_str (trim l) h then Some ls' else after_heading h ls'
  end.

(** The two tables as functions of the lines from index [i] on. *)
Definition properties_table_from (suffix : list jsstr) : option jsstr :=
  match after_heading h_property_descriptions suffix with
  | None => None
  | Some rest =>
      match parse_properties rest with
      | [] => None
      | ps => Some (unlines (property_header :: map property_row ps))
      end
  end.

Definition methods_table_from (suffix : list jsstr) : option jsstr :=
  match after_heading h_method_descriptions suffix with
  | None => None
  | Some rest =>
      match parse_methods rest with
      | [] => None
      | ms => Some (unlines (method_header :: map method_row ms))
      end
  end.

(** The loop of reconstructTables as a function of the lines still to be
    read. *)
Definition inserted_from (l : jsstr) (rest : list jsstr) : list jsstr :=
  if eqb_str (trim l) h_properties && next_is h_methods rest
  then push_table (properties_table_from (l :: rest))
  else if eqb_str (trim l) h_methods && next_is h_property_descriptions rest
  then push_table (methods_table_from (l :: rest))
  else [].

Fixpoint reconstruct_from (rest : list jsstr) : list jsstr :=
  match rest with
  | [] => []
  | l :: rest' => l :: inserted_from l rest' ++ reconstruct_from rest'
  end.

(** A line that the table reconstruction passes over: no second-level
    heading and no declaration. *)
Definition inert (z : jsstr) : Prop :=
  startsWith (trim z) (str "## ") = false
  /\ propertyMatch (trim z) = None /\ methodMatch (trim z) = None.

(** [padded xs ys]: [ys] is [xs] with inert lines added. *)
Inductive padded : list jsstr -> list jsstr -> Prop :=
| padded_nil : padded [] []
| padded_same l xs ys : padded xs ys -> padded (l :: xs) (l :: ys)
| padded_add z xs ys : inert z -> padded xs ys -> padded xs (z :: ys).

Definition unit_not_lf (c : N) : Prop := c <> LF.

(** The layout of a property declaration line [line] with record [p]: the
    type, white space, the bold name and, when there is a default, an
    equals sign and the backticked default. *)
Definition property_layout (line : jsstr) (p : PropertyRecord) : Prop :=
  exists ws tail,
    line = p_type p ++ ws ++ str "**" ++ p_name p ++ str "**" ++ tail
    /\ ws <> [] /\ forallb is_space ws = true
    /\ forallb is_word (p_type p) = true /\ p_type p <> []
    /\ forallb (in_cset ident_char) (p_name p) = true /\ p_name p <> []
    /\ match p_defaultValue p with
       | Some v =>
           v <> [] /\ ~ In 96%N v /\
           exists ws1 ws2 tail',
             tail = ws1 ++ str "=" ++ ws2 ++ str "`" ++ v ++ str "`" ++ tail'
             /\ forallb is_space ws1 = true /\ forallb is_space ws2 = true
       | None => True
       end.

(** The layout of a method declaration line with return-type text [ret],
    name [name] and parameter text [params]. *)
Definition method_layout (line ret name params : jsstr) : Prop :=
  exists ws ws' tail,
    line = str "`" ++ ret ++ str "`" ++ ws ++ str "**" ++ name ++ str "**"
           ++ ws' ++ str "(" ++ params ++ str ")" ++ tail
    /\ ret <> [] /\ ~ In 96%N ret
    /\ ws <> [] /\ forallb is_space ws = true /\ forallb is_space ws' = true
    /\ forallb (in_cset ident_char) name = true /\ name <> []
    /\ ~ In 41%N params.

(** The scanner state after a prefix of the lines. *)
Definition filter_state (lang : language) (st : fstate) (ls : list jsstr)
    : fstate :=
  fold_left (fun s l => fst (filter_step lang s l)) ls st.

Definition is_tabs_directive (l : jsstr) : bool :=
  eqb_str (trim l) tabs_directive.

Definition is_code_tab (l : jsstr) : bool :=
  negb (is_tabs_directive l) && startsWith (trim l) code_tab_prefix.

(** A line that closes a tabs block opened at indentation [depth]. *)
Definition is_exit (depth : nat) (l : jsstr) : bool :=
  negb (is_tabs_directive l)
  && (0 <? length (trim l)) && (indent l <=? depth)
  && negb (startsWith (trim l) (str "..")).

(** A line of code-tab content in a block opened at indentation [depth]:
    blank, or indented deeper than the tabs directive, and no directive. *)
Definition is_content (depth : nat) (l : jsstr) : bool :=
  negb (is_tabs_directive l)
  && negb (startsWith (trim l) (str ".."))
  && ((length (trim l) =? 0) || (depth <? indent l)).

(** A code tab: its directive line and its content lines. *)
Definition codetab := (jsstr * list jsstr)%type.

(** A tabs block: the directive, the code tabs, and the text after the
    block up to the next block. *)
Record tabblock := TabBlock {
  b_directive : jsstr;
  b_tabs : list codetab;
  b_after : list jsstr
}.

Definition tab_lines (t : codetab) : list jsstr := fst t :: snd t.

Definition block_lines (b : tabblock) : list jsstr :=
  b_directive b :: flat_map tab_lines (b_tabs b) ++ b_after b.

(** What the specification keeps of a block for a target language: the
    content of the code tabs whose directive names the language. *)
Definition tab_selected (target : jsstr) (t : codetab) : list jsstr :=
  if includes (trim (fst t)) target then snd t else [].

Definition block_selected (target : jsstr) (b : tabblock) : list jsstr :=
  b_directive b :: flat_map (tab_selected target) (b_tabs b) ++ b_after b.

Definition no_lf (l : jsstr) : bool := forallb (fun c => negb (c =? LF)%N) l.

Definition wf_tab (depth : nat) (t : codetab) : bool :=
  is_code_tab (fst t) && forallb (is_content depth) (snd t).

Definition wf_after (depth : nat) (ls : list jsstr) : bool :=
  forallb (fun l => negb (is_tabs_directive l)) ls
  && match ls with
     | l :: _ => is_exit depth l
     | [] => true
     end.

Definition wf_block (b : tabblock) : bool :=
  is_tabs_directive (b_directive b)
  && forallb (wf_tab (indent (b_directive b))) (b_tabs b)
  && wf_after (indent (b_directive b)) (b_after b)
  && forallb no_lf (block_lines b).
(** ** Further vocabulary *)

(** The text that cleanupForLLM hands to reconstructTables (lines 337-440):
    the body of the function without its last step. *)
Definition cleanup_before_tables (content : jsstr) : jsstr :=
  let content := removeImageReferences content in
  let content := trim (apply_rules rules_main content) in
  let content := apply_rules rules_post content in
  let content := unlines (List.filter keep_line (lines content)) in
  trim (replace re_newlines two_newlines content).

(** Printable ASCII: the units from the space to the tilde. *)
Definition printable (c : N) : bool := (32 <=? c)%N && (c <? 127)%N.

(** A unit of the input, a line feed or printable ASCII. *)
Definition from_input (x : jsstr) (c : N) : Prop :=
  In c x \/ c = LF \/ printable c = true.
(** ** The search for the source files (findRstFiles) *)

(** The directory tree under godotDocsPath as the search reads it:
    readdirSync lists the entries of a directory by name, in some order,
    and statSync, which follows links, tells a directory from a regular
    file.  [Other] is an entry that is neither; [Broken] is an entry for
    which statSync throws (a dangling link).  The tree is finite: no link
    leads back to a directory above it, and every directory can be
    read. *)
#[local] Unset Elimination Schemes.
Inductive node :=
| File
| Dir (items : list (jsstr * node))
| Other
| Broken.
#[local] Set Elimination Schemes.

(** path.sep of a POSIX system. *)
Definition path_sep : N := 47%N.

(** path.join(dir, item) for a directory path in normal form and an entry
    name: the two, joined by the separator. *)
Definition path_join (dir item : jsstr) : jsstr := dir ++ path_sep :: item.

(** path.relative(from, to) for a path [to] below the directory [from]:
    what follows [from] and the separator. *)
Definition path_relative (from to : jsstr) : jsstr :=
  drop (S (length from)) to.

Definition endsWith (s p : jsstr) : bool := startsWith (rev s) (rev p).

(** a < b on strings: the order of the code units, as the default
    comparison of Array.prototype.sort has it. *)
Fixpoint str_ltb (a b : jsstr) : bool :=
  match a, b with
  | _, [] => false
  | [], _ :: _ => true
  | x :: a', y :: b' => (x <? y)%N || ((x =? y)%N && str_ltb a' b')
  end.

(** rstFiles.sort(): the sorted arrangement of the array.  Strings that
    compare equal are the same string, so every sorting procedure gives
    this list. *)
Fixpoint sort_insert (x : jsstr) (l : list jsstr) : list jsstr :=
  match l with
  | [] => [x]
  | y :: l' => if str_ltb y x then y :: sort_insert x l' else x :: l
  end.

Definition sort (l : list jsstr) : list jsstr := fold_right sort_insert [] l.

Section FindRstFiles.

Variable excludedDirectories : list jsstr.

(** The root of the search, in the normal form that path.join gives it
    (godot-docs for the default ./godot-docs); it is not the current
    directory and has no separator at its end. *)
Variable godotDocsPath : jsstr.

(** item.startsWith('.') || item.startsWith('_') *)
Definition skipped (item : jsstr) : bool :=
  startsWith item (str ".") || startsWith item (str "_").

(** this.config.excludedDirectories.includes(name) *)
Definition excludes (name : jsstr) : bool :=
  existsb (eqb_str name) excludedDirectories.

(** path.relative(godotDocsPath, dir).split(path.sep)[0] *)
Definition topLevelDir (dir : jsstr) : jsstr :=
  hd [] (split path_sep (path_relative godotDocsPath dir)).

(** findRstFilesRecursive(dir, isSubdir) on the directory [n] found at
    [dir] (lines 245-282): the paths pushed to rstFiles, in the order of
    the pushes, or None when a call throws.  A directory reached by the
    recursion exists; readdirSync throws on what is no directory. *)
Fixpoint findRstFilesRecursive (n : node) (dir : jsstr) (isSubdir : bool)
    {struct n} : option (list jsstr) :=
  match n with
  | Dir items =>
      (fix loop (items : list (jsstr * node)) : option (list jsstr) :=
         match items with
         | [] => Some []
         | (item, child) :: rest =>
             if skipped item then loop rest
             else if isSubdir && excludes (topLevelDir dir) then loop rest
             else
               let itemPath := path_join dir item in
               match child with
               | Broken => None
               | Dir _ =>
                   if negb isSubdir && excludes item then loop rest
                   else
                     match findRstFilesRecursive child itemPath true with
                     | Some found =>
                         match loop rest with
                         | Some more => Some (found ++ more)
                         | None => None
                         end
                     | None => None
                     end
               | File =>
                   if endsWith item (str ".rst") && isSubdir then
                     match loop rest with
                     | Some more => Some (itemPath :: more)
                     | None => None
                     end
                   else loop rest
               | Other => loop rest
               end
         end) items
  | _ => None
  end.

(** findRstFiles (lines 242-286); [root] is None when godotDocsPath does
    not exist. *)
Definition findRstFiles (root : option node) : option (list jsstr) :=
  match root with
  | None => None
  | Some n =>
      match findRstFilesRecursive n godotDocsPath false with
      | Some rstFiles => Some (sort rstFiles)
      | None => None
      end
  end.

(** The criteria of the search for the names on the way from the root to
    an entry: the entry is below a directory of the root, no name starts
    with a dot or an underscore, the first directory is not excluded and
    the last name ends in .rst. *)
Definition matching (names : list jsstr) : bool :=
  forallb (fun name => negb (skipped name)) names
  && match last names with
     | Some name => endsWith name (str ".rst")
     | None => false
     end.

Definition eligible (names : list jsstr) : bool :=
  match names with
  | top :: _ :: _ => negb (excludes top) && matching names
  | _ => false
  end.

(** The trees on which no call of the search throws: the root is a
    directory, and no broken entry is met; what lies under a name that is
    skipped, or in an excluded directory of the root, is not looked at. *)
Fixpoint readable (top : bool) (n : node) {struct n} : bool :=
  match n with
  | Dir items =>
      (fix all (items : list (jsstr * node)) : bool :=
         match items with
         | [] => true
         | (item, child) :: rest =>
             (skipped item
              || match child with
                 | Broken => false
                 | Dir _ => (top && excludes item) || readable false child
                 | _ => true
                 end)
             && all rest
         end) items
  | _ => false
  end.

End FindRstFiles.

(** The entry that a list of names leads to. *)
Inductive at_path : node -> list jsstr -> node -> Prop :=
| at_here n : at_path n [] n
| at_step items name child names n :
    In (name, child) items -> at_path child names n ->
    at_path (Dir items) (name :: names) n.

(** The path of an entry: the names joined to the root. *)
Definition render (dir : jsstr) (names : list jsstr) : jsstr :=
  fold_left path_join names dir.

(** Entry names of the root have no separator in them. *)
Definition top_names_ok (root : node) : bool :=
  match root with
  | Dir items =>
      forallb (fun p => negb (existsb (N.eqb path_sep) (fst p))) items
  | _ => true
  end.

(** The array is in ascending order. *)
Fixpoint sorted (l : list jsstr) : bool :=
  match l with
  | x :: t =>
      match t with
      | y :: _ => negb (str_ltb y x)
      | [] => true
      end && sorted t
  | [] => true
  end.
(** ** The conversion of one file, with its effects on the file system *)

(** The files that the conversion reads and writes: the content at each
    path, None where there is no file. *)
Definition fsys := jsstr -> option jsstr.

(** fs.writeFileSync(path, data): creates or overwrites. *)
Definition writeFile (fs : fsys) (path data : jsstr) : fsys :=
  fun q => if eqb_str q path then Some data else fs q.

(** fs.unlinkSync(path) *)
Definition unlink (fs : fsys) (path : jsstr) : fsys :=
  fun q => if eqb_str q path then None else fs q.

Section ConversionEffects.

Variable pandoc : jsstr -> option jsstr.
Variable relativePath : jsstr -> jsstr.
Variable lang : language.

(** convertRstToMarkdown (lines 292-330) with the temporary file: the
    file system after the call and the returned text, None for the thrown
    error.  The converter process reads the temporary file; the finally
    block removes it, whether the process failed or not.  Writing and
    removing the temporary file are taken to succeed. *)
Definition convertRstToMarkdown_fs (fs : fsys) (rstFilePath : jsstr)
    : fsys * option jsstr :=
  match fs rstFilePath with
  | None => (fs, None)
  | Some rstContent =>
      let filteredContent := filterByLanguage lang rstContent in
      let tempFile := rstFilePath ++ str ".tmp" in
      let fs1 := writeFile fs tempFile filteredContent in
      let outcome :=
        match fs1 tempFile ≫= pandoc with
        | Some result =>
            let cleanedContent := cleanupForLLM result in
            let header :=
              nl ++ nl ++ str "## " ++ relativePath rstFilePath ++ nl ++ nl in
            Some (header ++ cleanedContent)
        | None => None
        end in
      (match fs1 tempFile with
       | Some _ => unlink fs1 tempFile
       | None => fs1
       end, outcome)
  end.

End ConversionEffects.
(** An identifier as the declaration patterns have it: a letter or an
    underscore, then letters, digits and underscores. *)
Definition is_identifier (name : jsstr) : bool :=
  match name with
  | n0 :: ns => in_cset ident_start n0 && forallb (in_cset ident_char) ns
  | [] => false
  end.
(** The rule of line 375: a line that starts with a lower-case key and a
    colon. *)
Definition re_metadata : regexp :=
  GM (cat [Bol; plus lower_start; star space; lit ":"; star space;
           star not_lf; Eol]).

(** The rule of line 386: a backticked class reference. *)
Definition re_class_reference : regexp :=
  G (cat [backtick; Group 1 (Seq (Set_ upper) (star alnum_));
          lit "<class_"; star (no ">"); lit ">"; backtick]).
(** ** The whole conversion (convert) *)

(** combineMarkdownFiles (lines 609-628): the text written to the output
    file, the converted documents joined by an empty line.  The header
    that the function builds first is not part of it. *)
Definition combineMarkdownFiles (convertedFiles : list jsstr) : jsstr :=
  join (nl ++ nl) convertedFiles.

Section Convert.

Variable excludedDirectories : list jsstr.
Variable godotDocsPath : jsstr.
Variable concurrency : nat.
Variable lang : language.
Variable readFile : jsstr -> option jsstr.
Variable pandoc : jsstr -> option jsstr.

(** convert (lines 48-75): the text written to outputFile, None when a
    step throws or the batch loop does not end.  [git] tells whether the
    git step is disabled or has returned; [schedule] gives, for the files
    found, the completion order of each batch. *)
Definition convert (git : bool) (root : option node)
    (schedule : list jsstr -> nat -> list nat) : option jsstr :=
  if git then
    match findRstFiles excludedDirectories godotDocsPath root with
    | Some rstFiles =>
        match convertFilesConcurrently readFile pandoc
                (path_relative godotDocsPath) lang concurrency rstFiles
                (schedule rstFiles) with
        | Some convertedFiles => Some (combineMarkdownFiles convertedFiles)
        | None => None
        end
    | None => None
    end
  else None.

End Convert.
(** The texts that the line filter of the cleaner rejects (lines 427-434),
    said without patterns: the empty text, a run of dashes and colons, a
    run of braces, the words group and separator, a text that starts with
    classref- and a text between angle brackets, the last two without a
    line terminator in them. *)
Definition dashes : cset := Class false [IChar (ch "-"); IChar (ch ":")].
Definition braces : cset := Class false [IChar (ch "{"); IChar (ch "}")].

Definition rejected (t : jsstr) : bool :=
  (length t =? 0)
  || forallb (in_cset dashes) t
  || forallb (in_cset braces) t
  || eqb_str t (str "group")
  || eqb_str t (str "separator")
  || (startsWith t (str "classref-") && forallb (in_cset Dot) t)
  || match t with
     | x :: r =>
         (x =? 60)%N && forallb (in_cset Dot) r
         && bool_decide (last r = Some 62%N)
     | [] => false
     end.
(** ** The configuration (constructor, getConfig, updateConfig) *)

(** The git object of a configuration as it is at run time: a key is
    absent (None) or holds a value.  A configuration file may give some of
    the keys only. *)
Record GitConfig := {
  git_enabled : option bool;
  git_repository : option jsstr;
  git_branch : option jsstr;
  git_autoUpdate : option bool
}.

(** this.config: the defaults give every top-level key a value, and no
    assignment removes a key. *)
Record ConverterConfig := {
  cfg_excludedDirectories : list jsstr;
  cfg_godotDocsPath : jsstr;
  cfg_outputFile : jsstr;
  cfg_concurrency : nat;
  cfg_language : language;
  cfg_git : GitConfig
}.

(** Partial<ConverterConfig>: the keys that a custom configuration or a
    configuration file gives. *)
Record PartialConfig := {
  p_excludedDirectories : option (list jsstr);
  p_godotDocsPath : option jsstr;
  p_outputFile : option jsstr;
  p_concurrency : option nat;
  p_language : option language;
  p_git : option GitConfig
}.

(** The defaults of lines 20-32. *)
Definition default_config : ConverterConfig :=
  {| cfg_excludedDirectories :=
       [str "about"; str "community"; str "contributing"; str "tutorials"];
     cfg_godotDocsPath := str "./godot-docs";
     cfg_outputFile := str "./llms.md";
     cfg_concurrency := 5;
     cfg_language := both;
     cfg_git :=
       {| git_enabled := Some true;
          git_repository :=
            Some (str "https://github.com/godotengine/godot-docs.git");
          git_branch := Some (str "master");
          git_autoUpdate := Some true |} |}.

(** Object.assign(target, source) and the spread of two objects: every key
    of the source replaces the key of the target. *)
Definition assign (target : ConverterConfig) (source : PartialConfig)
    : ConverterConfig :=
  {| cfg_excludedDirectories :=
       default (cfg_excludedDirectories target) (p_excludedDirectories source);
     cfg_godotDocsPath :=
       default (cfg_godotDocsPath target) (p_godotDocsPath source);
     cfg_outputFile := default (cfg_outputFile target) (p_outputFile source);
     cfg_concurrency := default (cfg_concurrency target) (p_concurrency source);
     cfg_language := default (cfg_language target) (p_language source);
     cfg_git := default (cfg_git target) (p_git source) |}.

Definition or_else {A} (o fallback : option A) : option A :=
  match o with Some v => Some v | None => fallback end.

(** The spread of two git objects. *)
Definition assign_git (target source : GitConfig) : GitConfig :=
  {| git_enabled := or_else (git_enabled source) (git_enabled target);
     git_repository := or_else (git_repository source) (git_repository target);
     git_branch := or_else (git_branch source) (git_branch target);
     git_autoUpdate := or_else (git_autoUpdate source) (git_autoUpdate target) |}.

(** The constructor (lines 35-43): the spread of the defaults and the
    custom configuration, then the spread of the git object of the result
    and the custom git object. *)
Definition constructor (customConfig : option PartialConfig)
    : ConverterConfig :=
  match customConfig with
  | Some custom =>
      let config := assign default_config custom in
      match p_git custom with
      | Some git =>
          {| cfg_excludedDirectories := cfg_excludedDirectories config;
             cfg_godotDocsPath := cfg_godotDocsPath config;
             cfg_outputFile := cfg_outputFile config;
             cfg_concurrency := cfg_concurrency config;
             cfg_language := cfg_language config;
             cfg_git := assign_git (cfg_git config) git |}
      | None => config
      end
  | None => default_config
  end.

(** updateConfig (lines 640-642) and getConfig (lines 633-635). *)
Definition updateConfig (config : ConverterConfig) (newConfig : PartialConfig)
    : ConverterConfig :=
  assign config newConfig.

Definition getConfig (config : ConverterConfig) : ConverterConfig := config.

(** this.config.git?.enabled, the test of line 55. *)
Definition runs_git_step (config : ConverterConfig) : bool :=
  default false (git_enabled (cfg_git config)).

(** * Properties *)

(** ** Facts about the string primitives *)

Section StringFacts.

Lemma split_nonempty sep s : split sep s <> [].
Proof.
  destruct s as [|c t]; simpl; [discriminate|].
  destruct (c =? sep)%N; [discriminate|].
  destruct (split sep t); discriminate.
Qed.

Lemma join_cons sep l l' ls :
  join sep (l :: l' :: ls) = l ++ sep ++ join sep (l' :: ls).
Proof. reflexivity. Qed.

Lemma join_split sep s : join [sep] (split sep s) = s.
Proof.
  induction s as [|c t IH]; simpl; [reflexivity|].
  destruct (N.eqb_spec c sep) as [->|Hne].
  - pose proof (split_nonempty sep t) as Hn.
    destruct (split sep t) as [|l ls]; [congruence|].
    rewrite join_cons, IH. reflexivity.
  - destruct (split sep t) as [|l ls] eqn:E.
    + now destruct (split_nonempty sep t).
    + destruct ls as [|l' ls]; simpl in *; now f_equal.
Qed.

Lemma split_no_sep sep s : Forall (fun l => ~ In sep l) (split sep s).
Proof.
  induction s as [|c t IH]; simpl.
  - constructor; [intros []|constructor].
  - destruct (N.eqb_spec c sep) as [->|Hne].
    + constructor; [intros []|exact IH].
    + destruct (split sep t) as [|l ls]; [repeat constructor; intros [?|[]]; congruence|].
      inversion IH; subst. constructor; [|assumption].
      intros [?|?]; [congruence|contradiction].
Qed.

Lemma split_app_no_sep sep l s :
  ~ In sep l -> split sep (l ++ sep :: s) = l :: split sep s.
Proof.
  induction l as [|c l IH]; intros Hl; simpl.
  - now rewrite N.eqb_refl.
  - destruct (N.eqb_spec c sep) as [->|Hne]; [destruct Hl; now left|].
    rewrite IH; [reflexivity|]. intros ?; apply Hl; now right.
Qed.

Lemma split_single sep l : ~ In sep l -> split sep l = [l].
Proof.
  induction l as [|c l IH]; intros Hl; simpl; [reflexivity|].
  destruct (N.eqb_spec c sep) as [->|Hne]; [destruct Hl; now left|].
  rewrite IH; [reflexivity|]. intros ?; apply Hl; now right.
Qed.

Lemma split_app_sep sep u w :
  split sep (u ++ sep :: w) = split sep u ++ split sep w.
Proof.
  induction u as [|c u IH]; simpl.
  - now rewrite N.eqb_refl.
  - destruct (N.eqb_spec c sep) as [->|Hne]; [now rewrite IH|].
    rewrite IH. pose proof (split_nonempty sep u) as Hn.
    destruct (split sep u); [congruence|reflexivity].
Qed.

Lemma split_join sep ls :
  ls <> [] -> Forall (fun l => ~ In sep l) ls ->
  split sep (join [sep] ls) = ls.
Proof.
  induction ls as [|l ls IH]; intros Hne Hall; [congruence|].
  inversion Hall as [|? ? Hl Hls]; subst.
  destruct ls as [|l' ls].
  - simpl. now apply split_single.
  - rewrite join_cons. simpl app. rewrite split_app_no_sep by assumption.
    f_equal. apply IH; [discriminate|assumption].
Qed.

Lemma no_lf_spec l : no_lf l = true <-> ~ In LF l.
Proof.
  unfold no_lf. rewrite forallb_forall. split.
  - intros H Hin. specialize (H _ Hin). now rewrite N.eqb_refl in H.
  - intros H c Hc. destruct (N.eqb_spec c LF) as [->|]; [contradiction|reflexivity].
Qed.

Lemma unlines_lines s : unlines (lines s) = s.
Proof. unfold unlines, lines, nl. apply join_split. Qed.

Lemma lines_no_lf s : Forall (fun l => no_lf l = true) (lines s).
Proof.
  unfold lines. eapply List.Forall_impl; [|apply split_no_sep].
  intros l Hl. now apply no_lf_spec.
Qed.

Lemma lines_unlines ls :
  ls <> [] -> Forall (fun l => no_lf l = true) ls -> lines (unlines ls) = ls.
Proof.
  intros Hne Hall. unfold unlines, lines, nl. apply split_join; [assumption|].
  eapply List.Forall_impl; [|exact Hall]. intros l Hl. now apply no_lf_spec.
Qed.

Lemma startsWith_app s p q : startsWith s (p ++ q) = true -> startsWith s p = true.
Proof.
  revert s. induction p as [|a p IH]; intros s H; [now destruct s|].
  destruct s as [|b s]; simpl in *; [discriminate|].
  apply andb_true_iff in H as [-> H]. simpl. eauto.
Qed.

End StringFacts.

(** ** The language tab filter *)

Section LanguageTabFilter.

Variable lang : language.

Lemma code_tab_is_directive t :
  startsWith t code_tab_prefix = true -> startsWith t (str "..") = true.
Proof.
  intros H. apply (startsWith_app t (str "..") (str " code-tab::")). exact H.
Qed.

Lemma filter_step_tabs st l :
  is_tabs_directive l = true ->
  filter_step lang st l =
  (FState true (insideTargetCodeTab st) (insideOtherCodeTab st) (indent l), [l]).
Proof. unfold is_tabs_directive, filter_step. now intros ->. Qed.

Lemma filter_step_outside st l :
  insideTabsBlock st = false -> is_tabs_directive l = false ->
  filter_step lang st l = (st, [l]).
Proof. unfold is_tabs_directive, filter_step. now intros -> ->. Qed.

Lemma filter_step_code_tab st l :
  insideTabsBlock st = true -> is_code_tab l = true ->
  filter_step lang st l =
  (FState true (includes (trim l) (targetLanguage lang))
          (negb (includes (trim l) (targetLanguage lang))) (tabsDepth st), []).
Proof.
  unfold is_code_tab, is_tabs_directive, filter_step.
  intros -> H. apply andb_true_iff in H as [Hn Hc].
  apply negb_true_iff in Hn. rewrite Hn, Hc.
  rewrite (code_tab_is_directive _ Hc). simpl negb. rewrite andb_false_r.
  now destruct (includes _ _).
Qed.

Lemma filter_step_content st l :
  insideTabsBlock st = true -> is_content (tabsDepth st) l = true ->
  filter_step lang st l =
  (st, if insideTargetCodeTab st then [l]
       else if insideOtherCodeTab st then [] else [l]).
Proof.
  unfold is_content, is_tabs_directive, filter_step.
  intros -> H. apply andb_true_iff in H as [H Hd].
  apply andb_true_iff in H as [Hn Hp].
  apply negb_true_iff in Hn. apply negb_true_iff in Hp. rewrite Hn, Hp.
  simpl negb.
  assert (Hc : startsWith (trim l) code_tab_prefix = false).
  { destruct (startsWith (trim l) code_tab_prefix) eqn:E; [|reflexivity].
    apply code_tab_is_directive in E. congruence. }
  rewrite Hc. simpl negb.
  assert (Hx : (0 <? length (trim l)) && (indent l <=? tabsDepth st) = false).
  { apply orb_true_iff in Hd as [Hd|Hd].
    - apply Nat.eqb_eq in Hd. rewrite Hd. reflexivity.
    - apply Nat.ltb_lt in Hd. apply andb_false_iff. right.
      apply Nat.leb_gt. exact Hd. }
  rewrite Hx. simpl.
  now destruct (insideTargetCodeTab st), (insideOtherCodeTab st).
Qed.

Lemma filter_step_exit st l :
  insideTabsBlock st = true -> is_exit (tabsDepth st) l = true ->
  filter_step lang st l = (FState false false false (tabsDepth st), [l]).
Proof.
  unfold is_exit, is_tabs_directive, filter_step.
  intros -> H. apply andb_true_iff in H as [H Hp].
  apply andb_true_iff in H as [H Hi]. apply andb_true_iff in H as [Hn Hl].
  apply negb_true_iff in Hn. now rewrite Hn, Hl, Hi, Hp.
Qed.

Lemma filter_loop_cons st l ls :
  filter_loop lang st (l :: ls) =
  snd (filter_step lang st l) ++ filter_loop lang (fst (filter_step lang st l)) ls.
Proof. simpl. now destruct (filter_step lang st l). Qed.

Lemma filter_loop_app st a b :
  filter_loop lang st (a ++ b) =
  filter_loop lang st a ++ filter_loop lang (filter_state lang st a) b.
Proof.
  revert st. induction a as [|l a IH]; intros st; [reflexivity|].
  rewrite <- app_comm_cons, !filter_loop_cons, IH, <- app_assoc. reflexivity.
Qed.

(** Every line pushed is the line read. *)
Lemma filter_step_out st l :
  snd (filter_step lang st l) = [l] \/ snd (filter_step lang st l) = [].
Proof.
  unfold filter_step.
  repeat match goal with
         | |- context [if ?b then _ else _] => destruct b
         end; simpl; auto.
Qed.

Lemma filter_loop_sublist st ls l : In l (filter_loop lang st ls) -> In l ls.
Proof.
  revert st. induction ls as [|x ls IH]; intros st; [now simpl|].
  rewrite filter_loop_cons, in_app_iff. intros [H|H].
  - destruct (filter_step_out st x) as [E|E]; rewrite E in H.
    + destruct H as [->|[]]. now left.
    + destruct H.
  - right. eauto.
Qed.

(** Outside a tabs block the first line read is always pushed. *)
Lemma filter_loop_first st l ls :
  insideTabsBlock st = false ->
  exists out, filter_loop lang st (l :: ls) = l :: out.
Proof.
  intros Hs. rewrite filter_loop_cons.
  destruct (is_tabs_directive l) eqn:E.
  - rewrite filter_step_tabs by assumption. simpl. eauto.
  - rewrite filter_step_outside by assumption. simpl. eauto.
Qed.

Lemma lines_filter_loop content :
  lines (unlines (filter_loop lang fstate0 (lines content))) =
  filter_loop lang fstate0 (lines content).
Proof.
  apply lines_unlines.
  - pose proof (split_nonempty LF content) as Hn. unfold lines.
    destruct (split LF content) as [|l ls]; [congruence|].
    destruct (filter_loop_first fstate0 l ls eq_refl) as [out ->]. discriminate.
  - apply List.Forall_forall. intros l Hl. apply filter_loop_sublist in Hl.
    pose proof (lines_no_lf content) as Hall.
    rewrite List.Forall_forall in Hall. now apply Hall.
Qed.

(** Every tabs directive is pushed, whatever the state. *)
Lemma filter_loop_keeps_tabs st ls :
  List.filter is_tabs_directive (filter_loop lang st ls) =
  List.filter is_tabs_directive ls.
Proof.
  revert st. induction ls as [|l ls IH]; intros st; [reflexivity|].
  rewrite filter_loop_cons, List.filter_app, IH. simpl.
  destruct (is_tabs_directive l) eqn:E.
  - rewrite filter_step_tabs by assumption. simpl. now rewrite E.
  - destruct (filter_step_out st l) as [H|H]; rewrite H; simpl; [now rewrite E|reflexivity].
Qed.

(** A code-tab directive is pushed only when read outside a tabs block. *)
Lemma filter_loop_code_tab st ls l :
  In l (filter_loop lang st ls) -> is_code_tab l = true ->
  exists pre post,
    ls = pre ++ l :: post /\ insideTabsBlock (filter_state lang st pre) = false.
Proof.
  revert st. induction ls as [|x ls IH]; intros st Hin Hc; [destruct Hin|].
  rewrite filter_loop_cons, in_app_iff in Hin. destruct Hin as [Hin|Hin].
  - destruct (filter_step_out st x) as [E|E]; rewrite E in Hin;
      [destruct Hin as [->|[]]|destruct Hin].
    exists [], ls. split; [reflexivity|]. simpl.
    destruct (insideTabsBlock st) eqn:Hs; [|reflexivity].
    rewrite filter_step_code_tab in E by assumption. discriminate.
  - destruct (IH _ Hin Hc) as (pre & post & -> & Hs).
    exists (x :: pre), post. split; [reflexivity|exact Hs].
Qed.

End LanguageTabFilter.

Section TabBlocks.

Variable lang : language.

Lemma filter_state_cons st l ls :
  filter_state lang st (l :: ls) =
  filter_state lang (fst (filter_step lang st l)) ls.
Proof. reflexivity. Qed.

(** Content lines leave the state alone and are pushed or dropped by the
    flags alone. *)
Lemma content_law st body rest :
  insideTabsBlock st = true ->
  forallb (is_content (tabsDepth st)) body = true ->
  filter_loop lang st (body ++ rest) =
  (if insideTargetCodeTab st then body
   else if insideOtherCodeTab st then [] else body)
  ++ filter_loop lang st rest.
Proof.
  intros Hs. induction body as [|l body IH]; intros Hb.
  - now destruct (insideTargetCodeTab st), (insideOtherCodeTab st).
  - simpl in Hb. apply andb_true_iff in Hb as [Hl Hb].
    rewrite <- app_comm_cons, filter_loop_cons.
    rewrite filter_step_content by assumption. simpl fst; simpl snd.
    rewrite IH by assumption.
    now destruct (insideTargetCodeTab st), (insideOtherCodeTab st).
Qed.

(** One code tab inside a block: the directive is dropped, the content is
    kept exactly when the directive names the target language. *)
Lemma tab_law st t rest :
  insideTabsBlock st = true -> wf_tab (tabsDepth st) t = true ->
  filter_loop lang st (tab_lines t ++ rest) =
  tab_selected (targetLanguage lang) t
  ++ filter_loop lang
       (FState true (includes (trim (fst t)) (targetLanguage lang))
               (negb (includes (trim (fst t)) (targetLanguage lang)))
               (tabsDepth st)) rest.
Proof.
  intros Hs Hw. destruct t as [d body]. unfold wf_tab in Hw. cbn [fst snd] in Hw.
  apply andb_true_iff in Hw as [Hd Hb].
  unfold tab_lines, tab_selected. simpl fst; simpl snd.
  rewrite <- app_comm_cons, filter_loop_cons.
  rewrite filter_step_code_tab by assumption. simpl fst; simpl snd.
  rewrite content_law by (first [reflexivity | exact Hb]).
  cbn [insideTargetCodeTab insideOtherCodeTab].
  now destruct (includes (trim d) (targetLanguage lang)).
Qed.

Lemma tabs_law tabs : forall st rest,
  insideTabsBlock st = true ->
  forallb (wf_tab (tabsDepth st)) tabs = true ->
  exists st',
    insideTabsBlock st' = true /\ tabsDepth st' = tabsDepth st /\
    filter_loop lang st (flat_map tab_lines tabs ++ rest) =
    flat_map (tab_selected (targetLanguage lang)) tabs
    ++ filter_loop lang st' rest.
Proof.
  induction tabs as [|t tabs IH]; intros st rest Hs Hw.
  - exists st. auto.
  - simpl in Hw. apply andb_true_iff in Hw as [Ht Hw].
    cbn [flat_map]. rewrite <- app_assoc, tab_law by assumption.
    edestruct (IH (FState true (includes (trim (fst t)) (targetLanguage lang))
                          (negb (includes (trim (fst t)) (targetLanguage lang)))
                          (tabsDepth st)) rest) as (st' & H1 & H2 & H3);
      [reflexivity|exact Hw|].
    exists st'. rewrite H3, app_assoc. auto.
Qed.

(** Lines without a tabs directive, read outside a block, are all kept. *)
Lemma outside_law ls : forall st rest,
  insideTabsBlock st = false ->
  forallb (fun l => negb (is_tabs_directive l)) ls = true ->
  filter_loop lang st (ls ++ rest) = ls ++ filter_loop lang st rest.
Proof.
  induction ls as [|l ls IH]; intros st rest Hs Hn; [reflexivity|].
  simpl in Hn. apply andb_true_iff in Hn as [Hl Hn].
  apply negb_true_iff in Hl.
  rewrite <- app_comm_cons, filter_loop_cons.
  rewrite filter_step_outside by assumption. simpl.
  now rewrite IH.
Qed.

Lemma after_law st ls rest :
  insideTabsBlock st = true -> wf_after (tabsDepth st) ls = true ->
  exists st', filter_loop lang st (ls ++ rest) = ls ++ filter_loop lang st' rest.
Proof.
  intros Hs Hw. unfold wf_after in Hw. apply andb_true_iff in Hw as [Hn He].
  destruct ls as [|l ls]; [exists st; reflexivity|].
  simpl in Hn. apply andb_true_iff in Hn as [_ Hn].
  rewrite <- app_comm_cons, filter_loop_cons.
  rewrite filter_step_exit by assumption. simpl fst; simpl snd.
  rewrite outside_law by (auto). eexists. reflexivity.
Qed.

(** A whole block, from any state. *)
Lemma block_law b st rest :
  wf_block b = true ->
  exists st',
    filter_loop lang st (block_lines b ++ rest) =
    block_selected (targetLanguage lang) b ++ filter_loop lang st' rest.
Proof.
  intros Hw. unfold wf_block in Hw.
  apply andb_true_iff in Hw as [Hw _]. apply andb_true_iff in Hw as [Hw Ha].
  apply andb_true_iff in Hw as [Hd Ht].
  unfold block_lines, block_selected.
  rewrite <- !app_comm_cons, filter_loop_cons.
  rewrite filter_step_tabs by assumption. simpl fst; simpl snd.
  rewrite <- !app_assoc.
  edestruct (tabs_law (b_tabs b)
               (FState true (insideTargetCodeTab st) (insideOtherCodeTab st)
                       (indent (b_directive b))) (b_after b ++ rest))
    as (st1 & H1 & H2 & H3); [reflexivity|exact Ht|].
  rewrite H3.
  destruct (after_law st1 (b_after b) rest H1) as (st2 & H4).
  { rewrite H2. exact Ha. }
  rewrite H4. exists st2. cbn [app]. now rewrite <- app_assoc.
Qed.

Lemma blocks_law blocks : forall st,
  forallb wf_block blocks = true ->
  filter_loop lang st (flat_map block_lines blocks) =
  flat_map (block_selected (targetLanguage lang)) blocks.
Proof.
  induction blocks as [|b blocks IH]; intros st Hw; [reflexivity|].
  simpl in Hw. apply andb_true_iff in Hw as [Hb Hw]. cbn [flat_map].
  destruct (block_law b st (flat_map block_lines blocks) Hb) as (st' & ->).
  now rewrite IH.
Qed.

Lemma document_law pre blocks :
  forallb (fun l => negb (is_tabs_directive l)) pre = true ->
  forallb wf_block blocks = true ->
  filter_loop lang fstate0 (pre ++ flat_map block_lines blocks) =
  pre ++ flat_map (block_selected (targetLanguage lang)) blocks.
Proof.
  intros Hp Hb. rewrite outside_law by auto. now rewrite blocks_law.
Qed.

Lemma block_lines_no_lf blocks :
  forallb wf_block blocks = true ->
  Forall (fun l => no_lf l = true) (flat_map block_lines blocks).
Proof.
  induction blocks as [|b blocks IH]; intros Hw; [constructor|].
  simpl in Hw. apply andb_true_iff in Hw as [Hb Hw]. cbn [flat_map].
  apply Forall_app. split; [|auto].
  unfold wf_block in Hb. apply andb_true_iff in Hb as [_ Hb].
  apply List.Forall_forall. rewrite forallb_forall in Hb. exact Hb.
Qed.

End TabBlocks.

(** *** Statements about filterByLanguage *)

Lemma lines_filterByLanguage lang content :
  lang <> both ->
  lines (filterByLanguage lang content) =
  filter_loop lang fstate0 (lines content).
Proof.
  intros Hl. destruct lang; [| |congruence]; apply lines_filter_loop.
Qed.

(** C10. No-filter identity: with the language filter set to both,
    filterByLanguage returns its input unchanged. *)
Theorem filterByLanguage_both_identity (x : jsstr) :
  filterByLanguage both x = x.
Proof. reflexivity. Qed.

(** C5, as stated, fails: a tabs directive is pushed to the output, and so
    is a code-tab directive read outside a tabs block. *)
Lemma filterByLanguage_directives_counterexample :
  let doc := unlines [str ".. code-tab:: csharp"; str "  a"; str ".. tabs::";
                      str " .. code-tab:: gdscript"; str "  x"] in
  lines (filterByLanguage gdscript doc) =
    [str ".. code-tab:: csharp"; str "  a"; str ".. tabs::"; str "  x"]
  /\ ~ (forall l, In l (lines (filterByLanguage gdscript doc)) ->
          is_tabs_directive l = false
          /\ startsWith (trim l) code_tab_prefix = false).
Proof.
  split; [vm_compute; reflexivity|].
  intros H. specialize (H (str ".. tabs::")).
  assert (Hin : In (str ".. tabs::")
                   (lines (filterByLanguage gdscript
                      (unlines [str ".. code-tab:: csharp"; str "  a";
                                str ".. tabs::"; str " .. code-tab:: gdscript";
                                str "  x"])))).
  { vm_compute. right; right; left; reflexivity. }
  destruct (H Hin) as [H1 _]. vm_compute in H1. discriminate.
Qed.

(** C5, amended.  For a selecting filter, every tabs directive of the
    input is kept (in order); a code-tab directive read while the scanner
    is inside a tabs block is dropped; and a code-tab directive found in the
    output was read outside every tabs block. *)
Theorem filterByLanguage_directive_lines (lang : language) (x : jsstr) :
  lang <> both ->
  List.filter is_tabs_directive (lines (filterByLanguage lang x)) =
    List.filter is_tabs_directive (lines x)
  /\ (forall pre l post,
        lines x = pre ++ l :: post -> is_code_tab l = true ->
        insideTabsBlock (filter_state lang fstate0 pre) = true ->
        snd (filter_step lang (filter_state lang fstate0 pre) l) = [])
  /\ (forall l,
        In l (lines (filterByLanguage lang x)) -> is_code_tab l = true ->
        exists pre post,
          lines x = pre ++ l :: post
          /\ insideTabsBlock (filter_state lang fstate0 pre) = false).
Proof.
  intros Hl. rewrite lines_filterByLanguage by assumption.
  split; [apply filter_loop_keeps_tabs|]. split.
  - intros pre l post _ Hc Hs. now rewrite filter_step_code_tab.
  - intros l Hin Hc. now apply (filter_loop_code_tab lang fstate0).
Qed.

Lemma filterByLanguage_directive_lines_witness :
  let x := unlines [str ".. tabs::"; str " .. code-tab:: csharp"; str "  a"] in
  csharp <> both
  /\ List.filter is_tabs_directive (lines (filterByLanguage csharp x)) =
       List.filter is_tabs_directive (lines x).
Proof.
  split; [discriminate|].
  apply (filterByLanguage_directive_lines csharp). discriminate.
Defined.

(** C2, as stated, fails: the content of a csharp code tab survives the
    gdscript filter when the code tab is not inside a tabs block, and when
    a tabs directive occurs inside the code tab. *)
Lemma filterByLanguage_exclusivity_counterexample :
  In (str "  Console.WriteLine();")
     (lines (filterByLanguage gdscript
               (unlines [str ".. code-tab:: csharp";
                         str "  Console.WriteLine();"])))
  /\ In (str "   Console.WriteLine();")
        (lines (filterByLanguage gdscript
                  (unlines [str ".. tabs::"; str " .. code-tab:: csharp";
                            str "    .. tabs::";
                            str "   Console.WriteLine();"]))).
Proof.
  split; vm_compute; [right; left; reflexivity|].
  right; right; left; reflexivity.
Qed.

(** C2, amended.  For a document made of text without tabs directives
    followed by well-formed tabs blocks (each a tabs directive, code tabs
    whose content lines are blank or indented deeper than the directive and
    are no directives, and text that starts with a line closing the block),
    the gdscript filter returns the document with every code-tab directive
    removed, the content of every code tab whose directive names gdscript
    kept verbatim and in order, and the content of every other code tab
    removed. *)
Theorem filterByLanguage_gdscript_blocks (pre : list jsstr)
    (blocks : list tabblock) :
  forallb (fun l => negb (is_tabs_directive l)) pre = true ->
  forallb no_lf pre = true ->
  forallb wf_block blocks = true ->
  filterByLanguage gdscript (unlines (pre ++ flat_map block_lines blocks)) =
  unlines (pre ++ flat_map (block_selected (str "gdscript")) blocks).
Proof.
  intros Hp Hn Hb. unfold filterByLanguage.
  destruct (pre ++ flat_map block_lines blocks) as [|l ls] eqn:E.
  - apply app_eq_nil in E as [-> E]. destruct blocks as [|b blocks];
      [reflexivity|discriminate].
  - rewrite lines_unlines.
    + rewrite <- E. now rewrite document_law.
    + discriminate.
    + rewrite <- E. apply Forall_app. split.
      * apply List.Forall_forall. rewrite forallb_forall in Hn. exact Hn.
      * now apply block_lines_no_lf.
Qed.

Lemma filterByLanguage_gdscript_blocks_witness :
  filterByLanguage gdscript
    (unlines ([str "Intro"] ++
              flat_map block_lines
                [TabBlock (str ".. tabs::")
                          [(str " .. code-tab:: gdscript", [str "  var a = 1"; []]);
                           (str " .. code-tab:: csharp", [str "  int a = 1;"])]
                          [str "Outro"]])) =
  unlines [str "Intro"; str ".. tabs::"; str "  var a = 1"; []; str "Outro"].
Proof.
  apply (filterByLanguage_gdscript_blocks [str "Intro"]); reflexivity.
Defined.

(** ** The batch orchestrator *)

Lemma trimStart_nil s : trimStart s = [] -> forallb is_space s = true.
Proof.
  induction s as [|c t IH]; simpl; [reflexivity|].
  destruct (is_space c); [exact IH|discriminate].
Qed.

Lemma trim_nonempty s c :
  In c s -> is_space c = false -> trim s <> [].
Proof.
  intros Hin Hc Ht. unfold trim, trimEnd in Ht.
  assert (Hr : trimStart (rev (trimStart s)) = []).
  { destruct (trimStart (rev (trimStart s))); [reflexivity|].
    simpl in Ht. now destruct (rev l). }
  apply trimStart_nil in Hr. rewrite forallb_forall in Hr.
  assert (Hin' : In c (trimStart s)).
  { clear Ht Hr. induction s as [|x t IH]; [destruct Hin|]. simpl.
    destruct (is_space x) eqn:E.
    - destruct Hin as [->|Hin]; [congruence|]. auto.
    - exact Hin. }
  apply in_rev in Hin'. specialize (Hr _ Hin'). congruence.
Qed.

Section OrchestratorFacts.

Variable readFile : jsstr -> option jsstr.
Variable pandoc : jsstr -> option jsstr.
Variable relativePath : jsstr -> jsstr.
Variable lang : language.
Variable concurrency : nat.

Local Abbreviation outcome :=
  (convertRstToMarkdown readFile pandoc relativePath lang).
Local Abbreviation completeP :=
  (complete readFile pandoc relativePath lang).
Local Abbreviation run_batchP :=
  (run_batch readFile pandoc relativePath lang).
Local Abbreviation batch_loopP :=
  (batch_loop readFile pandoc relativePath lang concurrency).

(** A converted document starts with its header, so it is never blank. *)
Lemma outcome_not_blank f md : outcome f = Some md -> trim md <> [].
Proof.
  unfold convertRstToMarkdown.
  destruct (readFile f); [|discriminate].
  destruct (pandoc _); [|discriminate].
  intros [= <-]. apply (trim_nonempty _ 35%N); [|reflexivity].
  simpl. right; right; left; reflexivity.
Qed.

Lemma complete_eq res idx f :
  completeP res idx f =
  match outcome f with
  | Some md => <[idx := Some md]> res
  | None => res
  end.
Proof.
  unfold complete. destruct (outcome f) as [md|] eqn:E; [|reflexivity].
  pose proof (outcome_not_blank _ _ E) as Hn.
  destruct (trim md); [congruence|reflexivity].
Qed.

Lemma complete_length res idx f : length (completeP res idx f) = length res.
Proof.
  rewrite complete_eq. destruct (outcome f); [apply length_insert|reflexivity].
Qed.

Lemma run_batch_length order : forall res i batch,
  length (run_batchP res i batch order) = length res.
Proof.
  induction order as [|b order IH]; intros res i batch; [reflexivity|].
  unfold run_batch in *. simpl. rewrite IH.
  destruct (batch !! b); [apply complete_length|reflexivity].
Qed.

(** The slot [j] after a batch: written when one of the completed
    promises is the one of index [j] and its conversion succeeded. *)
Lemma run_batch_lookup order : forall (res : list (option jsstr)) i (batch : list jsstr) j,
  j < length res ->
  run_batchP res i batch order !! j =
  match (if bool_decide (i <= j /\ j - i ∈ order)
         then batch !! (j - i) ≫= outcome else None) with
  | Some md => Some (Some md)
  | None => res !! j
  end.
Proof.
  induction order as [|b order IH]; intros res i batch j Hj.
  - simpl. rewrite bool_decide_eq_false_2; [reflexivity|].
    intros [_ H]. now apply elem_of_nil in H.
  - unfold run_batch in *. simpl.
    set (res' := match batch !! b with
                 | Some f => completeP res (i + b) f
                 | None => res
                 end).
    assert (Hlen : length res' = length res).
    { subst res'. destruct (batch !! b); [apply complete_length|reflexivity]. }
    rewrite IH by lia.
    destruct (decide (i + b = j)) as [Heq|Hne].
    + assert (Hb : j - i = b) by lia. rewrite Hb.
      assert (Hres : res' !! j =
                     match batch !! b ≫= outcome with
                     | Some md => Some (Some md)
                     | None => res !! j
                     end).
      { subst res'. destruct (batch !! b) as [f|]; [|reflexivity]. simpl.
        rewrite complete_eq. destruct (outcome f) as [md|]; [|reflexivity].
        rewrite Heq. now apply list_lookup_insert_eq. }
      rewrite (bool_decide_eq_true_2 (i <= j /\ b ∈ b :: order));
        [|split; [lia|apply elem_of_cons; now left]].
      rewrite Hres.
      destruct (bool_decide (i <= j /\ b ∈ order));
        destruct (batch !! b ≫= outcome); reflexivity.
    + assert (Hres : res' !! j = res !! j).
      { subst res'. destruct (batch !! b) as [f|]; [|reflexivity].
        rewrite complete_eq. destruct (outcome f); [|reflexivity].
        now apply list_lookup_insert_ne. }
      rewrite Hres.
      rewrite (bool_decide_ext (i <= j /\ j - i ∈ order)
                               (i <= j /\ j - i ∈ b :: order)); [reflexivity|].
      rewrite elem_of_cons. split; [tauto|].
      intros [H1 [H2|H2]]; [lia|tauto].
Qed.

Local Abbreviation loop_invP :=
  (loop_inv readFile pandoc relativePath lang).

Lemma loop_inv_batch rstFiles order i res :
  0 < concurrency ->
  order ≡ₚ seq 0 (length (take concurrency (drop i rstFiles))) ->
  loop_invP rstFiles i res ->
  loop_invP rstFiles (i + concurrency)
           (run_batchP res i (take concurrency (drop i rstFiles)) order).
Proof.
  intros Hk Hperm [Hlen Hinv]. split; [now rewrite run_batch_length|].
  intros j Hj. rewrite run_batch_lookup by lia. rewrite (Hinv j Hj).
  destruct (decide (i <= j /\ j < i + concurrency)) as [[H1 H2]|Hout].
  - rewrite bool_decide_eq_true_2.
    + rewrite lookup_take_lt by lia. rewrite lookup_drop.
      replace (i + (j - i)) with j by lia.
      rewrite (bool_decide_eq_true_2 (j < i + concurrency)) by lia.
      rewrite (bool_decide_eq_false_2 (j < i)) by lia.
      now destruct (rstFiles !! j ≫= outcome).
    + split; [lia|]. rewrite Hperm. apply elem_of_seq.
      rewrite length_take, length_drop. lia.
  - assert (Hnone : (if bool_decide (i <= j /\ j - i ∈ order)
                     then take concurrency (drop i rstFiles) !! (j - i) ≫= outcome
                     else None) = None).
    { destruct (bool_decide_reflect (i <= j /\ j - i ∈ order)) as [[H1 H2]|];
        [|reflexivity].
      rewrite lookup_take_ge by lia. reflexivity. }
    rewrite Hnone.
    destruct (decide (j < i)).
    + rewrite !bool_decide_eq_true_2 by lia. reflexivity.
    + rewrite !bool_decide_eq_false_2 by lia. reflexivity.
Qed.

Lemma batch_loop_inv rstFiles schedule :
  0 < concurrency ->
  admissible concurrency rstFiles schedule ->
  forall fuel i res,
    length rstFiles - i <= fuel ->
    loop_invP rstFiles i res ->
    exists res',
      batch_loopP fuel rstFiles schedule i res = Some res'
      /\ loop_invP rstFiles (length rstFiles) res'.
Proof.
  intros Hk Hadm. induction fuel as [|fuel IH]; intros i res Hfuel Hinv.
  - simpl. rewrite (proj2 (Nat.ltb_ge _ _)) by lia.
    exists res. split; [reflexivity|].
    destruct Hinv as [Hlen Hinv]. split; [exact Hlen|].
    intros j Hj. rewrite (Hinv j Hj).
    now rewrite !bool_decide_eq_true_2 by lia.
  - simpl. destruct (Nat.ltb_spec i (length rstFiles)) as [Hlt|Hge].
    + apply IH; [lia|]. apply loop_inv_batch; auto.
    + exists res. split; [reflexivity|].
      destruct Hinv as [Hlen Hinv]. split; [exact Hlen|].
      intros j Hj. rewrite (Hinv j Hj).
      now rewrite !bool_decide_eq_true_2 by lia.
Qed.

Lemma loop_inv_final rstFiles res :
  loop_invP rstFiles (length rstFiles) res -> res = outcome <$> rstFiles.
Proof.
  intros [Hlen Hinv]. apply list_eq. intros j.
  rewrite list_lookup_fmap.
  destruct (decide (j < length rstFiles)) as [Hj|Hj].
  - rewrite (Hinv j Hj), bool_decide_eq_true_2 by lia.
    destruct (lookup_lt_is_Some_2 rstFiles j Hj) as [f ->]. reflexivity.
  - rewrite !lookup_ge_None_2 by lia. reflexivity.
Qed.

Lemma omap_id_fmap (fs : list jsstr) :
  omap id (outcome <$> fs) = omap outcome fs.
Proof.
  induction fs as [|f fs IH]; [reflexivity|].
  cbn [fmap list_fmap omap list_omap]. unfold id at 1.
  destruct (outcome f); [f_equal|]; exact IH.
Qed.

(** C9. Order preservation with failure isolation: for every list of
    documents, every positive concurrency bound and every order in which
    the conversions of a batch complete, the loop terminates and the
    output sequence is the list of the converted documents of the input
    list, in the order of the input list; a failed conversion removes
    only its own document. *)
Theorem convertFilesConcurrently_order (rstFiles : list jsstr)
    (schedule : nat -> list nat) :
  0 < concurrency ->
  admissible concurrency rstFiles schedule ->
  convertFilesConcurrently readFile pandoc relativePath lang concurrency
                           rstFiles schedule =
  Some (omap outcome rstFiles).
Proof.
  intros Hk Hadm. unfold convertFilesConcurrently.
  destruct (batch_loop_inv rstFiles schedule Hk Hadm (length rstFiles) 0
              (replicate (length rstFiles) None)) as (res & -> & Hinv).
  - lia.
  - split; [apply length_replicate|]. intros j Hj.
    rewrite lookup_replicate_2 by lia.
    now rewrite bool_decide_eq_false_2 by lia.
  - apply loop_inv_final in Hinv. subst res. now rewrite omap_id_fmap.
Qed.

End OrchestratorFacts.

Lemma convertFilesConcurrently_order_witness :
  let readFile := fun f : jsstr =>
    if eqb_str f (str "d3.rst") then None else Some f in
  let files := [str "d1.rst"; str "d2.rst"; str "d3.rst"; str "d4.rst";
                str "d5.rst"; str "d6.rst"; str "d7.rst"] in
  let schedule := fun i => rev (seq 0 (length (take 5 (drop i files)))) in
  0 < 5
  /\ admissible 5 files schedule
  /\ convertFilesConcurrently readFile Some id both 5 files schedule =
     Some (omap (convertRstToMarkdown readFile Some id both) files).
Proof.
  intros readFile files schedule.
  assert (Hadm : admissible 5 files schedule).
  { intros i. subst schedule. cbv beta. symmetry. apply Permutation_rev. }
  split; [lia|]. split; [exact Hadm|].
  apply (convertFilesConcurrently_order readFile Some id both 5 files schedule);
    [lia|exact Hadm].
Defined.

(** The scenario of the specification: seven documents, a bound of five,
    the third conversion fails; six documents come out, in input order. *)
Example seven_documents_third_fails :
  let readFile := fun f : jsstr =>
    if eqb_str f (str "d3.rst") then None else Some f in
  let files := [str "d1.rst"; str "d2.rst"; str "d3.rst"; str "d4.rst";
                str "d5.rst"; str "d6.rst"; str "d7.rst"] in
  let schedule := fun i => rev (seq 0 (length (take 5 (drop i files)))) in
  convertFilesConcurrently readFile Some id both 5 files schedule =
  Some (map (fun f => nl ++ nl ++ str "## " ++ f ++ nl ++ nl ++ cleanupForLLM f)
            [str "d1.rst"; str "d2.rst"; str "d4.rst"; str "d5.rst";
             str "d6.rst"; str "d7.rst"]).
Proof. vm_compute. reflexivity. Qed.

(** ** The matcher *)

Section MatcherFacts.

Variable m : bool.

Lemma last_unit_cons p x w : last_unit p (x :: w) = last_unit (Some x) w.
Proof. reflexivity. Qed.

Lemma quant_sound g cs s : forall lo hi p c k res,
  quant g cs lo hi p s c k = Some res ->
  exists w s',
    s = w ++ s' /\ forallb (in_cset cs) w = true /\ lo <= length w
    /\ hi_ok hi (length w) /\ k (last_unit p w) s' c = Some res.
Proof.
  assert (Hstop : forall lo hi p s0 c (k : cont) res,
    match lo with 0 => k p s0 c | S _ => None end = Some res ->
    exists w s', s0 = w ++ s' /\ forallb (in_cset cs) w = true
      /\ lo <= length w /\ hi_ok hi (length w)
      /\ k (last_unit p w) s' c = Some res).
  { intros lo hi p s0 c k res H. destruct lo; [|discriminate].
    exists [], s0. repeat split; auto. destruct hi; simpl; lia. }
  induction s as [|x t IH]; intros lo hi p c k res H.
  - simpl in H. now apply Hstop.
  - simpl in H.
    assert (Hmore : quant g cs (pred lo) (hi_pred hi) (Some x) t c k = Some res ->
                    hi_allows hi && in_cset cs x = true ->
                    exists w s', x :: t = w ++ s'
                      /\ forallb (in_cset cs) w = true /\ lo <= length w
                      /\ hi_ok hi (length w)
                      /\ k (last_unit p w) s' c = Some res).
    { intros Hq Hc. apply andb_true_iff in Hc as [Hh Hx].
      destruct (IH _ _ _ _ _ _ Hq) as (w & s' & -> & Hw & Hlo & Hhi & Hk).
      exists (x :: w), s'. simpl. rewrite Hx, Hw.
      repeat split; auto; [lia|].
      destruct hi as [[|h]|]; simpl in *; try discriminate; lia. }
    destruct (hi_allows hi && in_cset cs x) eqn:Hc; [|now apply Hstop].
    destruct g.
    + destruct (quant true cs (pred lo) (hi_pred hi) (Some x) t c k) eqn:Hq.
      * inversion H; subst. now apply Hmore.
      * now apply Hstop.
    + destruct (match lo with 0 => k p (x :: t) c | S _ => None end) eqn:Hs.
      * inversion H; subst. now apply Hstop.
      * now apply Hmore.
Qed.

(** Soundness of the matcher: a successful run follows a declarative
    match and then its continuation. *)
Lemma mt_sound r : forall p s c k res,
  mt m r p s c k = Some res ->
  exists p' s' c', Matches m r p s c p' s' c' /\ k p' s' c' = Some res.
Proof.
  induction r as [|x|cs|a IHa b IHb|g lo hi cs|a IHa|i a IHa| | |a IHa];
    intros p s c k res H; simpl in H.
  - exists p, s, c. split; [constructor|exact H].
  - destruct s as [|y t]; [discriminate|].
    destruct (N.eqb_spec x y) as [->|]; [|discriminate].
    exists (Some y), t, c. split; [constructor|exact H].
  - destruct s as [|y t]; [discriminate|].
    destruct (in_cset cs y) eqn:E; [|discriminate].
    exists (Some y), t, c. split; [now constructor|exact H].
  - apply IHa in H as (p1 & s1 & c1 & Ha & H).
    apply IHb in H as (p2 & s2 & c2 & Hb & H).
    exists p2, s2, c2. split; [econstructor; eassumption|exact H].
  - apply quant_sound in H as (w & s' & -> & Hw & Hlo & Hhi & Hk).
    exists (last_unit p w), s', c. split; [now constructor|exact Hk].
  - destruct (mt m a p s c k) eqn:E.
    + inversion H; subst. apply IHa in E as (p1 & s1 & c1 & Ha & E).
      exists p1, s1, c1. split; [now constructor|exact E].
    + exists p, s, c. split; [apply M_Opt_none|exact H].
  - apply IHa in H as (p1 & s1 & c1 & Ha & H).
    exists p1, s1, ((i, take (length s - length s1) s) :: c1).
    split; [now constructor|exact H].
  - destruct (at_bol m p) eqn:E; [|discriminate].
    exists p, s, c. split; [now constructor|exact H].
  - destruct (at_eol m s) eqn:E; [|discriminate].
    exists p, s, c. split; [now constructor|exact H].
  - destruct (mt m a p s c (fun _ s' c' => Some (s', c'))) as [[s1 c1]|] eqn:E;
      [|discriminate].
    apply IHa in E as (p1 & s1' & c1' & Ha & E). inversion E; subst.
    exists p, s, c1. split; [econstructor; eassumption|exact H].
Qed.

(** A match consumes a prefix of its input. *)
Lemma Matches_consumes r p s c p' s' c' :
  Matches m r p s c p' s' c' -> exists w, s = w ++ s'.
Proof.
  induction 1;
    try (now exists []); try (now eexists [_]); eauto.
  destruct IHMatches1 as [w1 ->], IHMatches2 as [w2 ->].
  exists (w1 ++ w2). now rewrite app_assoc.
Qed.

End MatcherFacts.

Lemma exec_at_sound re p s rest c :
  exec_at re p s = Some (rest, c) ->
  exists p', Matches (flag_m re) (pattern re) p s [] p' rest c.
Proof.
  intros H. unfold exec_at in H.
  apply mt_sound in H as (p' & s' & c' & HM & Hk).
  inversion Hk; subst. eauto.
Qed.

(** ** The table reconstructor *)

Ltac invM :=
  repeat match goal with
  | H : Matches _ (Seq _ _) _ _ _ _ _ _ |- _ => inversion H; subst; clear H
  | H : Matches _ (Group _ _) _ _ _ _ _ _ |- _ => inversion H; subst; clear H
  | H : Matches _ (Char _) _ _ _ _ _ _ |- _ => inversion H; subst; clear H
  | H : Matches _ Empty _ _ _ _ _ _ |- _ => inversion H; subst; clear H
  | H : Matches _ (Set_ _) _ _ _ _ _ _ |- _ => inversion H; subst; clear H
  | H : Matches _ Bol _ _ _ _ _ _ |- _ => inversion H; subst; clear H
  | H : Matches _ Eol _ _ _ _ _ _ |- _ => inversion H; subst; clear H
  | H : Matches _ (Quant _ _ _ _) _ _ _ _ _ _ |- _ => inversion H; subst; clear H
  | H : Matches _ (Opt _) _ _ _ _ _ _ |- _ => inversion H; subst; clear H
  end.

Lemma take_len_same (s : jsstr) : take (length s - length s) s = [].
Proof. now rewrite Nat.sub_diag. Qed.

Lemma take_len_cons (x : N) (s s' : jsstr) :
  length s' <= length s ->
  take (length (x :: s) - length s') (x :: s) = x :: take (length s - length s') s.
Proof. intros H. simpl length. now replace (S (length s) - length s') with (S (length s - length s')) by lia. Qed.

Lemma take_len_app (w s s' : jsstr) :
  length s' <= length s ->
  take (length (w ++ s) - length s') (w ++ s) = w ++ take (length s - length s') s.
Proof.
  intros H. induction w as [|x w IH]; [reflexivity|].
  rewrite <- app_comm_cons, take_len_cons, IH; [reflexivity|].
  rewrite length_app. lia.
Qed.

Ltac len := repeat (rewrite length_app || simpl length); lia.
Ltac simpl_take :=
  repeat first [ rewrite take_len_same
               | rewrite take_len_cons by len
               | rewrite take_len_app by len ].

(** A pattern anchored at the start of the input (no m flag) matches at
    position 0 only. *)
Lemma search_go_anchored r s x :
  search_go (plain (Seq Bol r)) (Some x) s = None.
Proof.
  revert x. induction s as [|y t IH]; intros x; simpl; [reflexivity|].
  apply IH.
Qed.

Lemma search_anchored r s w c :
  search (plain (Seq Bol r)) s = Some (w, c) ->
  exists rest, exec_at (plain (Seq Bol r)) None s = Some (rest, c)
               /\ w = take (length s - length rest) s.
Proof.
  unfold search. destruct s as [|x t]; simpl.
  - destruct (exec_at _ None []) as [[rest c']|]; [|discriminate].
    intros [= <- <-]. eauto.
  - destruct (exec_at _ None (x :: t)) as [[rest c']|].
    + intros [= <- <-]. eauto.
    + now rewrite search_go_anchored.
Qed.

Lemma forallb_nonempty {A} (f : A -> bool) (w : list A) :
  1 <= length w -> w <> [].
Proof. destruct w; simpl; [lia|discriminate]. Qed.

Lemma forallb_no (a : ascii) (w : jsstr) :
  forallb (in_cset (no a)) w = true -> ~ In (ch a) w.
Proof.
  intros H Hin. rewrite forallb_forall in H. specialize (H _ Hin).
  unfold no, in_cset in H. simpl in H. now rewrite N.eqb_refl in H.
Qed.

Lemma digit_is_word w :
  forallb (in_cset digit) w = true -> forallb is_word w = true.
Proof.
  intros H. rewrite forallb_forall in *. intros x Hx. specialize (H _ Hx).
  unfold digit, in_cset in H. simpl in H. rewrite orb_false_r in H.
  unfold is_word. rewrite H. now rewrite !orb_true_r.
Qed.

Lemma word_is_word w :
  forallb (in_cset word) w = true -> forallb is_word w = true.
Proof.
  intros H. rewrite forallb_forall in *. intros x Hx. specialize (H _ Hx).
  unfold word, in_cset in H. simpl in H. now rewrite orb_false_r in H.
Qed.

Lemma space_is_space w :
  forallb (in_cset space) w = true -> forallb is_space w = true.
Proof.
  intros H. rewrite forallb_forall in *. intros x Hx. specialize (H _ Hx).
  unfold space, in_cset in H. simpl in H. now rewrite orb_false_r in H.
Qed.

Lemma ident_start_char y :
  in_cset ident_start y = true -> in_cset ident_char y = true.
Proof.
  unfold ident_start, ident_char, in_cset. simpl.
  intros H. repeat (apply orb_true_iff in H as [H|H]);
    rewrite ?H, ?orb_true_r; try reflexivity; try discriminate.
Qed.

Ltac pick_space :=
  match goal with
  | Hs : forallb (in_cset space) ?w = true, Hl : 1 <= length ?w |- _ => exists w
  end.

Lemma propertyMatch_layout line p :
  propertyMatch line = Some p -> property_layout line p.
Proof.
  unfold propertyMatch.
  destruct (search re_property line) as [[w c]|] eqn:E; [|discriminate].
  intros [= <-].
  apply search_anchored in E as (rest & E & _).
  apply exec_at_sound in E as (p' & HM).
  cbv [re_property plain pattern flag_m cat lit plus star fold_right
       list_ascii_of_string ch N_of_ascii N_of_digits] in HM.
  simpl in HM. invM.
  all: unfold property_layout;
    cbn [cap Nat.eqb default from_option p_type p_name p_defaultValue];
    unfold id; simpl_take; rewrite ?app_nil_r.
  all: pick_space; eexists;
    (split; [rewrite <- ?app_assoc; simpl; reflexivity|]).
  all: repeat match goal with
       | H : forallb (in_cset word) _ = true |- _ => apply word_is_word in H
       | H : forallb (in_cset digit) _ = true |- _ => apply digit_is_word in H
       | H : forallb (in_cset space) _ = true |- _ => apply space_is_space in H
       | H : in_cset ident_start _ = true |- _ => apply ident_start_char in H
       end.
  all: repeat match goal with
       | |- _ /\ _ => split
       | |- _ <> [] => first [ now eapply (forallb_nonempty (fun _ => true))
                             | discriminate
                             | intros Hnil; apply app_eq_nil in Hnil as [Hnil _];
                               revert Hnil; now eapply (forallb_nonempty (fun _ : N => true)) ]
       | |- forallb _ _ = true =>
           first [ assumption
                 | rewrite ?forallb_app; cbn [forallb];
                   repeat match goal with H : _ = true |- _ => rewrite H end;
                   reflexivity ]
       | |- ~ In _ _ => now apply (forallb_no "`"%char)
       | |- True => exact I
       end.
  all: do 3 eexists; split; [simpl; reflexivity|]; auto.
Qed.

Lemma methodMatch_layout line r :
  methodMatch line = Some r ->
  exists ret name params,
    method_layout line ret name params
    /\ m_returnType r = cleanReturnType ret
    /\ m_signature r = str "**" ++ name ++ str "**(" ++ params ++ str ")".
Proof.
  unfold methodMatch.
  destruct (search re_method line) as [[w c]|] eqn:E; [|discriminate].
  intros [= <-].
  apply search_anchored in E as (rest & E & _).
  apply exec_at_sound in E as (p' & HM).
  cbv [re_method plain pattern flag_m cat lit plus star fold_right
       list_ascii_of_string ch N_of_ascii N_of_digits] in HM.
  simpl in HM. invM.
  cbn [cap Nat.eqb default from_option m_returnType m_signature].
  unfold id; simpl_take; rewrite ?app_nil_r.
  do 3 eexists. split; [|split; reflexivity].
  unfold method_layout. pick_space.
  match goal with
  | Hs : forallb (in_cset space) ?w = true, Hl : 0 <= length ?w |- _ => exists w
  end.
  eexists. split; [rewrite <- ?app_assoc; simpl; reflexivity|].
  repeat match goal with
         | H : forallb (in_cset space) _ = true |- _ => apply space_is_space in H
         | H : in_cset ident_start _ = true |- _ => apply ident_start_char in H
         end.
  repeat match goal with
         | |- _ /\ _ => split
         | |- _ <> [] => first [ now eapply (forallb_nonempty (fun _ => true))
                               | discriminate ]
         | |- forallb _ _ = true =>
             first [ assumption
                   | cbn [forallb];
                     repeat match goal with H : _ = true |- _ => rewrite H end;
                     reflexivity ]
         | |- ~ In 96%N _ => now apply (forallb_no "`"%char)
         | |- ~ In 41%N _ => now apply (forallb_no ")"%char)
         end.
Qed.

Lemma parse_properties_section ls :
  parse_properties ls =
  omap (fun l => propertyMatch (trim l)) (section_of h_property_descriptions ls).
Proof.
  induction ls as [|l ls IH]; [reflexivity|]. simpl.
  destruct (startsWith (trim l) (str "## ")
            && negb (eqb_str (trim l) h_property_descriptions)); [reflexivity|].
  cbn [omap list_omap]. destruct (propertyMatch (trim l)); now rewrite IH.
Qed.

Lemma parse_methods_section ls :
  parse_methods ls =
  omap (fun l => methodMatch (trim l)) (section_of h_method_descriptions ls).
Proof.
  induction ls as [|l ls IH]; [reflexivity|]. simpl.
  destruct (startsWith (trim l) (str "## ")
            && negb (eqb_str (trim l) h_method_descriptions)); [reflexivity|].
  cbn [omap list_omap]. destruct (methodMatch (trim l)); now rewrite IH.
Qed.

(** The row shows the default as it is (an absent default shows as the
    empty text). *)
Lemma property_row_layout p :
  property_row p =
  str "| " ++ p_type p ++ str " | **" ++ p_name p ++ str "** | "
  ++ default [] (p_defaultValue p) ++ str " |".
Proof.
  unfold property_row. now destruct (p_defaultValue p) as [[|x v]|].
Qed.

(** The heading found by the search loop. *)
Lemma find_heading_spec h ls : forall i d,
  find_heading h ls i = Some d ->
  i <= d /\ (exists l, ls !! (d - i) = Some l /\ trim l = h)
  /\ forall j l, j < d - i -> ls !! j = Some l -> trim l <> h.
Proof.
  induction ls as [|x ls IH]; intros i d H; [discriminate|]. simpl in H.
  unfold eqb_str in H. destruct (bool_decide_reflect (trim x = h)) as [Heq|Hne].
  - inversion H; subst. rewrite Nat.sub_diag. repeat split; [lia|eauto|].
    intros j l Hj. lia.
  - apply IH in H as (Hle & (l & Hl & Ht) & Hbefore).
    split; [lia|]. split.
    + exists l. split; [|exact Ht].
      replace (d - i) with (S (d - S i)) by lia. exact Hl.
    + intros [|j] l0 Hj Hl0; simpl in Hl0.
      * inversion Hl0; subst. exact Hne.
      * apply (Hbefore j); [lia|exact Hl0].
Qed.

Lemma omap_Forall2 {A B} (f : A -> option B) (ls : list A) :
  Forall2 (fun l p => f l = Some p)
          (List.filter (fun l => bool_decide (is_Some (f l))) ls) (omap f ls).
Proof.
  induction ls as [|l ls IH]; [constructor|]. cbn [omap list_omap List.filter].
  destruct (f l) as [p|] eqn:E.
  - rewrite bool_decide_eq_true_2 by eauto. constructor; assumption.
  - rewrite bool_decide_eq_false_2; [exact IH|]. intros [? ?]. discriminate.
Qed.

(** C3. Table reconstruction completeness: the rows of the synthesized
    Properties table are, in order, one row for every line of the Property
    Descriptions section that matches the property pattern and for no other
    line; a row carries the type, the name and the default of its line
    unchanged, and these are the pieces of the line in the layout of the
    pattern.  The line of the scenario yields exactly the row of the
    scenario. *)
Theorem extractPropertiesTable_complete (lns : list jsstr) (i d : nat) :
  find_heading h_property_descriptions (drop i lns) i = Some d ->
  let section := section_of h_property_descriptions (drop (d + 1) lns) in
  let records := omap (fun l => propertyMatch (trim l)) section in
  records <> [] ->
  extractPropertiesTable lns i =
    Some (unlines (property_header :: map property_row records))
  /\ Forall2 (fun l p =>
                propertyMatch (trim l) = Some p
                /\ property_layout (trim l) p
                /\ property_row p =
                   str "| " ++ p_type p ++ str " | **" ++ p_name p
                   ++ str "** | " ++ default [] (p_defaultValue p) ++ str " |")
             (List.filter
                (fun l => bool_decide (is_Some (propertyMatch (trim l))))
                section)
             records
  /\ (propertyMatch (str "Vector2 **global_position** = `Vector2(0, 0)`") =
        Some (PropertyRec (str "Vector2") (str "global_position")
                          (Some (str "Vector2(0, 0)")))
      /\ property_row (PropertyRec (str "Vector2") (str "global_position")
                                   (Some (str "Vector2(0, 0)"))) =
         str "| Vector2 | **global_position** | Vector2(0, 0) |").
Proof.
  intros Hd section records Hne. split; [|split].
  - unfold extractPropertiesTable. rewrite Hd, parse_properties_section.
    fold section. fold records. now destruct records.
  - eapply Forall2_impl; [apply omap_Forall2|].
    intros l p H. simpl in H. split; [exact H|]. split.
    + now apply propertyMatch_layout.
    + apply property_row_layout.
  - split; vm_compute; reflexivity.
Qed.

Lemma extractPropertiesTable_complete_witness :
  extractPropertiesTable
    [str "## Properties"; str "## Methods"; str "## Property Descriptions";
     str "Vector2 **global_position** = `Vector2(0, 0)`"; str "The position.";
     str "float **rotation**"] 0 =
  Some (unlines [property_header;
                 str "| Vector2 | **global_position** | Vector2(0, 0) |";
                 str "| float | **rotation** |  |"]).
Proof.
  apply (extractPropertiesTable_complete
           [str "## Properties"; str "## Methods";
            str "## Property Descriptions";
            str "Vector2 **global_position** = `Vector2(0, 0)`";
            str "The position."; str "float **rotation**"] 0 2).
  - vm_compute. reflexivity.
  - vm_compute. discriminate.
Defined.

(** *** reconstructTables *)

Lemma next_is_pair_properties l rest :
  eqb_str (trim l) h_properties && next_is h_methods rest = true ->
  pair_after l rest = true.
Proof.
  destruct rest as [|l' rest]; simpl; [now rewrite andb_false_r|].
  unfold properties_pair. now intros ->.
Qed.

Lemma next_is_pair_methods l rest :
  eqb_str (trim l) h_methods && next_is h_property_descriptions rest = true ->
  pair_after l rest = true.
Proof.
  destruct rest as [|l' rest]; simpl; [now rewrite andb_false_r|].
  unfold methods_pair. intros ->. now rewrite orb_true_r.
Qed.

Lemma reconstruct_loop_cons lns i l rest :
  reconstruct_loop lns i (l :: rest) =
  l :: inserted lns i l rest ++ reconstruct_loop lns (S i) rest.
Proof.
  unfold inserted. cbn [reconstruct_loop].
  destruct (eqb_str (trim l) h_properties && next_is h_methods rest);
    [reflexivity|].
  now destruct (eqb_str (trim l) h_methods
                && next_is h_property_descriptions rest).
Qed.

Lemma inserted_no_pair lns i l rest :
  pair_after l rest = false -> inserted lns i l rest = [].
Proof.
  intros H. unfold inserted.
  destruct (eqb_str (trim l) h_properties && next_is h_methods rest) eqn:E1.
  { apply next_is_pair_properties in E1. congruence. }
  destruct (eqb_str (trim l) h_methods
            && next_is h_property_descriptions rest) eqn:E2.
  { apply next_is_pair_methods in E2. congruence. }
  reflexivity.
Qed.

Lemma inserted_properties lns i l l' rest :
  properties_pair l l' = true ->
  inserted lns i l (l' :: rest) = push_table (extractPropertiesTable lns i).
Proof.
  unfold properties_pair, inserted. cbn [next_is]. now intros ->.
Qed.

Lemma inserted_methods lns i l l' rest :
  methods_pair l l' = true ->
  inserted lns i l (l' :: rest) = push_table (extractMethodsTable lns i).
Proof.
  unfold methods_pair, inserted. cbn [next_is]. intros H. rewrite H.
  destruct (eqb_str (trim l) h_properties && eqb_str (trim l') h_methods) eqn:E;
    [|reflexivity].
  apply andb_true_iff in E as [E1 _]. apply andb_true_iff in H as [H1 _].
  unfold eqb_str in *. apply bool_decide_eq_true in E1, H1.
  rewrite E1 in H1. vm_compute in H1. discriminate.
Qed.

Lemma inserted_next lns i x pre l rest :
  inserted lns i x (pre ++ l :: rest) = inserted lns i x (pre ++ [l]).
Proof. now destruct pre. Qed.

Lemma removelast_cons_app {A} (x : A) (t r : list A) :
  r <> [] -> removelast (x :: t ++ r) = x :: t ++ removelast r.
Proof.
  intros H. change (x :: t ++ r) with ((x :: t) ++ r).
  now rewrite removelast_app.
Qed.

(** What the loop pushes for the lines before [l] does not depend on the
    lines after [l]. *)
Lemma reconstruct_loop_split lns pre : forall i l rest,
  reconstruct_loop lns i (pre ++ l :: rest) =
  removelast (reconstruct_loop lns i (pre ++ [l]))
  ++ reconstruct_loop lns (i + length pre) (l :: rest).
Proof.
  induction pre as [|x pre IH]; intros i l rest.
  - rewrite Nat.add_0_r. change ([] ++ l :: rest) with (l :: rest).
    change ([] ++ [l]) with [l].
    rewrite (reconstruct_loop_cons lns i l []).
    rewrite (inserted_no_pair lns i l []) by reflexivity. reflexivity.
  - rewrite <- !app_comm_cons, !reconstruct_loop_cons, inserted_next, IH.
    rewrite removelast_cons_app.
    + replace (i + length (x :: pre)) with (S i + length pre) by (simpl; lia).
      rewrite <- ?app_assoc, <- ?app_comm_cons, <- ?app_assoc.
      rewrite (reconstruct_loop_cons lns (S i + length pre) l rest). reflexivity.
    + destruct pre; simpl app; rewrite reconstruct_loop_cons; discriminate.
Qed.

Lemma reconstruct_loop_identity lns rest : forall i,
  no_pair rest = true -> reconstruct_loop lns i rest = rest.
Proof.
  induction rest as [|l rest IH]; intros i H; [reflexivity|].
  cbn [no_pair] in H. apply andb_true_iff in H as [H1 H2].
  apply negb_true_iff in H1.
  rewrite reconstruct_loop_cons, inserted_no_pair by assumption.
  simpl. now rewrite IH.
Qed.

(** C6, as stated, fails: a blank line between the Properties heading and
    the Methods heading prevents the detection, although the next non-blank
    line is the Methods heading and the extraction finds a record; and an
    empty Properties section followed by another heading of the same level
    is not detected either. *)
Lemma reconstructTables_blank_line_counterexample :
  let doc := unlines [str "## Properties"; []; str "## Methods";
                      str "## Property Descriptions"; str "int **x**"] in
  let doc' := unlines [str "## Properties"; str "## Signals";
                       str "## Property Descriptions"; str "int **x**"] in
  reconstructTables doc = doc
  /\ extractPropertiesTable (lines doc) 0 =
     Some (unlines [property_header; str "| int | **x** |  |"])
  /\ reconstructTables doc' = doc'
  /\ extractPropertiesTable (lines doc') 0 =
     Some (unlines [property_header; str "| int | **x** |  |"])
  /\ reconstructTables
       (unlines [str "## Properties"; str "## Methods";
                 str "## Property Descriptions"; str "int **x**"]) =
     unlines [str "## Properties"; []; property_header;
              str "| int | **x** |  |"; []; str "## Methods";
              str "## Property Descriptions"; str "int **x**"].
Proof. repeat split; vm_compute; reflexivity. Qed.

(** C6, amended.  reconstructTables treats the section of a heading line as
    empty exactly when the line immediately after it (blank lines count) is
    the expected heading: for every line [l] of the text, what is pushed
    after [l] is the Properties table when [l] is the Properties heading
    and the next line is the Methods heading, the Methods table when [l] is
    the Methods heading and the next line is the Property Descriptions
    heading, and nothing otherwise; a table is pushed between two empty
    lines, and only when the extraction found a record.  A text without
    such a pair of adjacent lines is returned unchanged. *)
Theorem reconstructTables_detection (content : jsstr) (pre : list jsstr)
    (l : jsstr) (rest : list jsstr) :
  lines content = pre ++ l :: rest ->
  let lns := lines content in
  reconstructTables content =
    unlines (removelast (reconstruct_loop lns 0 (pre ++ [l]))
             ++ l :: inserted lns (length pre) l rest
             ++ reconstruct_loop lns (S (length pre)) rest)
  /\ (pair_after l rest = false -> inserted lns (length pre) l rest = [])
  /\ (forall l' rest', rest = l' :: rest' -> properties_pair l l' = true ->
        inserted lns (length pre) l rest =
        match extractPropertiesTable lns (length pre) with
        | Some (x :: t) => [[]; x :: t; []]
        | _ => []
        end)
  /\ (forall l' rest', rest = l' :: rest' -> methods_pair l l' = true ->
        inserted lns (length pre) l rest =
        match extractMethodsTable lns (length pre) with
        | Some (x :: t) => [[]; x :: t; []]
        | _ => []
        end)
  /\ (no_pair lns = true -> reconstructTables content = content).
Proof.
  intros Hl lns. repeat split.
  - unfold reconstructTables. fold lns. f_equal.
    replace (reconstruct_loop lns 0 lns)
      with (reconstruct_loop lns 0 (pre ++ l :: rest))
      by (subst lns; now rewrite Hl).
    rewrite reconstruct_loop_split, reconstruct_loop_cons. reflexivity.
  - apply inserted_no_pair.
  - intros l' rest' -> H. now rewrite inserted_properties.
  - intros l' rest' -> H. now rewrite inserted_methods.
  - intros H. unfold reconstructTables. fold lns.
    rewrite reconstruct_loop_identity by assumption. apply unlines_lines.
Qed.

Lemma reconstructTables_detection_witness :
  let content := unlines [str "# Node2D"; str "## Properties"; str "## Methods";
                          str "## Property Descriptions"; str "int **x**"] in
  reconstructTables content =
    unlines (removelast (reconstruct_loop (lines content) 0
                           ([str "# Node2D"] ++ [str "## Properties"]))
             ++ str "## Properties"
                :: inserted (lines content) 1 (str "## Properties")
                     [str "## Methods"; str "## Property Descriptions";
                      str "int **x**"]
             ++ reconstruct_loop (lines content) 2
                  [str "## Methods"; str "## Property Descriptions";
                   str "int **x**"]).
Proof.
  apply (reconstructTables_detection
           (unlines [str "# Node2D"; str "## Properties"; str "## Methods";
                     str "## Property Descriptions"; str "int **x**"])
           [str "# Node2D"] (str "## Properties")
           [str "## Methods"; str "## Property Descriptions"; str "int **x**"]).
  vm_compute. reflexivity.
Defined.

(** ** Replacement *)

Section QuantFacts.

Variable cs : cset.

Lemma lead_after s : lead cs s ++ after_lead cs s = s.
Proof.
  induction s as [|x t IH]; [reflexivity|]. simpl.
  destruct (in_cset cs x); [simpl; now rewrite IH|reflexivity].
Qed.

Lemma length_after_lead s :
  length s - length (after_lead cs s) = length (lead cs s).
Proof.
  rewrite <- (lead_after s) at 1. rewrite length_app. lia.
Qed.

(** A greedy quantifier followed by nothing takes the whole run. *)
Lemma quant_greedy_accept s : forall lo p c,
  quant true cs lo None p s c accept =
  if lo <=? length (lead cs s) then Some (after_lead cs s, c) else None.
Proof.
  induction s as [|x t IH]; intros lo p c.
  - simpl. now destruct lo.
  - simpl. destruct (in_cset cs x) eqn:E; simpl.
    + rewrite IH. destruct lo as [|lo]; simpl.
      * reflexivity.
      * destruct (Nat.leb_spec lo (length (lead cs t))); reflexivity.
    + now destruct lo.
Qed.

End QuantFacts.

Lemma exec_at_run lo cs p s :
  exec_at (G (Quant true lo None cs)) p s =
  if lo <=? length (lead cs s) then Some (after_lead cs s, []) else None.
Proof. unfold exec_at. simpl. apply quant_greedy_accept. Qed.

Section ReplaceFacts.

Variable re : regexp.
Variable tpl : list titem.

Lemma replace_go_inactive p s : replace_go re tpl false p s 0 = s.
Proof. now destruct s. Qed.

(** Skipping exactly the units of a match. *)
Lemma replace_go_skip w : forall act p s,
  replace_go re tpl act p (w ++ s) (length w) =
  replace_go re tpl act (last_unit p w) s 0.
Proof.
  induction w as [|x w IH]; intros act p s; [reflexivity|].
  simpl. apply IH.
Qed.

(** Without a match at any position the text is returned as it is. *)
Lemma replace_go_no_match s : forall p,
  (forall p' u v, s = u ++ v -> exec_at re p' v = None) ->
  replace_go re tpl true p s 0 = s.
Proof.
  induction s as [|x t IH]; intros p H.
  - simpl. now rewrite (H p [] []).
  - simpl. rewrite (H p [] (x :: t)) by reflexivity. f_equal.
    apply IH. intros p' u v ->. apply (H p' (x :: u) v). reflexivity.
Qed.

End ReplaceFacts.

(** *** Patterns that cannot match a text over a given alphabet *)

Section Alphabet.

Variable alpha : list N.

Local Abbreviation over := (over alpha).

Lemma over_app u v : over (u ++ v) -> over u /\ over v.
Proof. apply Forall_app. Qed.

Lemma Matches_can_match m r p s c p' s' c' :
  Matches m r p s c p' s' c' -> over s -> can_match alpha r = true.
Proof.
  induction 1; intros Hs; simpl; auto.
  - inversion Hs; subst. apply existsb_exists. exists x. split; [assumption|].
    apply N.eqb_refl.
  - inversion Hs; subst. apply existsb_exists. eauto.
  - rewrite IHMatches1 by assumption. simpl. apply IHMatches2.
    destruct (Matches_consumes _ _ _ _ _ _ _ _ H) as [w ->].
    now apply over_app in Hs.
  - destruct lo as [|lo]; [reflexivity|].
    destruct w as [|x w]; [simpl in *; lia|].
    simpl in H. apply andb_true_iff in H as [Hx _].
    inversion Hs; subst. apply existsb_exists. eauto.
Qed.

Lemma exec_at_dead re p s :
  can_match alpha (pattern re) = false -> over s -> exec_at re p s = None.
Proof.
  intros Hc Hs. destruct (exec_at re p s) as [[rest c]|] eqn:E; [|reflexivity].
  apply exec_at_sound in E as [p' HM].
  apply Matches_can_match in HM; [congruence|assumption].
Qed.

Lemma replace_dead re tpl s :
  can_match alpha (pattern re) = false -> over s -> replace re tpl s = s.
Proof.
  intros Hc Hs. apply replace_go_no_match. intros p' u v ->.
  apply exec_at_dead; [assumption|]. now apply over_app in Hs.
Qed.

Lemma apply_rules_dead rules s :
  forallb (fun r => negb (can_match alpha (pattern (fst r)))) rules = true ->
  over s -> apply_rules rules s = s.
Proof.
  revert s. induction rules as [|r rules IH]; intros s H Hs; [reflexivity|].
  simpl in H. apply andb_true_iff in H as [Hr H].
  apply negb_true_iff in Hr. unfold apply_rules in *. simpl.
  rewrite replace_dead by assumption. now apply IH.
Qed.

End Alphabet.

(** *** Replacement keeps a property of the units *)

Section Preservation.

Variable P : N -> Prop.

Lemma Forall_take (s : jsstr) n : Forall P s -> Forall P (take n s).
Proof.
  revert n. induction s as [|x t IH]; intros [|n] H; simpl; try constructor;
    inversion H; subst; auto.
Qed.

Lemma Matches_caps m r p s c p' s' c' :
  Matches m r p s c p' s' c' ->
  Forall P s -> caps_ok P c -> caps_ok P c'.
Proof.
  induction 1; intros Hs Hc; auto.
  - apply IHMatches2; [|now apply IHMatches1].
    destruct (Matches_consumes _ _ _ _ _ _ _ _ H) as [w ->].
    now apply Forall_app in Hs.
  - constructor; [|now apply IHMatches]. simpl. now apply Forall_take.
Qed.

Lemma exec_at_caps re p s rest c :
  exec_at re p s = Some (rest, c) -> Forall P s -> caps_ok P c.
Proof.
  intros E Hs. apply exec_at_sound in E as [p' HM].
  eapply Matches_caps; [exact HM|assumption|constructor].
Qed.

Lemma cap_ok i c v : caps_ok P c -> cap i c = Some v -> Forall P v.
Proof.
  induction c as [|[j u] c IH]; intros Hc H; [discriminate|].
  inversion Hc; subst. simpl in H. destruct (Nat.eqb i j).
  - inversion H; subst. assumption.
  - auto.
Qed.

Lemma expand_ok tpl c : tpl_ok P tpl -> caps_ok P c -> Forall P (expand tpl c).
Proof.
  intros Ht Hc. unfold expand. induction Ht as [|t tpl Htl Ht IH]; [constructor|].
  simpl. apply Forall_app. split; [|exact IH].
  destruct t as [s|i]; [exact Htl|].
  destruct (cap i c) as [v|] eqn:E; simpl; [|constructor].
  eapply cap_ok; eassumption.
Qed.

Lemma replace_go_ok re tpl s : forall act p skip,
  tpl_ok P tpl -> Forall P s -> Forall P (replace_go re tpl act p s skip).
Proof.
  induction s as [|x t IH]; intros act p skip Ht Hs.
  - destruct skip; simpl; [|constructor]. destruct act; [|constructor].
    destruct (exec_at re p []) as [[rest c]|] eqn:E; [|constructor].
    rewrite app_nil_r. apply expand_ok; [assumption|].
    eapply exec_at_caps; eassumption.
  - inversion Hs; subst. destruct skip; cbn [replace_go]; [|now apply IH].
    destruct act; [|assumption].
    destruct (exec_at re p (x :: t)) as [[rest c]|] eqn:E.
    + apply Forall_app. split.
      * apply expand_ok; [assumption|]. eapply exec_at_caps; eassumption.
      * destruct (length (x :: t) - length rest);
          [constructor; [assumption|]|]; now apply IH.
    + constructor; [assumption|now apply IH].
Qed.

Lemma replace_ok re tpl s :
  tpl_ok P tpl -> Forall P s -> Forall P (replace re tpl s).
Proof. apply replace_go_ok. Qed.

Lemma apply_rules_ok rules s :
  Forall (fun r => tpl_ok P (snd r)) rules -> Forall P s ->
  Forall P (apply_rules rules s).
Proof.
  intros Hr. revert s. unfold apply_rules.
  induction Hr as [|r rules Hr _ IH]; intros s Hs; [exact Hs|].
  simpl. apply IH. now apply replace_ok.
Qed.

Lemma trimStart_ok s : Forall P s -> Forall P (trimStart s).
Proof.
  induction 1 as [|x t Hx Ht IH]; simpl; [constructor|].
  destruct (is_space x); [assumption|now constructor].
Qed.

Lemma trim_ok s : Forall P s -> Forall P (trim s).
Proof.
  intros H. unfold trim, trimEnd. apply Forall_rev, trimStart_ok, Forall_rev.
  now apply trimStart_ok.
Qed.

Lemma split_ok sep s : Forall P s -> Forall (Forall P) (split sep s).
Proof.
  induction 1 as [|x t Hx Ht IH]; simpl; [repeat constructor|].
  destruct (x =? sep)%N; [now repeat constructor|].
  destruct (split sep t) as [|l ls]; [repeat constructor; assumption|].
  inversion IH; subst. constructor; [now constructor|assumption].
Qed.

Lemma join_ok sep ls :
  Forall P sep -> Forall (Forall P) ls -> Forall P (join sep ls).
Proof.
  intros Hsep. induction 1 as [|l ls Hl Hls IH]; [constructor|].
  destruct ls as [|l' ls]; [exact Hl|].
  rewrite join_cons. apply Forall_app. split; [assumption|].
  apply Forall_app. split; assumption.
Qed.

End Preservation.

(** ** White space normalization *)

Lemma not_tab_check s :
  forallb (fun c => negb (c =? 9)%N) s = true -> Forall not_tab s.
Proof.
  intros H. apply List.Forall_forall. intros x Hx.
  rewrite forallb_forall in H. specialize (H _ Hx).
  unfold not_tab. intros ->. discriminate.
Qed.

Ltac lit_ok := apply not_tab_check; vm_compute; reflexivity.

(** The collapsing rule of line 407 leaves no tab behind. *)
Lemma hspace_no_tab s : forall p skip,
  Forall not_tab (replace_go re_hspace [TLit (str " ")] true p s skip).
Proof.
  induction s as [|x t IH]; intros p skip.
  - destruct skip; simpl; constructor.
  - destruct skip; cbn [replace_go]; [|apply IH].
    unfold re_hspace, plus. rewrite exec_at_run.
    set (hs := hspace_class).
    destruct (Nat.leb_spec 1 (length (lead hs (x :: t)))) as [Hle|Hgt].
    + apply Forall_app. split; [lit_ok|].
      rewrite length_after_lead.
      destruct (length (lead hs (x :: t))); [lia|]. apply IH.
    + constructor; [|apply IH].
      cbn [lead] in Hgt. destruct (in_cset hs x) eqn:E; [simpl in Hgt; lia|].
      intros ->. vm_compute in E. discriminate.
Qed.

Lemma apply_rules_app a b s :
  apply_rules (a ++ b) s = apply_rules b (apply_rules a s).
Proof. unfold apply_rules. apply fold_left_app. Qed.

Lemma rules_all_ok rules :
  forallb (fun r : rule =>
             forallb (fun t => match t with
                               | TLit s => forallb (fun c => negb (c =? 9)%N) s
                               | TGroup _ => true
                               end) (snd r)) rules = true ->
  Forall (fun r : rule => tpl_ok not_tab (snd r)) rules.
Proof.
  intros H. apply List.Forall_forall. intros r Hr.
  rewrite forallb_forall in H. specialize (H _ Hr).
  apply List.Forall_forall. intros t Ht.
  rewrite forallb_forall in H. specialize (H _ Ht).
  destruct t; [now apply not_tab_check|exact I].
Qed.

Section TablesPreserve.

Variable P : N -> Prop.

(** The property holds of every printable ASCII unit, hence of the literal
    text of the rows. *)
Hypothesis P_printable :
  forall c, (32 <=? c)%N && (c <? 127)%N = true -> P c.

Lemma printable_ok s :
  forallb (fun c => (32 <=? c)%N && (c <? 127)%N) s = true -> Forall P s.
Proof.
  intros H. apply List.Forall_forall. intros x Hx.
  rewrite forallb_forall in H. apply P_printable. now apply H.
Qed.

Lemma search_go_caps re s : forall p w c,
  search_go re p s = Some (w, c) -> Forall P s -> caps_ok P c.
Proof.
  induction s as [|x t IH]; intros p w c H Hs; simpl in H.
  - destruct (exec_at re p []) as [[rest c']|] eqn:E; [|discriminate].
    inversion H; subst. eapply exec_at_caps; eassumption.
  - destruct (exec_at re p (x :: t)) as [[rest c']|] eqn:E.
    + inversion H; subst. eapply exec_at_caps; eassumption.
    + inversion Hs; subst. eauto.
Qed.

Lemma cap_default_ok i c : caps_ok P c -> Forall P (default [] (cap i c)).
Proof.
  intros Hc. destruct (cap i c) eqn:E; simpl; [|constructor].
  eapply cap_ok; eassumption.
Qed.

Lemma propertyMatch_ok line p :
  Forall P line -> propertyMatch line = Some p -> Forall P (property_row p).
Proof.
  unfold propertyMatch. intros Hl.
  destruct (search re_property line) as [[w c]|] eqn:E; [|discriminate].
  intros [= <-]. apply search_go_caps in E; [|assumption].
  unfold property_row. cbn [p_type p_name p_defaultValue].
  repeat (apply Forall_app; split);
    try (apply printable_ok; vm_compute; reflexivity);
    try now apply cap_default_ok.
  destruct (cap 3 c) as [[|x v]|] eqn:E3; try constructor.
  - apply (cap_ok _ _ _ _ E) in E3. now inversion E3.
  - apply (cap_ok _ _ _ _ E) in E3. now inversion E3.
Qed.

Lemma cleanReturnType_ok ret : Forall P ret -> Forall P (cleanReturnType ret).
Proof.
  intros H. unfold cleanReturnType.
  assert (Ht : Forall P (trim (replace re_annotation [] ret))).
  { apply trim_ok, replace_ok; [constructor|assumption]. }
  unfold or_void.
  destruct (trim (replace re_annotation [] ret));
    [apply printable_ok; vm_compute; reflexivity|assumption].
Qed.

Lemma methodMatch_ok line r :
  Forall P line -> methodMatch line = Some r -> Forall P (method_row r).
Proof.
  unfold methodMatch. intros Hl.
  destruct (search re_method line) as [[w c]|] eqn:E; [|discriminate].
  intros [= <-]. apply search_go_caps in E; [|assumption].
  unfold method_row. cbn [m_returnType m_signature].
  repeat (apply Forall_app; split);
    try (apply printable_ok; vm_compute; reflexivity);
    try now apply cap_default_ok.
  - apply cleanReturnType_ok. now apply cap_default_ok.
  - change (Forall P (str "**" ++ default [] (cap 2 c) ++ str "**("
                      ++ default [] (cap 3 c) ++ str ")")).
    repeat (apply Forall_app; split);
      try (apply printable_ok; vm_compute; reflexivity);
      now apply cap_default_ok.
Qed.

Lemma parse_properties_ok ls :
  Forall (Forall P) ls ->
  Forall (Forall P) (map property_row (parse_properties ls)).
Proof.
  induction 1 as [|l ls Hl Hls IH]; [constructor|]. simpl.
  destruct (_ && _); [constructor|].
  destruct (propertyMatch (trim l)) eqn:E; [|exact IH].
  constructor; [|exact IH].
  eapply propertyMatch_ok; [|exact E]. now apply trim_ok.
Qed.

Lemma parse_methods_ok ls :
  Forall (Forall P) ls ->
  Forall (Forall P) (map method_row (parse_methods ls)).
Proof.
  induction 1 as [|l ls Hl Hls IH]; [constructor|]. simpl.
  destruct (_ && _); [constructor|].
  destruct (methodMatch (trim l)) eqn:E; [|exact IH].
  constructor; [|exact IH].
  eapply methodMatch_ok; [|exact E]. now apply trim_ok.
Qed.

End TablesPreserve.

Lemma not_tab_printable c : (32 <=? c)%N && (c <? 127)%N = true -> not_tab c.
Proof. intros H ->. discriminate. Qed.

Lemma Forall_drop {A} (Q : A -> Prop) n (l : list A) :
  Forall Q l -> Forall Q (drop n l).
Proof.
  revert n. induction l as [|x l IH]; intros [|n] H; simpl; auto.
  inversion H; subst. auto.
Qed.

Lemma push_table_ok (t : option jsstr) :
  (forall v, t = Some v -> Forall not_tab v) ->
  Forall (Forall not_tab) (push_table t).
Proof.
  intros H. destruct t as [[|x v]|]; simpl; try constructor.
  - constructor.
  - constructor; [now apply H|repeat constructor].
Qed.

Lemma extractPropertiesTable_ok lns i v :
  Forall (Forall not_tab) lns ->
  extractPropertiesTable lns i = Some v -> Forall not_tab v.
Proof.
  intros Hl. unfold extractPropertiesTable.
  destruct (find_heading _ _ _) as [d|]; [|discriminate].
  pose proof (parse_properties_ok not_tab not_tab_printable
                (drop (d + 1) lns) (Forall_drop _ _ _ Hl)) as Hp.
  destruct (parse_properties (drop (d + 1) lns)) as [|p ps]; [discriminate|].
  intros [= <-]. apply join_ok; [lit_ok|].
  constructor; [lit_ok|exact Hp].
Qed.

Lemma extractMethodsTable_ok lns i v :
  Forall (Forall not_tab) lns ->
  extractMethodsTable lns i = Some v -> Forall not_tab v.
Proof.
  intros Hl. unfold extractMethodsTable.
  destruct (find_heading _ _ _) as [d|]; [|discriminate].
  pose proof (parse_methods_ok not_tab not_tab_printable
                (drop (d + 1) lns) (Forall_drop _ _ _ Hl)) as Hp.
  destruct (parse_methods (drop (d + 1) lns)) as [|p ps]; [discriminate|].
  intros [= <-]. apply join_ok; [lit_ok|].
  constructor; [lit_ok|exact Hp].
Qed.

Lemma reconstruct_loop_ok lns rest : forall i,
  Forall (Forall not_tab) lns -> Forall (Forall not_tab) rest ->
  Forall (Forall not_tab) (reconstruct_loop lns i rest).
Proof.
  induction rest as [|l rest IH]; intros i Hl Hr; [constructor|].
  inversion Hr; subst. rewrite reconstruct_loop_cons.
  constructor; [assumption|]. apply Forall_app. split; [|now apply IH].
  unfold inserted.
  destruct (_ && _).
  - apply push_table_ok. intros v. now apply extractPropertiesTable_ok.
  - destruct (_ && _); [|constructor].
    apply push_table_ok. intros v. now apply extractMethodsTable_ok.
Qed.

Lemma reconstructTables_ok content :
  Forall not_tab content -> Forall not_tab (reconstructTables content).
Proof.
  intros H. unfold reconstructTables, unlines, lines.
  apply join_ok; [lit_ok|].
  apply reconstruct_loop_ok; now apply split_ok.
Qed.

Lemma filter_ok {A} (Q : A -> Prop) f (l : list A) :
  Forall Q l -> Forall Q (List.filter f l).
Proof.
  induction 1 as [|x l Hx Hl IH]; simpl; [constructor|].
  destruct (f x); [now constructor|assumption].
Qed.

(** C4, as stated, fails: the content of a fenced code block is rewritten
    like any other text; a run of spaces in it becomes one space, its
    indentation with a tab becomes a space and a blank line in it is
    dropped. *)
Lemma cleanupForLLM_fence_counterexample :
  cleanupForLLM (unlines [str "```"; str "if a:    b"; str "```"]) =
    unlines [str "```"; str "if a: b"; str "```"]
  /\ cleanupForLLM (unlines [str "```"; str "f()"; 9%N :: str "g()"; [];
                            str "h()"; str "```"]) =
     unlines [str "```"; str "f()"; str " g()"; str "h()"; str "```"].
Proof. split; vm_compute; reflexivity. Qed.

(** C4, amended.  The white-space normalization is applied to the whole
    text, fenced code included: whatever the input, the output of
    cleanupForLLM contains no tab at all, since every run of spaces and
    tabs has been rewritten to one space and nothing later brings a tab
    back; so no text with a tab in it, between code fences or elsewhere,
    occurs in the output. *)
Theorem cleanupForLLM_no_tab (x : jsstr) :
  Forall not_tab (cleanupForLLM x)
  /\ forall body u v,
       In 9%N body -> cleanupForLLM x <> u ++ body ++ v.
Proof.
  assert (H : Forall not_tab (cleanupForLLM x)); [|split; [exact H|]].
  2: { intros body u v Hin E. rewrite E in H.
       apply Forall_app in H as [_ H]. apply Forall_app in H as [H _].
       rewrite List.Forall_forall in H. now apply (H _ Hin). }
  unfold cleanupForLLM.
  apply reconstructTables_ok, trim_ok, replace_ok;
    [constructor; [lit_ok|constructor]|].
  unfold unlines, lines. apply join_ok; [lit_ok|].
  apply filter_ok, split_ok.
  apply apply_rules_ok; [apply rules_all_ok; vm_compute; reflexivity|].
  apply trim_ok.
  change rules_main
    with (take 31 rules_main
          ++ [(re_hspace, [TLit (str " ")])] ++ drop 32 rules_main).
  rewrite !apply_rules_app.
  apply apply_rules_ok; [apply rules_all_ok; vm_compute; reflexivity|].
  unfold apply_rules at 1. simpl fold_left. apply hspace_no_tab.
Qed.

Lemma cleanupForLLM_no_tab_witness :
  In 9%N (9%N :: str "g()")
  /\ cleanupForLLM (unlines [str "```"; 9%N :: str "g()"; str "```"]) <>
     (str "```" ++ nl) ++ (9%N :: str "g()") ++ (nl ++ str "```").
Proof.
  split; [now left|].
  apply (cleanupForLLM_no_tab
           (unlines [str "```"; 9%N :: str "g()"; str "```"])).
  now left.
Defined.

(** ** Replacing the runs of a class *)

Section RunReplace.

Variable cs : cset.
Variable lo : nat.
Variable tpl : list titem.
Hypothesis lo_pos : 1 <= lo.

Local Abbreviation run_re := (G (Quant true lo None cs)).

Lemma replace_go_run_prev s : forall p p' skip,
  replace_go run_re tpl true p s skip = replace_go run_re tpl true p' s skip.
Proof.
  induction s as [|x t IH]; intros p p' skip.
  - destruct skip; [|reflexivity]. cbn [replace_go]. now rewrite !exec_at_run.
  - destruct skip; cbn [replace_go]; [|apply IH].
    rewrite !exec_at_run. reflexivity.
Qed.

Lemma ends_free_tail x a : a <> [] -> ends_free cs (x :: a) -> ends_free cs a.
Proof. unfold ends_free. intros Hne. now destruct a. Qed.

Lemma lead_app_free a r :
  a <> [] -> ends_free cs a ->
  lead cs (a ++ r) = lead cs a
  /\ after_lead cs (a ++ r) = after_lead cs a ++ r.
Proof.
  induction a as [|x a IH]; intros Hne Hf; [congruence|].
  simpl. destruct (in_cset cs x) eqn:E; [|auto].
  destruct a as [|y a].
  - unfold ends_free in Hf. simpl in Hf. congruence.
  - destruct IH as [H1 H2]; [discriminate|now apply (ends_free_tail x)|].
    now rewrite H1, H2.
Qed.

Lemma length_lead_le s : length (lead cs s) <= length s.
Proof.
  induction s as [|x t IH]; simpl; [lia|].
  destruct (in_cset cs x); simpl; lia.
Qed.

(** The replacement of [a ++ r] is the replacement of [a] followed by the
    replacement of [r], when no run crosses the border. *)
Lemma replace_go_run_split a : forall r p skip,
  ends_free cs a -> skip <= length a ->
  replace_go run_re tpl true p (a ++ r) skip =
  replace_go run_re tpl true p a skip ++ replace_go run_re tpl true p r 0.
Proof.
  induction a as [|x a IH]; intros r p skip Hf Hs.
  - simpl in Hs. replace skip with 0 by lia. simpl app.
    cbn [replace_go]. rewrite (exec_at_run lo cs p []). simpl lead.
    rewrite (proj2 (Nat.leb_gt _ _)) by (simpl; lia). reflexivity.
  - assert (Hf' : ends_free cs a).
    { destruct a; [exact I|]. now apply (ends_free_tail x). }
    destruct skip as [|k].
    + rewrite <- app_comm_cons. cbn [replace_go]. rewrite !exec_at_run.
      destruct (lead_app_free (x :: a) r) as [H1 H2]; [discriminate|assumption|].
      rewrite <- app_comm_cons in H1, H2. rewrite H1, H2.
      destruct (Nat.leb_spec lo (length (lead cs (x :: a)))) as [Hle|Hgt].
      * assert (Hd : length (x :: a ++ r) - length (after_lead cs (x :: a) ++ r)
                     = length (x :: a) - length (after_lead cs (x :: a))).
        { assert (Hlen : length (lead cs (x :: a))
                         + length (after_lead cs (x :: a)) = length (x :: a))
            by (rewrite <- length_app, lead_after; reflexivity).
          change (x :: a ++ r) with ((x :: a) ++ r).
          rewrite !length_app.
          generalize (length (x :: a)), (length (after_lead cs (x :: a))),
                     (length r).
          clear. intros. lia. }
        rewrite Hd, length_after_lead.
        pose proof (length_lead_le (x :: a)) as Hle'.
        change (length (x :: a)) with (S (length a)) in Hle'.
        destruct (length (lead cs (x :: a))) as [|k] eqn:Ek; [lia|].
        rewrite IH by (auto; lia). rewrite <- app_assoc.
        now rewrite (replace_go_run_prev r (Some x) p).
      * rewrite IH by (auto; simpl; lia).
        now rewrite (replace_go_run_prev r (Some x) p).
    + rewrite <- app_comm_cons. cbn [replace_go].
      rewrite IH by (auto; simpl in Hs; lia).
      now rewrite (replace_go_run_prev r (Some x) p).
Qed.

Lemma lead_run w b :
  forallb (in_cset cs) w = true -> starts_free cs b ->
  lead cs (w ++ b) = w /\ after_lead cs (w ++ b) = b.
Proof.
  intros Hw Hb. induction w as [|x w IH]; simpl in *.
  - destruct b as [|y b]; [auto|]. simpl. unfold starts_free in Hb.
    now rewrite Hb.
  - apply andb_true_iff in Hw as [Hx Hw]. rewrite Hx.
    destruct (IH Hw) as [H1 H2]. now rewrite H1, H2.
Qed.

(** A run long enough is replaced by the template. *)
Lemma replace_go_run_long w b p :
  forallb (in_cset cs) w = true -> starts_free cs b -> lo <= length w ->
  replace_go run_re tpl true p (w ++ b) 0 =
  expand tpl [] ++ replace_go run_re tpl true p b 0.
Proof.
  intros Hw Hb Hlo. destruct w as [|x w]; [simpl in Hlo; lia|].
  rewrite <- app_comm_cons. cbn [replace_go]. rewrite exec_at_run.
  destruct (lead_run (x :: w) b Hw Hb) as [H1 H2].
  rewrite <- app_comm_cons in H1, H2. rewrite H1, H2.
  rewrite (proj2 (Nat.leb_le _ _)) by assumption.
  replace (length (x :: w ++ b) - length b) with (S (length w))
    by (simpl; rewrite length_app; lia).
  rewrite replace_go_skip. f_equal. apply replace_go_run_prev.
Qed.

(** A run too short is copied. *)
Lemma replace_go_run_short w : forall b p,
  forallb (in_cset cs) w = true -> starts_free cs b -> length w < lo ->
  replace_go run_re tpl true p (w ++ b) 0 =
  w ++ replace_go run_re tpl true p b 0.
Proof.
  induction w as [|x w IH]; intros b p Hw Hb Hlo; [reflexivity|].
  rewrite <- app_comm_cons. cbn [replace_go]. rewrite exec_at_run.
  destruct (lead_run (x :: w) b Hw Hb) as [H1 H2].
  rewrite <- app_comm_cons in H1. rewrite H1.
  rewrite (proj2 (Nat.leb_gt _ _)) by assumption.
  simpl in Hw. apply andb_true_iff in Hw as [_ Hw].
  rewrite IH by (auto; simpl in Hlo; lia).
  simpl. f_equal. f_equal. apply replace_go_run_prev.
Qed.

End RunReplace.

(** ** Blank lines *)

Lemma forallb_replicate_lf n : forallb (in_cset lf_class) (replicate n LF) = true.
Proof. induction n as [|n IH]; [reflexivity|]. simpl. exact IH. Qed.

(** C7, as stated, fails: a single blank line (a paragraph break) is not
    preserved, a run of two blank lines is not preserved, and a run of
    three blank lines is not collapsed to one blank line; in each case no
    blank line is left. *)
Lemma cleanupForLLM_blank_lines_counterexample :
  cleanupForLLM (unlines [str "a"; []; str "b"]) = unlines [str "a"; str "b"]
  /\ cleanupForLLM (unlines [str "a"; []; []; str "b"]) =
     unlines [str "a"; str "b"]
  /\ cleanupForLLM (unlines [str "a"; []; []; []; str "b"]) =
     unlines [str "a"; str "b"].
Proof. repeat split; vm_compute; reflexivity. Qed.

(** C7, amended.  The newline rule of cleanupForLLM (lines 404 and 439)
    rewrites every run of three or more line feeds, that is of two or more
    empty lines, to exactly two line feeds, one empty line, and leaves a
    shorter run (a line break, or a single empty line) as it is. *)
Theorem newline_rule_collapses_runs (a b : jsstr) (n : nat) :
  ends_free lf_class a -> starts_free lf_class b ->
  replace re_newlines two_newlines (a ++ replicate n LF ++ b) =
  replace re_newlines two_newlines a
  ++ replicate (if 3 <=? n then 2 else n) LF
  ++ replace re_newlines two_newlines b.
Proof.
  intros Ha Hb. unfold replace, re_newlines, at_least.
  rewrite replace_go_run_split by (auto; lia). f_equal.
  destruct (Nat.leb_spec 3 n) as [Hn|Hn].
  - rewrite replace_go_run_long;
      auto using forallb_replicate_lf; try (rewrite length_replicate; lia).
  - rewrite replace_go_run_short;
      auto using forallb_replicate_lf; try (rewrite length_replicate; lia).
Qed.

Lemma newline_rule_collapses_runs_witness :
  replace re_newlines two_newlines
          (str "a" ++ replicate 5 LF ++ str "b") =
  replace re_newlines two_newlines (str "a")
  ++ replicate 2 LF ++ replace re_newlines two_newlines (str "b").
Proof.
  apply (newline_rule_collapses_runs (str "a") (str "b") 5); reflexivity.
Defined.

(** ** The table reconstruction is idempotent *)

Lemma find_heading_after h ls : forall i,
  match find_heading h ls i with
  | Some d => i <= d /\ after_heading h ls = Some (drop (d - i + 1) ls)
  | None => after_heading h ls = None
  end.
Proof.
  induction ls as [|l ls IH]; intros i; simpl; [reflexivity|].
  destruct (eqb_str (trim l) h).
  - split; [lia|]. now rewrite Nat.sub_diag.
  - specialize (IH (S i)). destruct (find_heading h ls (S i)) as [d|]; [|exact IH].
    destruct IH as [Hle ->]. split; [lia|].
    replace (d - i + 1) with (S (d - S i + 1)) by lia. reflexivity.
Qed.

Lemma extractPropertiesTable_from lns i :
  extractPropertiesTable lns i = properties_table_from (drop i lns).
Proof.
  unfold extractPropertiesTable, properties_table_from.
  pose proof (find_heading_after h_property_descriptions (drop i lns) i) as H.
  destruct (find_heading _ _ i) as [d|]; [|now rewrite H].
  destruct H as [Hle ->]. rewrite drop_drop.
  now replace (i + (d - i + 1)) with (d + 1) by lia.
Qed.

Lemma extractMethodsTable_from lns i :
  extractMethodsTable lns i = methods_table_from (drop i lns).
Proof.
  unfold extractMethodsTable, methods_table_from.
  pose proof (find_heading_after h_method_descriptions (drop i lns) i) as H.
  destruct (find_heading _ _ i) as [d|]; [|now rewrite H].
  destruct H as [Hle ->]. rewrite drop_drop.
  now replace (i + (d - i + 1)) with (d + 1) by lia.
Qed.

Lemma reconstruct_loop_from lns rest : forall i,
  rest = drop i lns -> reconstruct_loop lns i rest = reconstruct_from rest.
Proof.
  induction rest as [|l rest IH]; intros i H; [reflexivity|].
  rewrite reconstruct_loop_cons. cbn [reconstruct_from].
  assert (Hr : rest = drop (S i) lns).
  { rewrite <- (Nat.add_1_r i), <- drop_drop, <- H. reflexivity. }
  rewrite (IH (S i) Hr). f_equal. f_equal.
  unfold inserted, inserted_from.
  now rewrite extractPropertiesTable_from, extractMethodsTable_from, <- H.
Qed.

Lemma reconstructTables_from content :
  reconstructTables content = unlines (reconstruct_from (lines content)).
Proof.
  unfold reconstructTables. now rewrite (reconstruct_loop_from _ _ 0).
Qed.

Lemma lines_unlines_flat ls : ls <> [] -> lines (unlines ls) = flat_map lines ls.
Proof.
  induction ls as [|l ls IH]; intros Hne; [congruence|].
  destruct ls as [|l' ls].
  - simpl. now rewrite app_nil_r.
  - unfold unlines, lines, nl in *. rewrite join_cons.
    change ([LF] ++ join [LF] (l' :: ls)) with (LF :: join [LF] (l' :: ls)).
    rewrite split_app_sep, IH by discriminate. reflexivity.
Qed.

Lemma unlines_flat_lines ls : ls <> [] -> unlines (flat_map lines ls) = unlines ls.
Proof.
  intros Hne. rewrite <- lines_unlines_flat by assumption. apply unlines_lines.
Qed.

Lemma lines_single l : no_lf l = true -> lines l = [l].
Proof. intros H. apply split_single. now apply no_lf_spec. Qed.

(** *** Inert lines *)

Lemma trimStart_keeps_last a x :
  is_space x = false -> exists a', trimStart (a ++ [x]) = a' ++ [x].
Proof.
  intros Hx. induction a as [|y a IH]; simpl.
  - rewrite Hx. now exists [].
  - destruct (is_space y); [exact IH|]. now exists (y :: a).
Qed.

Lemma trim_keeps_head x t :
  is_space x = false -> exists t', trim (x :: t) = x :: t'.
Proof.
  intros Hx. unfold trim, trimEnd. cbn [trimStart]. rewrite Hx.
  cbn [rev]. destruct (trimStart_keeps_last (rev t) x Hx) as [a' ->].
  rewrite rev_app_distr. simpl. eauto.
Qed.

Lemma inert_empty : inert [].
Proof. repeat split; vm_compute; reflexivity. Qed.

(** A line that starts with a vertical bar, like those of a table. *)
Lemma inert_bar t : inert (124%N :: t).
Proof.
  destruct (trim_keeps_head 124%N t eq_refl) as [t' E].
  unfold inert. rewrite E. split; [reflexivity|]. split.
  - destruct (propertyMatch (124%N :: t')) as [p|] eqn:Ep; [|reflexivity].
    exfalso. apply propertyMatch_layout in Ep.
    destruct Ep as (ws & tail & Hl & _ & _ & Hw & Hne & _).
    destruct (p_type p) as [|y ty]; [congruence|].
    simpl in Hl. inversion Hl; subst. simpl in Hw. discriminate.
  - destruct (methodMatch (124%N :: t')) as [r|] eqn:Em; [|reflexivity].
    exfalso. apply methodMatch_layout in Em.
    destruct Em as (ret & name & params & (ws & ws' & tail & Hl & _) & _).
    simpl in Hl. inversion Hl.
Qed.

Lemma inert_not_heading z h :
  inert z -> startsWith h (str "## ") = true -> eqb_str (trim z) h = false.
Proof.
  intros [Hz _] Hh. unfold eqb_str. apply bool_decide_eq_false_2.
  intros E. rewrite E in Hz. congruence.
Qed.

Lemma inserted_from_inert z rest : inert z -> inserted_from z rest = [].
Proof.
  intros Hz. unfold inserted_from.
  now rewrite !(inert_not_heading z) by (assumption || reflexivity).
Qed.

Lemma reconstruct_from_inert zs ys :
  Forall inert zs -> reconstruct_from (zs ++ ys) = zs ++ reconstruct_from ys.
Proof.
  induction 1 as [|z zs Hz Hzs IH]; [reflexivity|].
  simpl. now rewrite inserted_from_inert, IH.
Qed.

(** *** Padding does not change the extraction *)

Lemma after_heading_padded h xs ys :
  startsWith h (str "## ") = true -> padded xs ys ->
  match after_heading h xs with
  | Some xs' => exists ys', after_heading h ys = Some ys' /\ padded xs' ys'
  | None => after_heading h ys = None
  end.
Proof.
  intros Hh. induction 1 as [|l xs ys Hp IH|z xs ys Hz Hp IH]; simpl.
  - reflexivity.
  - destruct (eqb_str (trim l) h); [eauto|exact IH].
  - now rewrite (inert_not_heading z h).
Qed.

Lemma parse_properties_padded xs ys :
  padded xs ys -> parse_properties ys = parse_properties xs.
Proof.
  induction 1 as [|l xs ys Hp IH|z xs ys Hz Hp IH]; simpl.
  - reflexivity.
  - destruct (_ && _); [reflexivity|]. now rewrite IH.
  - destruct Hz as (Hs & Hpm & _). now rewrite Hs, Hpm.
Qed.

Lemma parse_methods_padded xs ys :
  padded xs ys -> parse_methods ys = parse_methods xs.
Proof.
  induction 1 as [|l xs ys Hp IH|z xs ys Hz Hp IH]; simpl.
  - reflexivity.
  - destruct (_ && _); [reflexivity|]. now rewrite IH.
  - destruct Hz as (Hs & _ & Hmm). now rewrite Hs, Hmm.
Qed.

Lemma properties_table_padded xs ys :
  padded xs ys -> properties_table_from ys = properties_table_from xs.
Proof.
  intros Hp. unfold properties_table_from.
  pose proof (after_heading_padded h_property_descriptions xs ys eq_refl Hp) as H.
  destruct (after_heading h_property_descriptions xs) as [xs'|].
  - destruct H as (ys' & -> & Hp'). now rewrite (parse_properties_padded xs' ys').
  - now rewrite H.
Qed.

Lemma methods_table_padded xs ys :
  padded xs ys -> methods_table_from ys = methods_table_from xs.
Proof.
  intros Hp. unfold methods_table_from.
  pose proof (after_heading_padded h_method_descriptions xs ys eq_refl Hp) as H.
  destruct (after_heading h_method_descriptions xs) as [xs'|].
  - destruct H as (ys' & -> & Hp'). now rewrite (parse_methods_padded xs' ys').
  - now rewrite H.
Qed.

Lemma inserted_from_padded l xs ys :
  padded xs ys -> (forall h, next_is h ys = next_is h xs) ->
  inserted_from l ys = inserted_from l xs.
Proof.
  intros Hp Hn. unfold inserted_from. rewrite !Hn.
  rewrite (properties_table_padded (l :: xs) (l :: ys)) by now constructor.
  now rewrite (methods_table_padded (l :: xs) (l :: ys)) by now constructor.
Qed.

Lemma padded_app_inert zs xs ys :
  Forall inert zs -> padded xs ys -> padded xs (zs ++ ys).
Proof. induction 1; simpl; [auto|]. intros. constructor; auto. Qed.

(** *** The lines of an inserted table are inert *)

Lemma unit_not_lf_printable c :
  (32 <=? c)%N && (c <? 127)%N = true -> unit_not_lf c.
Proof. intros H ->. discriminate. Qed.

Lemma no_lf_units l : no_lf l = true <-> Forall unit_not_lf l.
Proof.
  rewrite no_lf_spec, List.Forall_forall. unfold unit_not_lf. split.
  - intros H x Hx ->. contradiction.
  - intros H Hin. now apply (H LF).
Qed.

Lemma after_heading_Forall (Q : jsstr -> Prop) h ls rest :
  after_heading h ls = Some rest -> Forall Q ls -> Forall Q rest.
Proof.
  induction ls as [|l ls IH]; intros H Hq; [discriminate|].
  inversion Hq; subst. simpl in H.
  destruct (eqb_str (trim l) h); [now inversion H; subst|auto].
Qed.

Lemma bar_rows_inert rows :
  Forall (fun r => exists t, r = 124%N :: t) rows ->
  Forall (Forall unit_not_lf) rows ->
  Forall inert (flat_map lines rows).
Proof.
  induction 1 as [|r rows [t ->] Hrows IH]; intros Hlf; [constructor|].
  inversion Hlf; subst. cbn [flat_map].
  rewrite lines_single by now apply no_lf_units.
  constructor; [apply inert_bar|auto].
Qed.

Lemma property_rows_bar ps :
  Forall (fun r => exists t, r = 124%N :: t) (map property_row ps).
Proof.
  induction ps as [|p ps IH]; constructor; [|exact IH].
  unfold property_row. simpl. eauto.
Qed.

Lemma method_rows_bar ms :
  Forall (fun r => exists t, r = 124%N :: t) (map method_row ms).
Proof.
  induction ms as [|p ms IH]; constructor; [|exact IH].
  unfold method_row. simpl. eauto.
Qed.

Lemma lines_to_units ls :
  Forall (fun l => no_lf l = true) ls -> Forall (Forall unit_not_lf) ls.
Proof. apply List.Forall_impl. intros l. apply no_lf_units. Qed.

Lemma table_lines_inert header rows :
  Forall inert (lines header) ->
  Forall (fun r => exists t, r = 124%N :: t) rows ->
  Forall (Forall unit_not_lf) rows ->
  Forall inert (lines (unlines (header :: rows))).
Proof.
  intros Hh Hb Hlf. rewrite lines_unlines_flat by discriminate.
  cbn [flat_map]. apply Forall_app_2; [exact Hh|now apply bar_rows_inert].
Qed.

Lemma properties_table_inert suffix t :
  Forall (fun l => no_lf l = true) suffix ->
  properties_table_from suffix = Some t -> Forall inert (lines t).
Proof.
  intros Hlf. unfold properties_table_from.
  destruct (after_heading h_property_descriptions suffix) as [rest|] eqn:E;
    [|discriminate].
  apply (after_heading_Forall _ _ _ _ E) in Hlf.
  pose proof (parse_properties_ok unit_not_lf unit_not_lf_printable rest
                (lines_to_units _ Hlf)) as Hrows.
  destruct (parse_properties rest) as [|p ps] eqn:Ep; [discriminate|].
  intros [= <-].
  apply (table_lines_inert property_header (map property_row (p :: ps)));
    [|apply property_rows_bar|exact Hrows].
  change (lines property_header)
    with [str "| Type | Property | Default |";
          str "|------|----------|---------|"].
  constructor; [apply inert_bar|]. constructor; [apply inert_bar|constructor].
Qed.

Lemma methods_table_inert suffix t :
  Forall (fun l => no_lf l = true) suffix ->
  methods_table_from suffix = Some t -> Forall inert (lines t).
Proof.
  intros Hlf. unfold methods_table_from.
  destruct (after_heading h_method_descriptions suffix) as [rest|] eqn:E;
    [|discriminate].
  apply (after_heading_Forall _ _ _ _ E) in Hlf.
  pose proof (parse_methods_ok unit_not_lf unit_not_lf_printable rest
                (lines_to_units _ Hlf)) as Hrows.
  destruct (parse_methods rest) as [|p ps] eqn:Ep; [discriminate|].
  intros [= <-].
  apply (table_lines_inert method_header (map method_row (p :: ps)));
    [|apply method_rows_bar|exact Hrows].
  change (lines method_header)
    with [str "| Return Type | Method |"; str "|-------------|--------|"].
  constructor; [apply inert_bar|]. constructor; [apply inert_bar|constructor].
Qed.

(** What a table adds to the lines: nothing, or an empty line, the lines
    of the table and an empty line, all of them inert. *)
Lemma push_table_lines t :
  (forall v, t = Some v -> Forall inert (lines v)) ->
  (push_table t = [] /\ flat_map lines (push_table t) = [])
  \/ (exists zs, flat_map lines (push_table t) = [] :: zs
                /\ Forall inert ([] :: zs)).
Proof.
  intros H.
  destruct t as [[|x v]|]; [left; split; reflexivity| |left; split; reflexivity].
  right. exists (lines (x :: v) ++ [[]]). split; [reflexivity|].
  constructor; [apply inert_empty|].
  apply Forall_app_2; [now apply H|].
  constructor; [apply inert_empty|constructor].
Qed.

Lemma inserted_from_lines l rest :
  Forall (fun l => no_lf l = true) (l :: rest) ->
  (inserted_from l rest = [] /\ flat_map lines (inserted_from l rest) = [])
  \/ (exists zs, flat_map lines (inserted_from l rest) = [] :: zs
                /\ Forall inert ([] :: zs)).
Proof.
  intros Hlf. unfold inserted_from.
  destruct (_ && _).
  - apply push_table_lines. intros v. now apply properties_table_inert.
  - destruct (_ && _); [|now left].
    apply push_table_lines. intros v. now apply methods_table_inert.
Qed.

Lemma flat_lines_cons l rest :
  no_lf l = true ->
  flat_map lines (reconstruct_from (l :: rest)) =
  l :: flat_map lines (inserted_from l rest)
    ++ flat_map lines (reconstruct_from rest).
Proof.
  intros Hl. cbn [reconstruct_from flat_map].
  rewrite lines_single by assumption. now rewrite flat_map_app.
Qed.

Lemma flat_lines_padded rest :
  Forall (fun l => no_lf l = true) rest ->
  padded rest (flat_map lines (reconstruct_from rest)).
Proof.
  induction rest as [|l rest IH]; intros Hlf; [constructor|].
  inversion Hlf as [|? ? Hl Hrest]; subst. rewrite flat_lines_cons by assumption.
  constructor.
  destruct (inserted_from_lines l rest Hlf) as [[_ ->]|(zs & -> & Hz)].
  - now apply IH.
  - apply (padded_app_inert ([] :: zs)); auto.
Qed.

Lemma flat_lines_next rest h :
  Forall (fun l => no_lf l = true) rest ->
  next_is h (flat_map lines (reconstruct_from rest)) = next_is h rest.
Proof.
  intros Hlf. destruct rest as [|l rest]; [reflexivity|].
  inversion Hlf; subst. now rewrite flat_lines_cons.
Qed.

(** A second pass over the lines of the result adds nothing. *)
Lemma reconstruct_from_fixed rest :
  Forall (fun l => no_lf l = true) rest ->
  reconstruct_from (flat_map lines (reconstruct_from rest)) =
  flat_map lines (reconstruct_from rest).
Proof.
  induction rest as [|l rest IH]; intros Hlf; [reflexivity|].
  inversion Hlf as [|? ? Hl Hrest]; subst. rewrite flat_lines_cons by assumption.
  cbn [reconstruct_from].
  destruct (inserted_from_lines l rest Hlf) as [[E ->]|(zs & -> & Hz)].
  - cbn [app]. rewrite IH by assumption.
    rewrite (inserted_from_padded l rest);
      [now rewrite E| now apply flat_lines_padded
      | intros h; now apply flat_lines_next].
  - rewrite reconstruct_from_inert, IH by assumption.
    assert (Hi : inserted_from l (([] :: zs)
                   ++ flat_map lines (reconstruct_from rest)) = []).
    { unfold inserted_from. cbn [app next_is].
      change (eqb_str (trim []) h_methods) with false.
      change (eqb_str (trim []) h_property_descriptions) with false.
      now rewrite !andb_false_r. }
    now rewrite Hi.
Qed.

Lemma reconstruct_from_nonempty rest : rest <> [] -> reconstruct_from rest <> [].
Proof. destruct rest; [congruence|discriminate]. Qed.

Lemma reconstructTables_idempotent content :
  reconstructTables (reconstructTables content) = reconstructTables content.
Proof.
  rewrite !reconstructTables_from.
  assert (Hne : reconstruct_from (lines content) <> []).
  { apply reconstruct_from_nonempty. apply split_nonempty. }
  rewrite lines_unlines_flat by assumption.
  rewrite reconstruct_from_fixed by apply lines_no_lf.
  now apply unlines_flat_lines.
Qed.

(** ** Idempotence *)

Lemma is_plain_over x : forallb is_plain x = true -> over plain_alphabet x.
Proof.
  intros H. apply List.Forall_forall. intros c Hc.
  rewrite forallb_forall in H. specialize (H _ Hc).
  unfold is_plain in H. apply existsb_exists in H as (y & Hy & E).
  apply N.eqb_eq in E. now subst.
Qed.

Lemma in_class_one c x :
  in_cset (Class false [IChar c]) x = true -> x = c.
Proof.
  unfold in_cset. cbn [existsb in_citem xorb]. rewrite orb_false_r.
  intros H. apply N.eqb_eq in H. now subst.
Qed.

Lemma in_class_two c d x :
  in_cset (Class false [IChar c; IChar d]) x = true -> x = c \/ x = d.
Proof.
  unfold in_cset. cbn [existsb in_citem xorb]. rewrite orb_false_r.
  intros H. apply orb_true_iff in H as [H|H]; apply N.eqb_eq in H; auto.
Qed.

(** A text whose lines all pass the filter has no two adjacent line
    feeds. *)
Lemma kept_lines_no_empty u v :
  forallb keep_line (lines (u ++ LF :: LF :: v)) = false.
Proof.
  unfold lines. rewrite split_app_sep.
  change (split LF (LF :: v)) with ([] :: split LF v).
  rewrite forallb_app. cbn [forallb].
  change (keep_line []) with false. apply andb_false_r.
Qed.

Lemma newlines_identity x :
  forallb keep_line (lines x) = true ->
  replace re_newlines two_newlines x = x.
Proof.
  intros H. apply replace_go_no_match. intros p u v ->.
  unfold re_newlines, at_least. rewrite exec_at_run.
  destruct v as [|a [|b v]]; try reflexivity.
  - cbn [lead]. now destruct (in_cset lf_class a).
  - cbn [lead]. destruct (in_cset lf_class a) eqn:Ea; [|reflexivity].
    destruct (in_cset lf_class b) eqn:Eb; [|reflexivity].
    assert (a = LF /\ b = LF) as [-> ->].
    { split; now apply in_class_one. }
    now rewrite kept_lines_no_empty in H.
Qed.

Lemma hspace_identity s : forall p,
  no_space_run s = true -> Forall not_tab s ->
  replace_go re_hspace [TLit (str " ")] true p s 0 = s.
Proof.
  induction s as [|x t IH]; intros p Hr Ht.
  - reflexivity.
  - cbn [no_space_run] in Hr. apply andb_true_iff in Hr as [Hx Hr].
    inversion Ht as [|? ? Hnt Ht']; subst.
    unfold re_hspace, plus in *.
    destruct (in_cset hspace_class x) eqn:E.
    + assert (Hb : starts_free hspace_class t).
      { destruct t as [|y t]; [exact I|]. unfold starts_free.
        rewrite ?E in Hx. cbn [andb] in Hx. now apply negb_true_iff in Hx. }
      change (x :: t) with ([x] ++ t).
      rewrite replace_go_run_long; auto; [|cbn [forallb]; now rewrite E].
      rewrite IH by assumption.
      assert (x = 32%N) as ->; [|reflexivity].
      apply in_class_two in E as [E|E]; [exact E|]. now destruct Hnt.
    + cbn [replace_go]. rewrite exec_at_run. cbn [lead]. rewrite E.
      simpl. f_equal. now apply IH.
Qed.

Lemma plain_no_tab x : over plain_alphabet x -> Forall not_tab x.
Proof.
  apply List.Forall_impl. intros c Hc ->. vm_compute in Hc.
  repeat (destruct Hc as [Hc|Hc]; [discriminate|]). exact Hc.
Qed.

Lemma plain_no_heading l h :
  over plain_alphabet l -> In 35%N h -> eqb_str (trim l) h = false.
Proof.
  intros Hl Hh. unfold eqb_str. apply bool_decide_eq_false_2. intros E.
  apply (trim_ok (fun c => In c plain_alphabet)) in Hl. rewrite E in Hl.
  rewrite List.Forall_forall in Hl. specialize (Hl _ Hh).
  vm_compute in Hl. repeat (destruct Hl as [Hl|Hl]; [discriminate|]). exact Hl.
Qed.

Lemma plain_no_pair ls :
  Forall (over plain_alphabet) ls -> no_pair ls = true.
Proof.
  induction 1 as [|l ls Hl Hls IH]; [reflexivity|].
  cbn [no_pair]. rewrite IH, andb_true_r. apply negb_true_iff.
  destruct ls as [|l' ls]; [reflexivity|]. simpl.
  unfold properties_pair, methods_pair.
  rewrite !(plain_no_heading l) by (auto; vm_compute; tauto). reflexivity.
Qed.

Lemma filter_all {A} (f : A -> bool) (l : list A) :
  forallb f l = true -> List.filter f l = l.
Proof.
  induction l as [|x l IH]; simpl; [reflexivity|].
  intros H. apply andb_true_iff in H as [-> H]. now rewrite IH.
Qed.

(** C1, as stated, fails: the blank lines that the table reconstruction
    puts around a table are removed by a second application, and a
    key-value line uncovered by the final trim is removed by a second
    application. *)
Lemma cleanupForLLM_idempotence_counterexample :
  let x := unlines [str "## Properties"; str "## Methods";
                    str "## Property Descriptions"; str "int **x**"] in
  cleanupForLLM (cleanupForLLM x) <> cleanupForLLM x
  /\ cleanupForLLM (str " a: b") = str "a: b"
  /\ cleanupForLLM (cleanupForLLM (str " a: b")) = [].
Proof.
  split; [vm_compute; discriminate|]. split; vm_compute; reflexivity.
Qed.

(** C1, amended.  The table-reconstruction step is idempotent on every
    text: reconstructTables applied to its own output returns it unchanged.
    The whole cleaner is idempotent on already-clean input, where it is the
    identity: for every plain text (letters, digits, underscore, single
    spaces, line feeds and the punctuation no rule looks for) that is
    trimmed and whose lines all pass the line filter of the cleaner,
    cleanupForLLM returns the text unchanged, and applying it twice gives
    the same result as applying it once. *)
Theorem cleanupForLLM_idempotence (x : jsstr) :
  reconstructTables (reconstructTables x) = reconstructTables x
  /\ (clean x = true ->
      cleanupForLLM x = x
      /\ cleanupForLLM (cleanupForLLM x) = cleanupForLLM x).
Proof.
  split; [apply reconstructTables_idempotent|].
  intros H. assert (E : cleanupForLLM x = x); [|split; [exact E|now rewrite !E]].
  unfold clean in H. apply andb_true_iff in H as [H Hk].
  apply andb_true_iff in H as [H Ht]. apply andb_true_iff in H as [Hp Hr].
  apply is_plain_over in Hp. unfold eqb_str in Ht.
  apply bool_decide_eq_true in Ht.
  unfold cleanupForLLM, removeImageReferences.
  rewrite (apply_rules_dead plain_alphabet rules_images x)
    by (first [exact Hp | vm_compute; reflexivity]).
  change rules_main
    with (take 30 rules_main ++ [(re_newlines, two_newlines)]
          ++ [(re_hspace, [TLit (str " ")])] ++ drop 32 rules_main).
  rewrite !apply_rules_app.
  rewrite (apply_rules_dead plain_alphabet (take 30 rules_main) x)
    by (first [exact Hp | vm_compute; reflexivity]).
  change (apply_rules [(re_newlines, two_newlines)] x)
    with (replace re_newlines two_newlines x).
  rewrite (newlines_identity x) by assumption.
  change (apply_rules [(re_hspace, [TLit (str " ")])] x)
    with (replace_go re_hspace [TLit (str " ")] true None x 0).
  rewrite (hspace_identity x) by (auto using plain_no_tab).
  rewrite (apply_rules_dead plain_alphabet (drop 32 rules_main) x)
    by (first [exact Hp | vm_compute; reflexivity]).
  rewrite Ht.
  rewrite (apply_rules_dead plain_alphabet rules_post x)
    by (first [exact Hp | vm_compute; reflexivity]).
  rewrite filter_all, unlines_lines by assumption.
  rewrite (newlines_identity x), Ht by assumption.
  unfold reconstructTables.
  rewrite reconstruct_loop_identity; [apply unlines_lines|].
  apply plain_no_pair. unfold lines. now apply split_ok.
Qed.

Lemma cleanupForLLM_idempotence_witness :
  let x := unlines [str "Node2D inherits CanvasItem";
                    str "A 2D game object, with a transform (position, rotation)"] in
  clean x = true
  /\ cleanupForLLM x = x
  /\ cleanupForLLM (cleanupForLLM x) = cleanupForLLM x.
Proof.
  split; [vm_compute; reflexivity|].
  apply (cleanupForLLM_idempotence
           (unlines [str "Node2D inherits CanvasItem";
                     str "A 2D game object, with a transform (position, rotation)"])).
  vm_compute. reflexivity.
Defined.

(** ** Method records *)

Section QuantOrder.

Variable cs : cset.

(** A greedy quantifier hands the whole run to its continuation first. *)
Lemma quant_greedy_first w : forall lo p b c (k : cont) res,
  forallb (in_cset cs) w = true -> starts_free cs b -> lo <= length w ->
  k (last_unit p w) b c = Some res ->
  quant true cs lo None p (w ++ b) c k = Some res.
Proof.
  induction w as [|x w IH]; intros lo p b c k res Hw Hb Hlo Hk.
  - simpl in Hlo. replace lo with 0 by lia. simpl app.
    destruct b as [|y b]; simpl; [exact Hk|].
    unfold starts_free in Hb. rewrite Hb. exact Hk.
  - simpl in Hw. apply andb_true_iff in Hw as [Hx Hw].
    rewrite <- app_comm_cons. cbn [quant hi_pred hi_allows andb]. rewrite Hx.
    rewrite (IH (pred lo) (Some x) b c k res); auto.
    simpl in Hlo. lia.
Qed.

(** A lazy quantifier stops at the first position where its continuation
    succeeds. *)
Lemma quant_lazy_first w : forall p b c (k : cont) res,
  forallb (in_cset cs) w = true ->
  (forall w1 y w2 p', w = w1 ++ y :: w2 -> k p' (y :: w2 ++ b) c = None) ->
  k (last_unit p w) b c = Some res ->
  quant false cs 0 None p (w ++ b) c k = Some res.
Proof.
  induction w as [|x w IH]; intros p b c k res Hw Hfail Hk.
  - simpl app. simpl in Hk. destruct b as [|y b]; cbn [quant]; [exact Hk|].
    rewrite Hk. now destruct (hi_allows None && in_cset cs y).
  - simpl in Hw. apply andb_true_iff in Hw as [Hx Hw].
    rewrite <- app_comm_cons. cbn [quant hi_pred hi_allows andb]. rewrite Hx.
    rewrite (Hfail [] x w p eq_refl).
    apply IH; auto.
    intros w1 y w2 p' ->. apply (Hfail (x :: w1) y w2 p'). reflexivity.
Qed.

End QuantOrder.

Section ReplaceOnce.

Variable re : regexp.
Variable tpl : list titem.

(** No match starts inside the prefix [u]: it is copied. *)
Lemma replace_go_prefix u : forall v p,
  (forall u1 y u2 p', u = u1 ++ y :: u2 -> exec_at re p' (y :: u2 ++ v) = None) ->
  replace_go re tpl true p (u ++ v) 0 =
  u ++ replace_go re tpl true (last_unit p u) v 0.
Proof.
  induction u as [|x u IH]; intros v p H; [reflexivity|].
  rewrite <- app_comm_cons. cbn [replace_go].
  rewrite (H [] x u p eq_refl). simpl. f_equal. apply IH.
  intros u1 y u2 p' ->. apply (H (x :: u1) y u2 p'). reflexivity.
Qed.

(** The single replacement of a pattern without the g flag. *)
Lemma replace_go_once p m rest c :
  flag_g re = false -> m <> [] ->
  exec_at re p (m ++ rest) = Some (rest, c) ->
  replace_go re tpl true p (m ++ rest) 0 = expand tpl c ++ rest.
Proof.
  intros Hg Hm E. destruct m as [|x m]; [congruence|].
  rewrite <- app_comm_cons. cbn [replace_go].
  rewrite app_comm_cons, E, <- app_comm_cons. f_equal.
  replace (length (x :: m ++ rest) - length rest) with (S (length m))
    by (simpl; rewrite length_app; lia).
  rewrite Hg, replace_go_skip. apply replace_go_inactive.
Qed.

End ReplaceOnce.

Lemma first_occurrence (c : N) (a b X Y : jsstr) :
  ~ In c a -> ~ In c b -> a ++ c :: X = b ++ c :: Y -> a = b.
Proof.
  revert b. induction a as [|x a IH]; intros [|y b] Ha Hb E; simpl in *.
  - reflexivity.
  - inversion E; subst. destruct Hb. now left.
  - inversion E; subst. destruct Ha. now left.
  - inversion E; subst. f_equal. apply (IH b); auto.
Qed.

Lemma annotation_needs_open p v rest c :
  exec_at re_annotation p v = Some (rest, c) ->
  exists w X, v = w ++ 40%N :: X /\ forallb is_space w = true.
Proof.
  intros E. apply exec_at_sound in E as (p' & HM).
  cbv [re_annotation pattern flag_m cat lit star lazy_star fold_right
       list_ascii_of_string ch N_of_ascii N_of_digits] in HM.
  simpl in HM. invM.
  match goal with
  | H : forallb (in_cset space) ?w = true |- _ =>
      exists w; eexists; split; [reflexivity|now apply space_is_space]
  end.
Qed.

Lemma space_not_open w : forallb is_space w = true -> ~ In 40%N w.
Proof.
  intros H Hin. rewrite forallb_forall in H. specialize (H _ Hin). discriminate.
Qed.

(** The annotation pattern on a parenthesised text between white space. *)
Lemma annotation_exec p ws ann ws' rest :
  forallb (in_cset space) ws = true ->
  forallb (in_cset Dot) ann = true -> ~ In 41%N ann ->
  forallb (in_cset space) ws' = true -> starts_free space rest ->
  exec_at re_annotation p (ws ++ 40%N :: ann ++ 41%N :: ws' ++ rest) =
  Some (rest, []).
Proof.
  intros Hws Hann Hclose Hws' Hrest. unfold exec_at.
  let r := eval vm_compute in (pattern re_annotation) in
  change (pattern re_annotation) with r.
  cbn [mt flag_m re_annotation].
  apply quant_greedy_first; [exact Hws|reflexivity|lia|].
  cbn [mt]. change (40 =? 40)%N with true. cbn iota.
  apply quant_lazy_first; [exact Hann| |].
  - intros w1 y w2 p' ->. cbn [mt].
    destruct (N.eqb_spec 41 y) as [<-|Hne]; [|reflexivity].
    destruct Hclose. apply in_or_app. right. now left.
  - cbn [mt]. change (41 =? 41)%N with true. cbn iota.
    rewrite quant_greedy_accept.
    destruct (lead_run space ws' rest Hws' Hrest) as [_ H2].
    change (Class false [ISpace]) with space. now rewrite H2.
Qed.

Lemma last_space u1 y u2 z :
  forallb is_space (y :: u2) = true -> last (u1 ++ y :: u2) = Some z ->
  is_space z = true.
Proof.
  intros H Hl. rewrite last_app in Hl.
  destruct (last (y :: u2)) as [z'|] eqn:E.
  - inversion Hl; subst. rewrite forallb_forall in H. apply H.
    apply list_elem_of_In. apply last_Some_elem_of. exact E.
  - apply last_None in E. discriminate.
Qed.

Lemma in_space_is_space y : in_cset space y = is_space y.
Proof. unfold space, in_cset. simpl. now rewrite orb_false_r. Qed.

(** The first parenthesised text, with the white space around it, is what
    the replacement removes. *)
Lemma annotation_replace base ws ann ws' rest :
  ~ In 40%N base -> ends_free space base ->
  forallb (in_cset space) ws = true ->
  forallb (in_cset Dot) ann = true -> ~ In 41%N ann ->
  forallb (in_cset space) ws' = true -> starts_free space rest ->
  replace re_annotation [] (base ++ ws ++ 40%N :: ann ++ 41%N :: ws' ++ rest) =
  base ++ rest.
Proof.
  intros Hopen Hend Hws Hann Hclose Hws' Hrest. unfold replace.
  rewrite replace_go_prefix.
  - f_equal.
    replace (ws ++ 40%N :: ann ++ 41%N :: ws' ++ rest)
      with ((ws ++ 40%N :: ann ++ 41%N :: ws') ++ rest)
      by (rewrite <- !app_assoc, <- !app_comm_cons, <- !app_assoc;
          reflexivity).
    rewrite (replace_go_once re_annotation [] _ _ rest []); [reflexivity..| |].
    + intros E. apply app_eq_nil in E as [_ E]. discriminate.
    + rewrite <- !app_assoc, <- !app_comm_cons, <- !app_assoc.
      rewrite <- app_comm_cons. now apply annotation_exec.
  - intros u1 y u2 p' ->.
    destruct (exec_at re_annotation p' _) as [[r c]|] eqn:E; [|reflexivity].
    exfalso. apply annotation_needs_open in E as (w & X & E & Hw).
    assert (Hsp : forallb is_space ((y :: u2) ++ ws) = true).
    { rewrite (first_occurrence 40%N ((y :: u2) ++ ws) w
                 (ann ++ 41%N :: ws' ++ rest) X); [exact Hw| | |].
      - intros Hin. apply in_app_or in Hin as [Hin|Hin].
        + apply Hopen. apply in_or_app. right. exact Hin.
        + apply space_is_space in Hws. now apply (space_not_open ws).
      - now apply space_not_open.
      - rewrite <- E, <- !app_assoc, <- !app_comm_cons. reflexivity. }
    rewrite forallb_app in Hsp. apply andb_true_iff in Hsp as [Hsp _].
    unfold ends_free in Hend.
    destruct (last (u1 ++ y :: u2)) as [z|] eqn:El.
    + rewrite in_space_is_space in Hend.
      rewrite (last_space u1 y u2 z Hsp El) in Hend. discriminate.
    + apply last_None in El. now destruct u1.
Qed.

Lemma annotation_absent ret :
  ~ In 40%N ret -> replace re_annotation [] ret = ret.
Proof.
  intros H. apply replace_go_no_match. intros p u v ->.
  destruct (exec_at re_annotation p v) as [[r c]|] eqn:E; [|reflexivity].
  exfalso. apply annotation_needs_open in E as (w & X & -> & _).
  apply H. apply in_or_app. right. apply in_or_app. right. now left.
Qed.

(** C8, as stated, fails: the code removes the first parenthesised text
    of the return type, not a trailing annotation. *)
Lemma method_return_type_counterexample :
  methodMatch (str "`int (a) (b)` **f**()") =
    Some (MethodRec (str "int(b)") (str "**f**()"))
  /\ spec_return_type (str "int (a) (b)") = str "int (a)"
  /\ cleanReturnType (str "int (a) (b)") <> spec_return_type (str "int (a) (b)").
Proof.
  split; [vm_compute; reflexivity|]. split; [vm_compute; reflexivity|].
  vm_compute. discriminate.
Qed.

(** C8, amended.  Every line of the Method Descriptions section that
    matches the method pattern gives one row, in order; the row shows the
    return type cleaned and the signature made of the bold name and the
    parameter text of the line, verbatim.  The cleaned return type is the
    backticked text with its first parenthesised part removed together with
    the white space around it, then trimmed, and void when nothing is left:
    a text without parenthesis is only trimmed, and a text with one
    annotation at its end loses the annotation.  The line of the scenario
    yields exactly the row of the scenario. *)
Theorem extractMethodsTable_rows (lns : list jsstr) (i d : nat) :
  find_heading h_method_descriptions (drop i lns) i = Some d ->
  let section := section_of h_method_descriptions (drop (d + 1) lns) in
  let records := omap (fun l => methodMatch (trim l)) section in
  records <> [] ->
  extractMethodsTable lns i =
    Some (unlines (method_header :: map method_row records))
  /\ Forall2 (fun l r =>
                exists ret name params,
                  method_layout (trim l) ret name params
                  /\ method_row r =
                     str "| " ++ cleanReturnType ret ++ str " | **" ++ name
                     ++ str "**(" ++ params ++ str ") |")
             (List.filter
                (fun l => bool_decide (is_Some (methodMatch (trim l))))
                section)
             records
  /\ (forall ret, ~ In 40%N ret -> cleanReturnType ret = or_void (trim ret))
  /\ (forall base ws ann ws' rest,
        ~ In 40%N base -> ends_free space base ->
        forallb (in_cset space) ws = true ->
        forallb (in_cset Dot) ann = true -> ~ In 41%N ann ->
        forallb (in_cset space) ws' = true -> starts_free space rest ->
        cleanReturnType (base ++ ws ++ str "(" ++ ann ++ str ")" ++ ws' ++ rest) =
        or_void (trim (base ++ rest)))
  /\ (methodMatch
        (str "`void (No return value.)` **apply_scale**(ratio: Vector2)") =
        Some (MethodRec (str "void") (str "**apply_scale**(ratio: Vector2)"))
      /\ method_row (MethodRec (str "void")
                               (str "**apply_scale**(ratio: Vector2)")) =
         str "| void | **apply_scale**(ratio: Vector2) |").
Proof.
  intros Hd section records Hne.
  split; [|split; [|split; [|split; [|split]]]].
  - unfold extractMethodsTable. rewrite Hd, parse_methods_section.
    fold section. fold records. now destruct records.
  - eapply Forall2_impl; [apply omap_Forall2|].
    intros l r H. simpl in H.
    apply methodMatch_layout in H as (ret & name & params & Hl & Hr & Hs).
    exists ret, name, params. split; [exact Hl|].
    unfold method_row. rewrite Hr, Hs.
    rewrite <- !app_assoc. reflexivity.
  - intros ret H. unfold cleanReturnType. now rewrite annotation_absent.
  - intros base ws ann ws' rest H1 H2 H3 H4 H5 H6 H7. unfold cleanReturnType.
    change (str "(" ++ ann ++ str ")" ++ ws' ++ rest)
      with (40%N :: ann ++ 41%N :: ws' ++ rest).
    now rewrite annotation_replace.
  - vm_compute. reflexivity.
  - vm_compute. reflexivity.
Qed.

Lemma extractMethodsTable_rows_witness :
  extractMethodsTable
    [str "## Methods"; str "## Property Descriptions";
     str "## Method Descriptions";
     str "`void (No return value.)` **apply_scale**(ratio: Vector2)";
     str "Multiplies the scale."; str "`Transform2D` **get_transform**()"] 0 =
  Some (unlines [method_header;
                 str "| void | **apply_scale**(ratio: Vector2) |";
                 str "| Transform2D | **get_transform**() |"]).
Proof.
  apply (extractMethodsTable_rows
           [str "## Methods"; str "## Property Descriptions";
            str "## Method Descriptions";
            str "`void (No return value.)` **apply_scale**(ratio: Vector2)";
            str "Multiplies the scale."; str "`Transform2D` **get_transform**()"]
           0 2).
  - vm_compute. reflexivity.
  - vm_compute. discriminate.
Defined.
(** ** Further properties of the language tab filter *)

Section FilterFrame.

Variable lang : language.

Lemma filter_loop_is_sublist st ls : sublist (filter_loop lang st ls) ls.
Proof.
  revert st. induction ls as [|l ls IH]; intros st; [constructor|].
  rewrite filter_loop_cons.
  destruct (filter_step_out lang st l) as [E|E]; rewrite E; simpl.
  - apply sublist_skip, IH.
  - apply sublist_cons, IH.
Qed.

Lemma filter_loop_no_tabs ls : forall st,
  insideTabsBlock st = false ->
  forallb (fun l => negb (is_tabs_directive l)) ls = true ->
  filter_loop lang st ls = ls.
Proof.
  induction ls as [|l ls IH]; intros st Hs H; [reflexivity|].
  cbn [forallb] in H. apply andb_true_iff in H as [Hl H].
  apply negb_true_iff in Hl.
  rewrite filter_loop_cons, filter_step_outside by assumption.
  simpl. f_equal. now apply IH.
Qed.

(** Without a code tab both tab flags stay off, and every line is pushed. *)
Lemma filter_step_no_code_tab st l :
  insideTargetCodeTab st = false -> insideOtherCodeTab st = false ->
  is_code_tab l = false ->
  snd (filter_step lang st l) = [l]
  /\ insideTargetCodeTab (fst (filter_step lang st l)) = false
  /\ insideOtherCodeTab (fst (filter_step lang st l)) = false.
Proof.
  unfold is_code_tab, is_tabs_directive, filter_step.
  destruct st as [b t o d]. cbn [insideTabsBlock insideTargetCodeTab
    insideOtherCodeTab tabsDepth]. intros -> -> H.
  destruct (eqb_str (trim l) tabs_directive); [now simpl|].
  simpl in H. rewrite H.
  destruct b; [|now simpl].
  destruct (_ && _); now simpl.
Qed.

Lemma filter_loop_no_code_tab ls : forall st,
  insideTargetCodeTab st = false -> insideOtherCodeTab st = false ->
  forallb (fun l => negb (is_code_tab l)) ls = true ->
  filter_loop lang st ls = ls.
Proof.
  induction ls as [|l ls IH]; intros st Ht Ho H; [reflexivity|].
  cbn [forallb] in H. apply andb_true_iff in H as [Hl H].
  apply negb_true_iff in Hl.
  destruct (filter_step_no_code_tab st l Ht Ho Hl) as (E & Ht' & Ho').
  rewrite filter_loop_cons, E. simpl. f_equal. now apply IH.
Qed.

(** A second pass reads the lines that the first pass pushed: it is in the
    same tabs block at the same depth, with both tab flags off. *)
Lemma filter_step_again st st' l :
  insideTabsBlock st' = insideTabsBlock st -> tabsDepth st' = tabsDepth st ->
  insideTargetCodeTab st' = false -> insideOtherCodeTab st' = false ->
  match snd (filter_step lang st l) with
  | [] =>
      insideTabsBlock st' = insideTabsBlock (fst (filter_step lang st l))
      /\ tabsDepth st' = tabsDepth (fst (filter_step lang st l))
  | _ =>
      snd (filter_step lang st' l) = snd (filter_step lang st l)
      /\ insideTabsBlock (fst (filter_step lang st' l)) =
         insideTabsBlock (fst (filter_step lang st l))
      /\ tabsDepth (fst (filter_step lang st' l)) =
         tabsDepth (fst (filter_step lang st l))
      /\ insideTargetCodeTab (fst (filter_step lang st' l)) = false
      /\ insideOtherCodeTab (fst (filter_step lang st' l)) = false
  end.
Proof.
  destruct st as [b t o d], st' as [b' t' o' d'].
  cbn [insideTabsBlock insideTargetCodeTab insideOtherCodeTab tabsDepth].
  intros -> -> -> ->. unfold filter_step.
  cbn [insideTabsBlock insideTargetCodeTab insideOtherCodeTab tabsDepth].
  destruct (eqb_str (trim l) tabs_directive); [now simpl|].
  destruct b; [|now simpl].
  destruct (_ && _); [now simpl|].
  destruct (startsWith (trim l) code_tab_prefix).
  - destruct (includes _ _); now simpl.
  - destruct t; [now simpl|]. destruct o; now simpl.
Qed.

Lemma filter_loop_again ls : forall st st',
  insideTabsBlock st' = insideTabsBlock st -> tabsDepth st' = tabsDepth st ->
  insideTargetCodeTab st' = false -> insideOtherCodeTab st' = false ->
  filter_loop lang st' (filter_loop lang st ls) = filter_loop lang st ls.
Proof.
  induction ls as [|l ls IH]; intros st st' Hb Hd Ht Ho; [reflexivity|].
  rewrite (filter_loop_cons lang st).
  pose proof (filter_step_again st st' l Hb Hd Ht Ho) as H.
  destruct (filter_step_out lang st l) as [E|E]; rewrite E in H |- *.
  - destruct H as (E' & Hb' & Hd' & Ht' & Ho').
    cbn [app]. rewrite filter_loop_cons, E'. cbn [app]. f_equal.
    now apply IH.
  - destruct H as (Hb' & Hd'). cbn [app]. now apply IH.
Qed.

End FilterFrame.

(** X1. The filter only deletes whole lines: the lines of the output are, in
    order, lines of the input; no line is edited, added or moved. *)
Theorem filterByLanguage_deletes_lines (lang : language) (x : jsstr) :
  sublist (lines (filterByLanguage lang x)) (lines x).
Proof.
  destruct lang; [| |reflexivity];
    (rewrite lines_filterByLanguage by discriminate;
     apply filter_loop_is_sublist).
Qed.

(** X2. A text without a tabs directive line, or without a code-tab directive
    line, is returned unchanged, whatever the language. *)
Theorem filterByLanguage_without_tabs (lang : language) (x : jsstr) :
  forallb (fun l => negb (is_tabs_directive l)) (lines x)
  || forallb (fun l => negb (is_code_tab l)) (lines x) = true ->
  filterByLanguage lang x = x.
Proof.
  intros H. destruct lang; [| |reflexivity]; unfold filterByLanguage;
    (apply orb_true_iff in H as [H|H];
     [rewrite filter_loop_no_tabs by (reflexivity || exact H)
     |rewrite filter_loop_no_code_tab by (reflexivity || exact H)];
     apply unlines_lines).
Qed.

Lemma filterByLanguage_without_tabs_witness :
  filterByLanguage csharp
    (unlines [str "Title"; str ".. tabs::"; str "  body"; str "end"]) =
  unlines [str "Title"; str ".. tabs::"; str "  body"; str "end"].
Proof.
  apply (filterByLanguage_without_tabs csharp). vm_compute. reflexivity.
Defined.

(** X3. The filter is idempotent: filtering a filtered text for the same
    language changes nothing. *)
Theorem filterByLanguage_idempotent (lang : language) (x : jsstr) :
  filterByLanguage lang (filterByLanguage lang x) = filterByLanguage lang x.
Proof.
  destruct lang; [| |reflexivity]; unfold filterByLanguage;
    (rewrite lines_filter_loop; f_equal;
     now apply filter_loop_again).
Qed.

(** X4. The csharp filter on well-formed tabs blocks: for a document made
    of text without tabs directives followed by well-formed tabs blocks,
    it returns the document with every code-tab directive removed, the
    content of every code tab whose directive names csharp kept verbatim
    and in order, and the content of every other code tab removed. *)
Theorem filterByLanguage_csharp_blocks (pre : list jsstr)
    (blocks : list tabblock) :
  forallb (fun l => negb (is_tabs_directive l)) pre = true ->
  forallb no_lf pre = true ->
  forallb wf_block blocks = true ->
  filterByLanguage csharp (unlines (pre ++ flat_map block_lines blocks)) =
  unlines (pre ++ flat_map (block_selected (str "csharp")) blocks).
Proof.
  intros Hp Hn Hb. unfold filterByLanguage.
  destruct (pre ++ flat_map block_lines blocks) as [|l ls] eqn:E.
  - apply app_eq_nil in E as [-> E]. destruct blocks as [|b blocks];
      [reflexivity|discriminate].
  - rewrite lines_unlines.
    + rewrite <- E. now rewrite document_law.
    + discriminate.
    + rewrite <- E. apply Forall_app. split.
      * apply List.Forall_forall. rewrite forallb_forall in Hn. exact Hn.
      * now apply block_lines_no_lf.
Qed.

Lemma filterByLanguage_csharp_blocks_witness :
  filterByLanguage csharp
    (unlines ([str "Intro"] ++
              flat_map block_lines
                [TabBlock (str ".. tabs::")
                          [(str " .. code-tab:: gdscript", [str "  var a = 1"]);
                           (str " .. code-tab:: csharp", [str "  int a = 1;"; []])]
                          [str "Outro"]])) =
  unlines [str "Intro"; str ".. tabs::"; str "  int a = 1;"; []; str "Outro"].
Proof.
  apply (filterByLanguage_csharp_blocks [str "Intro"]); reflexivity.
Defined.
(** ** Further properties of the table reconstructor *)

Lemma padded_sublist xs ys : padded xs ys -> sublist xs ys.
Proof.
  induction 1; [constructor|now apply sublist_skip|now apply sublist_cons].
Qed.

Lemma lines_reconstructTables content :
  lines (reconstructTables content) =
  flat_map lines (reconstruct_from (lines content)).
Proof.
  rewrite reconstructTables_from. apply lines_unlines_flat.
  apply reconstruct_from_nonempty, split_nonempty.
Qed.

Lemma after_heading_absent h ls :
  forallb (fun l => negb (eqb_str (trim l) h)) ls = true ->
  after_heading h ls = None.
Proof.
  induction ls as [|l ls IH]; [reflexivity|]. cbn [forallb after_heading].
  intros H. apply andb_true_iff in H as [Hl H].
  apply negb_true_iff in Hl. rewrite Hl. now apply IH.
Qed.

Lemma next_is_absent h l rest :
  forallb (fun l => negb (eqb_str (trim l) h)) (l :: rest) = true ->
  next_is h rest = false.
Proof.
  destruct rest as [|l' rest]; [reflexivity|]. cbn [forallb next_is].
  intros H. apply andb_true_iff in H as [_ H].
  apply andb_true_iff in H as [H _]. now apply negb_true_iff in H.
Qed.

Lemma reconstruct_from_absent ls :
  forallb (fun l => negb (eqb_str (trim l) h_property_descriptions)) ls = true ->
  reconstruct_from ls = ls.
Proof.
  induction ls as [|l rest IH]; [reflexivity|]. intros H.
  cbn [reconstruct_from]. unfold inserted_from, properties_table_from.
  rewrite (after_heading_absent _ _ H), (next_is_absent _ _ _ H).
  rewrite andb_false_r. cbn [push_table]. destruct (_ && _); cbn [app].
  - f_equal. apply IH. cbn [forallb] in H. now apply andb_true_iff in H as [_ H].
  - f_equal. apply IH. cbn [forallb] in H. now apply andb_true_iff in H as [_ H].
Qed.

(** X5. The table reconstruction only adds lines: every line of its input
    is a line of its output, in the same order and unchanged, and every
    line that it adds is passed over by a later reconstruction (it is no
    second-level heading and no declaration). *)
Theorem reconstructTables_keeps_lines (content : jsstr) :
  sublist (lines content) (lines (reconstructTables content))
  /\ padded (lines content) (lines (reconstructTables content)).
Proof.
  assert (H : padded (lines content) (lines (reconstructTables content))).
  { rewrite lines_reconstructTables. apply flat_lines_padded, lines_no_lf. }
  split; [now apply padded_sublist|exact H].
Qed.

(** X6. A text none of whose lines is the Property Descriptions heading is
    returned unchanged: no Properties table can be built for it, and no
    Methods table either, since the Methods section counts as empty only
    when the Property Descriptions heading follows it. *)
Theorem reconstructTables_without_descriptions (content : jsstr) :
  forallb (fun l => negb (eqb_str (trim l) h_property_descriptions))
          (lines content) = true ->
  reconstructTables content = content.
Proof.
  intros H. rewrite reconstructTables_from, reconstruct_from_absent by exact H.
  apply unlines_lines.
Qed.

Lemma reconstructTables_without_descriptions_witness :
  let doc := unlines [str "## Properties"; str "## Methods";
                      str "## Method Descriptions";
                      str "`void` **queue_free**()"] in
  reconstructTables doc = doc.
Proof.
  apply (reconstructTables_without_descriptions
           (unlines [str "## Properties"; str "## Methods";
                     str "## Method Descriptions";
                     str "`void` **queue_free**()"])).
  vm_compute. reflexivity.
Defined.
(** ** Which lines are declarations *)

Section Recognition.

Lemma take_len_prefix (w b : jsstr) :
  take (length (w ++ b) - length b) (w ++ b) = w.
Proof.
  rewrite length_app. replace (length w + length b - length b) with (length w)
    by lia.
  now rewrite take_app_length.
Qed.

Lemma absent_forallb (a : N) (w : jsstr) :
  ~ In a w -> forallb (in_cset (Class true [IChar a])) w = true.
Proof.
  intros H. apply forallb_forall. intros x Hx. simpl.
  destruct (N.eqb_spec a x) as [->|]; [contradiction|reflexivity].
Qed.

Lemma spaces_forallb (w : jsstr) :
  forallb is_space w = true -> forallb (in_cset space) w = true.
Proof.
  intros H. apply forallb_forall. intros x Hx. rewrite in_space_is_space.
  rewrite forallb_forall in H. now apply H.
Qed.

Lemma words_forallb (w : jsstr) :
  forallb is_word w = true -> forallb (in_cset word) w = true.
Proof.
  intros H. apply forallb_forall. intros x Hx. simpl. rewrite orb_false_r.
  rewrite forallb_forall in H. now apply H.
Qed.

Lemma nonempty_length {A} (w : list A) : w <> [] -> 1 <= length w.
Proof. destruct w; [congruence|simpl; lia]. Qed.

Lemma exec_at_method ret ws n0 ns ws' params tail :
  ret <> [] -> ~ In 96%N ret ->
  ws <> [] -> forallb is_space ws = true -> forallb is_space ws' = true ->
  in_cset ident_start n0 = true -> forallb (in_cset ident_char) ns = true ->
  ~ In 41%N params ->
  exec_at re_method None
    (96%N :: ret ++ 96%N :: ws ++ 42%N :: 42%N :: (n0 :: ns)
     ++ 42%N :: 42%N :: ws' ++ 40%N :: params ++ 41%N :: tail) =
  Some (tail, [(3, params); (2, n0 :: ns); (1, ret)]).
Proof.
  intros Hret Hq Hws Hsp Hsp' Hn0 Hns Hpar. unfold exec_at.
  let r := eval vm_compute in (pattern re_method) in
  change (pattern re_method) with r.
  cbn [mt flag_m re_method at_bol plain].
  change (96 =? 96)%N with true. cbn iota.
  apply quant_greedy_first;
    [now apply absent_forallb|reflexivity|now apply nonempty_length|].
  cbn beta. rewrite take_len_prefix.
  cbn [mt]. change (96 =? 96)%N with true. cbn iota.
  apply quant_greedy_first;
    [now apply spaces_forallb|reflexivity|now apply nonempty_length|].
  cbn [mt]. change (42 =? 42)%N with true. cbn iota.
  rewrite <- app_comm_cons. cbn [mt].
  change (in_cset (Class false [IRange 97 122; IRange 65 90; IChar 95]) n0)
    with (in_cset ident_start n0).
  rewrite Hn0.
  apply quant_greedy_first; [exact Hns|reflexivity|lia|].
  cbn beta.
  change (n0 :: ns ++ 42%N :: 42%N :: ws' ++ 40%N :: params ++ 41%N :: tail)
    with ((n0 :: ns) ++ 42%N :: 42%N :: ws' ++ 40%N :: params ++ 41%N :: tail).
  rewrite take_len_prefix.
  cbn [mt]. change (42 =? 42)%N with true. cbn iota.
  apply quant_greedy_first; [now apply spaces_forallb|reflexivity|lia|].
  cbn [mt]. change (40 =? 40)%N with true. cbn iota.
  apply quant_greedy_first; [now apply absent_forallb|reflexivity|lia|].
  cbn beta. rewrite take_len_prefix.
  cbn [mt]. change (41 =? 41)%N with true. cbn iota.
  reflexivity.
Qed.

Lemma space_not_word c : is_space c = true -> is_word c = false.
Proof.
  intros H. destruct (is_word c) eqn:E; [|reflexivity].
  unfold is_space, is_word, is_digit, is_line_terminator in *.
  rewrite ?orb_true_iff, ?andb_true_iff, ?N.eqb_eq, ?N.leb_le in *. lia.
Qed.

Lemma space_not_digit c : is_space c = true -> is_digit c = false.
Proof.
  intros H. destruct (is_digit c) eqn:E; [|reflexivity].
  unfold is_space, is_digit, is_line_terminator in *.
  rewrite ?orb_true_iff, ?andb_true_iff, ?N.eqb_eq, ?N.leb_le in *. lia.
Qed.

Lemma quant_fails g cs lo hi p x t c (k : cont) :
  in_cset cs x = false -> quant g cs (S lo) hi p (x :: t) c k = None.
Proof. intros H. cbn [quant]. rewrite H. now rewrite andb_false_r. Qed.

(** The part of the property pattern before the optional default. *)
Lemma property_prefix (R : regex) type s0 ws n0 ns tail res :
  type <> [] -> forallb is_word type = true ->
  forallb is_space (s0 :: ws) = true ->
  in_cset ident_start n0 = true -> forallb (in_cset ident_char) ns = true ->
  mt false R (Some 42%N) tail [(2, n0 :: ns); (1, type)] accept = Some res ->
  mt false
     (cat [Bol;
           Group 1 (Seq (plus word)
                        (Opt (Seq (plus digit) (Opt (Char (ch "D"))))));
           plus space; lit "**";
           Group 2 (Seq (Set_ ident_start) (star ident_char));
           lit "**"; R])
     None
     (type ++ (s0 :: ws) ++ 42%N :: 42%N :: (n0 :: ns) ++ 42%N :: 42%N :: tail)
     [] accept = Some res.
Proof.
  intros Ht Hw Hsp Hn0 Hns HR.
  pose proof Hsp as Hsp0. cbn [forallb] in Hsp0.
  apply andb_true_iff in Hsp0 as [Hs0 _].
  let r := eval vm_compute in (lit "**") in change (lit "**") with r.
  unfold plus, star. cbn [cat mt at_bol].
  apply quant_greedy_first;
    [now apply words_forallb| |now apply nonempty_length|].
  { cbn [app starts_free]. simpl. rewrite orb_false_r.
    now apply space_not_word. }
  assert (Hd : in_cset digit s0 = false).
  { simpl. rewrite orb_false_r. now apply space_not_digit. }
  cbn beta. cbn [app]. rewrite quant_fails by exact Hd.
  match goal with
  | |- context [take (length ?s - length ?b) ?s] =>
      change (take (length s - length b) s)
        with (take (length (type ++ b) - length b) (type ++ b))
  end.
  rewrite take_len_prefix.
  apply (quant_greedy_first space (s0 :: ws));
    [now apply spaces_forallb|reflexivity|simpl; lia|].
  cbn beta iota. change (42 =? 42)%N with true. cbn iota. rewrite Hn0.
  apply quant_greedy_first; [exact Hns|reflexivity|lia|].
  cbn beta iota. change (42 =? 42)%N with true. cbn iota.
  change (n0 :: ns ++ 42%N :: 42%N :: tail)
    with ((n0 :: ns) ++ 42%N :: 42%N :: tail).
  rewrite take_len_prefix.
  exact HR.
Qed.

Local Abbreviation default_part :=
  (cat [star space; lit "="; star space; lit "`";
        Group 3 (plus (no "`")); lit "`"]).

(** The optional default, when the text has one. *)
Lemma default_present p c ws1 ws2 v rest :
  forallb is_space ws1 = true -> forallb is_space ws2 = true ->
  v <> [] -> ~ In 96%N v ->
  mt false default_part p (ws1 ++ 61%N :: ws2 ++ 96%N :: v ++ 96%N :: rest)
     c accept = Some (rest, (3, v) :: c).
Proof.
  intros H1 H2 Hv Hq.
  let r := eval vm_compute in default_part in change default_part with r.
  cbn [mt].
  apply quant_greedy_first; [now apply spaces_forallb|reflexivity|lia|].
  cbn [mt]. change (61 =? 61)%N with true. cbn iota.
  apply quant_greedy_first; [now apply spaces_forallb|reflexivity|lia|].
  cbn [mt]. change (96 =? 96)%N with true. cbn iota.
  apply quant_greedy_first;
    [now apply absent_forallb|reflexivity|now apply nonempty_length|].
  cbn beta. rewrite take_len_prefix.
  cbn [mt]. change (96 =? 96)%N with true. cbn iota. reflexivity.
Qed.

(** The optional default binds the third group only, and needs an equals
    sign and a backtick. *)
Lemma default_sound p c tail rest c' :
  mt false default_part p tail c accept = Some (rest, c') ->
  (exists v, c' = (3, v) :: c) /\ In 61%N tail /\ In 96%N tail.
Proof.
  intros H. apply mt_sound in H as (p' & s' & c'' & HM & Hk).
  injection Hk as <- <-.
  cbv [cat lit plus star fold_right list_ascii_of_string ch N_of_ascii
       N_of_digits] in HM.
  simpl in HM. invM.
  split; [eauto|]. split.
  - apply in_or_app. right. now left.
  - apply in_or_app. right. right. apply in_or_app. right. now left.
Qed.

Lemma search_first re s rest c :
  exec_at re None s = Some (rest, c) ->
  search re s = Some (take (length s - length rest) s, c).
Proof. intros H. unfold search. destruct s; simpl; now rewrite H. Qed.

Lemma property_exec type s0 ws n0 ns tail :
  type <> [] -> forallb is_word type = true ->
  forallb is_space (s0 :: ws) = true ->
  in_cset ident_start n0 = true -> forallb (in_cset ident_char) ns = true ->
  forall res,
    mt false (Opt default_part) (Some 42%N) tail [(2, n0 :: ns); (1, type)]
       accept = Some res ->
    exec_at re_property None
      (type ++ (s0 :: ws) ++ 42%N :: 42%N :: (n0 :: ns)
       ++ 42%N :: 42%N :: tail) = Some res.
Proof.
  intros Ht Hw Hsp Hn0 Hns res HR.
  now apply (property_prefix (Opt default_part)).
Qed.

End Recognition.

(** X7. Which lines are property declarations.  A line that begins with a
    run of word characters, white space and a bold identifier is a
    declaration with that type and that name, whatever follows.  When an
    equals sign and a backticked text follow the name, that text is the
    default; when what follows has no equals sign or no backtick, there is
    no default. *)
Theorem propertyMatch_recognizes (type ws name tail : jsstr) :
  type <> [] -> forallb is_word type = true ->
  ws <> [] -> forallb is_space ws = true ->
  is_identifier name = true ->
  let line := type ++ ws ++ str "**" ++ name ++ str "**" ++ tail in
  (exists d, propertyMatch line = Some (PropertyRec type name d))
  /\ (forall ws1 ws2 v rest,
        tail = ws1 ++ str "=" ++ ws2 ++ str "`" ++ v ++ str "`" ++ rest ->
        forallb is_space ws1 = true -> forallb is_space ws2 = true ->
        v <> [] -> ~ In (ch "`") v ->
        propertyMatch line = Some (PropertyRec type name (Some v)))
  /\ (~ In (ch "=") tail \/ ~ In (ch "`") tail ->
      propertyMatch line = Some (PropertyRec type name None)).
Proof.
  intros Ht Hw Hws Hsp Hid line.
  destruct ws as [|s0 ws]; [congruence|].
  destruct name as [|n0 ns]; [discriminate|].
  cbn [is_identifier] in Hid. apply andb_true_iff in Hid as [Hn0 Hns].
  assert (Hx : forall rest c,
             mt false (Opt (cat [star space; lit "="; star space; lit "`";
                                 Group 3 (plus (no "`")); lit "`"]))
                (Some 42%N) tail [(2, n0 :: ns); (1, type)] accept
             = Some (rest, c) ->
             propertyMatch line =
             Some (PropertyRec (default [] (cap 1 c)) (default [] (cap 2 c))
                               (cap 3 c))).
  { intros rest c H. unfold propertyMatch.
    rewrite (search_first re_property line rest c); [reflexivity|].
    now apply (property_exec type s0 ws n0 ns tail). }
  split; [|split].
  - cbn [mt] in Hx.
    destruct (mt false _ (Some 42%N) tail [(2, n0 :: ns); (1, type)] accept)
      as [[rest c]|] eqn:E.
    + apply default_sound in E as ([v ->] & _).
      eexists. rewrite (Hx _ _ eq_refl). reflexivity.
    + eexists. rewrite (Hx _ _ eq_refl). reflexivity.
  - intros ws1 ws2 v rest -> H1 H2 Hv Hq.
    rewrite (Hx rest ((3, v) :: [(2, n0 :: ns); (1, type)])); [reflexivity|].
    cbn [mt].
    change (ws1 ++ str "=" ++ ws2 ++ str "`" ++ v ++ str "`" ++ rest)
      with (ws1 ++ 61%N :: ws2 ++ 96%N :: v ++ 96%N :: rest).
    now rewrite default_present.
  - intros Habs. cbn [mt] in Hx.
    destruct (mt false _ (Some 42%N) tail [(2, n0 :: ns); (1, type)] accept)
      as [[rest c]|] eqn:E.
    + apply default_sound in E as (_ & He & Hb).
      destruct Habs as [Habs|Habs]; now destruct Habs.
    + rewrite (Hx _ _ eq_refl). reflexivity.
Qed.

Lemma propertyMatch_recognizes_witness :
  propertyMatch (str "Vector2" ++ str " " ++ str "**" ++ str "position"
                 ++ str "**" ++ str " = `Vector2(0, 0)` more") =
  Some (PropertyRec (str "Vector2") (str "position")
                    (Some (str "Vector2(0, 0)"))).
Proof.
  apply (propertyMatch_recognizes (str "Vector2") (str " ") (str "position")
           (str " = `Vector2(0, 0)` more"))
    with (ws1 := str " ") (ws2 := str " ") (v := str "Vector2(0, 0)")
         (rest := str " more");
    try reflexivity; try discriminate.
  vm_compute. intuition discriminate.
Defined.

(** X8. Which lines are method declarations.  A line made of a backticked
    return type, white space, a bold identifier, optional white space and
    a parenthesised parameter text is a declaration, whatever follows: its
    record has the cleaned return type and the signature made of the bold
    name and the parameter text. *)
Theorem methodMatch_recognizes (ret ws name ws' params tail : jsstr) :
  ret <> [] -> ~ In (ch "`") ret ->
  ws <> [] -> forallb is_space ws = true -> forallb is_space ws' = true ->
  is_identifier name = true -> ~ In (ch ")") params ->
  methodMatch (str "`" ++ ret ++ str "`" ++ ws ++ str "**" ++ name
               ++ str "**" ++ ws' ++ str "(" ++ params ++ str ")" ++ tail) =
  Some (MethodRec (cleanReturnType ret)
                  (str "**" ++ name ++ str "**(" ++ params ++ str ")")).
Proof.
  intros Hret Hq Hws Hsp Hsp' Hid Hpar.
  destruct name as [|n0 ns]; [discriminate|].
  cbn [is_identifier] in Hid. apply andb_true_iff in Hid as [Hn0 Hns].
  unfold methodMatch.
  rewrite (search_first re_method _ tail
             [(3, params); (2, n0 :: ns); (1, ret)]); [reflexivity|].
  now apply (exec_at_method ret ws n0 ns ws' params tail).
Qed.

Lemma methodMatch_recognizes_witness :
  methodMatch (str "`" ++ str "void" ++ str "`" ++ str " " ++ str "**"
               ++ str "queue_free" ++ str "**" ++ [] ++ str "("
               ++ [] ++ str ")" ++ []) =
  Some (MethodRec (cleanReturnType (str "void")) (str "**queue_free**()")).
Proof.
  apply (methodMatch_recognizes (str "void") (str " ") (str "queue_free")
           [] [] []);
    try reflexivity; try discriminate; vm_compute; intuition discriminate.
Defined.
(** ** The image remover (removeImageReferences) *)

Section Deletion.

Variable re : regexp.

(** A replacement by the empty string only deletes units. *)
Lemma replace_go_deletes s : forall act p skip,
  sublist (replace_go re [] act p s skip) s.
Proof.
  induction s as [|x t IH]; intros act p skip.
  - destruct skip; simpl; [|constructor]. destruct act; [|constructor].
    destruct (exec_at re p []) as [[rest c]|]; constructor.
  - destruct skip; cbn [replace_go]; [|apply sublist_cons, IH].
    destruct act; [|reflexivity].
    destruct (exec_at re p (x :: t)) as [[rest c]|].
    + cbn [expand flat_map app].
      destruct (length (x :: t) - length rest);
        [apply sublist_skip, IH|apply sublist_cons, IH].
    + apply sublist_skip, IH.
Qed.

End Deletion.

Lemma apply_rules_deletes rules : forall s,
  Forall (fun r : rule => snd r = []) rules ->
  sublist (apply_rules rules s) s.
Proof.
  unfold apply_rules.
  induction rules as [|[re tpl] rules IH]; intros s H; [reflexivity|].
  inversion H as [|? ? Ht Hr]; subst. simpl in Ht. subst tpl.
  simpl. etransitivity; [apply IH, Hr|]. apply replace_go_deletes.
Qed.

Lemma existsb_absent c x : ~ In c x -> existsb (N.eqb c) x = false.
Proof.
  intros H. destruct (existsb (N.eqb c) x) eqn:E; [|reflexivity].
  apply existsb_exists in E as (y & Hy & Ey). apply N.eqb_eq in Ey.
  now subst.
Qed.

(** X9. removeImageReferences only deletes: its output is its input with
    some code units left out, none added, changed or moved; and a text
    with no opening square bracket and no colon has nothing to delete and
    is returned unchanged. *)
Theorem removeImageReferences_deletes (x : jsstr) :
  sublist (removeImageReferences x) x
  /\ (~ In (ch "[") x -> ~ In (ch ":") x -> removeImageReferences x = x).
Proof.
  split.
  - apply apply_rules_deletes. repeat constructor.
  - intros Hb Hc. unfold removeImageReferences.
    apply (apply_rules_dead x).
    + unfold rules_images. cbn [forallb fst pattern G GM cat lit
        list_ascii_of_string fold_right can_match].
      change (N_of_ascii "[") with (ch "[").
      change (N_of_ascii ":") with (ch ":").
      rewrite (existsb_absent _ _ Hb), (existsb_absent _ _ Hc).
      rewrite !andb_false_r. reflexivity.
    + apply List.Forall_forall. auto.
Qed.

Lemma removeImageReferences_deletes_witness :
  removeImageReferences (str "See the node (fig. 2) in the scene.") =
  str "See the node (fig. 2) in the scene.".
Proof.
  apply (removeImageReferences_deletes
           (str "See the node (fig. 2) in the scene."));
    vm_compute; intuition discriminate.
Defined.
(** ** The rule for horizontal white space *)

(** X10. The rule of line 407 rewrites every run of spaces and tabs to one
    space, and nothing else: a text without a tab and without two adjacent
    spaces is left as it is. *)
Theorem hspace_rule_collapses_runs (a w b : jsstr) :
  ends_free hspace_class a -> starts_free hspace_class b ->
  w <> [] -> forallb (in_cset hspace_class) w = true ->
  replace re_hspace [TLit (str " ")] (a ++ w ++ b) =
    replace re_hspace [TLit (str " ")] a ++ str " "
    ++ replace re_hspace [TLit (str " ")] b
  /\ forall s, no_space_run s = true -> Forall not_tab s ->
       replace re_hspace [TLit (str " ")] s = s.
Proof.
  intros Ha Hb Hw Hall. split.
  - unfold replace, re_hspace, plus.
    rewrite replace_go_run_split by (auto; lia). f_equal.
    rewrite replace_go_run_long; auto.
    destruct w; [congruence|simpl; lia].
  - intros s Hs Ht. now apply hspace_identity.
Qed.

Lemma hspace_rule_collapses_runs_witness :
  replace re_hspace [TLit (str " ")] (str "if a:" ++ [32; 9; 32]%N ++ str "b")
  = replace re_hspace [TLit (str " ")] (str "if a:") ++ str " "
    ++ replace re_hspace [TLit (str " ")] (str "b").
Proof.
  apply (hspace_rule_collapses_runs (str "if a:") [32; 9; 32]%N (str "b"));
    try reflexivity.
  discriminate.
Defined.
(** ** Further properties of the markup cleaner *)

Section TrimFacts.

Lemma trimStart_space x s : is_space x = true -> trimStart (x :: s) = trimStart s.
Proof. intros H. simpl. now rewrite H. Qed.

Lemma trimStart_head s x t : trimStart s = x :: t -> is_space x = false.
Proof.
  induction s as [|c s IH]; simpl; [discriminate|].
  destruct (is_space c) eqn:E; [exact IH|]. now intros [= <- _].
Qed.

Lemma trimStart_suffix s : exists a, s = a ++ trimStart s.
Proof.
  induction s as [|c s [a IH]]; [now exists []|]. simpl.
  destruct (is_space c); [|now exists []].
  exists (c :: a). simpl. now f_equal.
Qed.

Lemma trimStart_app_keep l w :
  trimStart l <> [] -> trimStart (l ++ w) = trimStart l ++ w.
Proof.
  induction l as [|c l IH]; simpl; [congruence|].
  destruct (is_space c); [exact IH|reflexivity].
Qed.

Lemma trimStart_all_space l : forallb is_space l = true -> trimStart l = [].
Proof.
  induction l as [|c l IH]; simpl; [reflexivity|].
  intros H. apply andb_true_iff in H as [-> H]. auto.
Qed.

Lemma trimEnd_snoc_space l x : is_space x = true -> trimEnd (l ++ [x]) = trimEnd l.
Proof.
  intros H. unfold trimEnd. rewrite rev_app_distr. simpl. now rewrite H.
Qed.

Lemma trimEnd_snoc_keep l x : is_space x = false -> trimEnd (l ++ [x]) = l ++ [x].
Proof.
  intros H. unfold trimEnd. rewrite rev_app_distr. simpl. rewrite H.
  simpl. now rewrite rev_involutive.
Qed.

Lemma trim_cons_space x l : is_space x = true -> trim (x :: l) = trim l.
Proof. intros H. unfold trim. now rewrite trimStart_space. Qed.

Lemma trim_snoc_space l x : is_space x = true -> trim (l ++ [x]) = trim l.
Proof.
  intros H. unfold trim. destruct (trimStart l) as [|y t] eqn:E.
  - rewrite trimStart_all_space; [reflexivity|].
    rewrite forallb_app. rewrite (trimStart_nil _ E). simpl. now rewrite H.
  - rewrite trimStart_app_keep by congruence. rewrite E.
    now apply trimEnd_snoc_space.
Qed.

(** A trimmed text is empty or has a first and a last unit that are no
    white space. *)
Lemma trim_ends s :
  trim s = []
  \/ exists x y w, (trim s = x :: w /\ is_space x = false)
                   /\ exists w', trim s = w' ++ [y] /\ is_space y = false.
Proof.
  unfold trim, trimEnd.
  destruct (trimStart (rev (trimStart s))) as [|y r] eqn:E; [now left|].
  right. pose proof (trimStart_head _ _ _ E) as Hy.
  destruct (trimStart_suffix (rev (trimStart s))) as [a Ha]. rewrite E in Ha.
  apply (f_equal (@rev N)) in Ha. rewrite rev_involutive in Ha.
  rewrite rev_app_distr in Ha.
  destruct (trimStart s) as [|x t] eqn:Es.
  - destruct (rev (y :: r)) eqn:Er; [|discriminate].
    apply (f_equal (@length N)) in Er. rewrite length_rev in Er. discriminate.
  - pose proof (trimStart_head _ _ _ Es) as Hx.
    destruct (rev (y :: r)) as [|x' w] eqn:Er.
    + apply (f_equal (@length N)) in Er. rewrite length_rev in Er. discriminate.
    + simpl in Ha. injection Ha as -> Ha.
      exists x', y, w. split; [split; [reflexivity|exact Hx]|].
      exists (rev r). split; [|exact Hy]. rewrite <- Er. reflexivity.
Qed.

Lemma trim_fixed x w w' y :
  is_space x = false -> is_space y = false -> x :: w = w' ++ [y] ->
  trim (x :: w) = x :: w.
Proof.
  intros Hx Hy E. unfold trim. simpl. rewrite Hx. rewrite E.
  now apply trimEnd_snoc_keep.
Qed.

Lemma trim_idempotent s : trim (trim s) = trim s.
Proof.
  destruct (trim_ends s) as [E|(x & y & w & [E Hx] & w' & E' & Hy)].
  - rewrite E. reflexivity.
  - rewrite E at 1 2. rewrite E in E'. now apply (trim_fixed x w w' y).
Qed.

End TrimFacts.

Section KeptLines.

Lemma keep_line_cons_space x l : is_space x = true -> keep_line (x :: l) = keep_line l.
Proof. intros H. unfold keep_line. now rewrite trim_cons_space. Qed.

Lemma keep_line_snoc_space l x : is_space x = true -> keep_line (l ++ [x]) = keep_line l.
Proof. intros H. unfold keep_line. now rewrite trim_snoc_space. Qed.

Lemma lines_cons x t :
  x <> LF -> exists l ls, lines t = l :: ls /\ lines (x :: t) = (x :: l) :: ls.
Proof.
  intros Hx. unfold lines. simpl. destruct (N.eqb_spec x LF); [contradiction|].
  pose proof (split_nonempty LF t) as Hn.
  destruct (split LF t) as [|l ls]; [congruence|]. eauto.
Qed.

Lemma lines_snoc t y :
  y <> LF ->
  exists init l, lines t = init ++ [l] /\ lines (t ++ [y]) = init ++ [l ++ [y]].
Proof.
  intros Hy. induction t as [|c t (init & l & E & E')].
  - exists [], []. unfold lines. simpl.
    destruct (N.eqb_spec y LF); [contradiction|]. split; reflexivity.
  - unfold lines in *. simpl. destruct (c =? LF)%N.
    + exists ([] :: init), l. rewrite E, E'. split; reflexivity.
    + rewrite E, E'. destruct init as [|i init]; simpl.
      * exists [], (c :: l). split; reflexivity.
      * exists ((c :: i) :: init), l. split; reflexivity.
Qed.

Lemma kept_lines_trimStart u :
  forallb keep_line (lines u) = true ->
  forallb keep_line (lines (trimStart u)) = true.
Proof.
  induction u as [|x t IH]; intros H; [exact H|]. simpl.
  destruct (is_space x) eqn:Ex; [|exact H]. apply IH.
  destruct (N.eq_dec x LF) as [->|Hx].
  - vm_compute in H. discriminate.
  - destruct (lines_cons x t Hx) as (l & ls & E & E'). rewrite E' in H.
    rewrite E. cbn [forallb] in *. now rewrite keep_line_cons_space in H.
Qed.

Lemma kept_lines_trimEnd u :
  forallb keep_line (lines u) = true ->
  forallb keep_line (lines (trimEnd u)) = true.
Proof.
  induction u as [|x t IH] using rev_ind; intros H; [exact H|].
  destruct (is_space x) eqn:Ex.
  - rewrite trimEnd_snoc_space by assumption. apply IH.
    destruct (N.eq_dec x LF) as [->|Hx].
    + unfold lines in H. rewrite split_app_sep, forallb_app in H.
      apply andb_true_iff in H as [_ H]. vm_compute in H. discriminate.
    + destruct (lines_snoc t x Hx) as (init & l & E & E'). rewrite E' in H.
      rewrite E. rewrite forallb_app in *. cbn [forallb] in *.
      now rewrite keep_line_snoc_space in H.
  - now rewrite trimEnd_snoc_keep.
Qed.

Lemma filter_forallb {A} (f : A -> bool) (l : list A) :
  forallb f (List.filter f l) = true.
Proof.
  induction l as [|x l IH]; [reflexivity|]. simpl.
  destruct (f x) eqn:E; [simpl; now rewrite E|exact IH].
Qed.

Lemma cleanup_before_tables_lines x :
  cleanup_before_tables x = []
  \/ forallb keep_line (lines (cleanup_before_tables x)) = true.
Proof.
  unfold cleanup_before_tables.
  set (c := apply_rules rules_post _).
  destruct (List.filter keep_line (lines c)) as [|l K] eqn:EK.
  - left. vm_compute. reflexivity.
  - right. rewrite <- EK.
    assert (HK : lines (unlines (List.filter keep_line (lines c))) =
                 List.filter keep_line (lines c)).
    { apply lines_unlines; [rewrite EK; discriminate|].
      apply filter_ok, lines_no_lf. }
    assert (Hk : forallb keep_line
                   (lines (unlines (List.filter keep_line (lines c)))) = true).
    { rewrite HK. apply filter_forallb. }
    rewrite (newlines_identity _ Hk).
    unfold trim. now apply kept_lines_trimEnd, kept_lines_trimStart.
Qed.

End KeptLines.

(** X11. Before the tables are reconstructed, the cleaned text has no blank
    line and no artifact line at all: it is empty, or every one of its
    lines passes the line filter of the cleaner.  So the output of
    cleanupForLLM has blank lines only around reconstructed tables; when
    the cleaned text has no pair of adjacent headings to put a table
    between, it is the output. *)
Theorem cleanupForLLM_no_blank_line (x : jsstr) :
  cleanupForLLM x = reconstructTables (cleanup_before_tables x)
  /\ (cleanup_before_tables x = []
      \/ forallb keep_line (lines (cleanup_before_tables x)) = true)
  /\ (no_pair (lines (cleanup_before_tables x)) = true ->
      cleanupForLLM x = cleanup_before_tables x).
Proof.
  split; [reflexivity|]. split; [apply cleanup_before_tables_lines|].
  intros H. change (cleanupForLLM x)
    with (reconstructTables (cleanup_before_tables x)).
  unfold reconstructTables. rewrite reconstruct_loop_identity by exact H.
  apply unlines_lines.
Qed.

Section TrimmedOutput.

Lemma reconstruct_from_last init l :
  exists pre, reconstruct_from (init ++ [l]) = pre ++ [l].
Proof.
  induction init as [|a init [pre IH]].
  - exists []. cbn [app reconstruct_from]. unfold inserted_from.
    cbn [next_is]. now rewrite !andb_false_r.
  - cbn [app reconstruct_from]. rewrite IH.
    exists (a :: inserted_from a (init ++ [l]) ++ pre).
    cbn [app]. now rewrite <- app_assoc.
Qed.

Lemma unlines_snoc pre l : exists w, unlines (pre ++ [l]) = w ++ l.
Proof.
  induction pre as [|a pre [w IH]]; [now exists []|].
  cbn [app]. unfold unlines in *.
  destruct (pre ++ [l]) as [|b r] eqn:E; [now destruct pre|].
  rewrite join_cons, IH. exists (a ++ nl ++ w). now rewrite <- !app_assoc.
Qed.

Lemma unlines_head x l ls : exists w, unlines ((x :: l) :: ls) = x :: w.
Proof.
  unfold unlines. destruct ls as [|l' ls]; [now exists l|].
  rewrite join_cons. now eexists.
Qed.

Lemma reconstructTables_trimmed t :
  trim t = t -> trim (reconstructTables t) = reconstructTables t.
Proof.
  intros Ht.
  destruct (trim_ends t) as [E|(x & y & w & [E Hx] & w' & E' & Hy)];
    rewrite Ht in *.
  - subst t. vm_compute. reflexivity.
  - rewrite reconstructTables_from.
    assert (Hxl : x <> LF) by (intros ->; discriminate).
    assert (Hyl : y <> LF) by (intros ->; discriminate).
    destruct (lines_snoc w' y Hyl) as (init & l & _ & El).
    rewrite <- E' in El.
    destruct (lines_cons x w Hxl) as (l1 & ls & _ & E1). rewrite <- E in E1.
    destruct (reconstruct_from_last init (l ++ [y])) as [pre Hpre].
    rewrite El, Hpre.
    destruct (unlines_snoc pre (l ++ [y])) as [u Hu]. rewrite Hu.
    assert (Hh : exists v, u ++ l ++ [y] = x :: v).
    { rewrite <- Hu, <- Hpre, <- El, E1. cbn [reconstruct_from].
      apply unlines_head. }
    destruct Hh as [v Hv]. rewrite Hv.
    apply (trim_fixed x v (u ++ l) y Hx Hy).
    rewrite <- Hv. now rewrite <- app_assoc.
Qed.

End TrimmedOutput.

(** X12. The output of cleanupForLLM has no leading and no trailing white
    space: trimming it changes nothing. *)
Theorem cleanupForLLM_trimmed (x : jsstr) :
  trim (cleanupForLLM x) = cleanupForLLM x.
Proof.
  change (cleanupForLLM x) with (reconstructTables (cleanup_before_tables x)).
  apply reconstructTables_trimmed. unfold cleanup_before_tables.
  apply trim_idempotent.
Qed.
(** *** Where the units of the output come from *)

Section Provenance.

Variable P : N -> Prop.
Hypothesis P_printable : forall c, printable c = true -> P c.
Hypothesis P_lf : P LF.

Lemma written_ok s :
  forallb (fun c => printable c || (c =? LF)%N) s = true -> Forall P s.
Proof.
  intros H. apply List.Forall_forall. intros c Hc.
  rewrite forallb_forall in H. specialize (H _ Hc).
  apply orb_true_iff in H as [H|H]; [now apply P_printable|].
  apply N.eqb_eq in H. now subst.
Qed.

Lemma rules_written_ok rules :
  forallb (fun r : rule =>
             forallb (fun t => match t with
                               | TLit s =>
                                   forallb (fun c => printable c || (c =? LF)%N) s
                               | TGroup _ => true
                               end) (snd r)) rules = true ->
  Forall (fun r : rule => tpl_ok P (snd r)) rules.
Proof.
  intros H. apply List.Forall_forall. intros r Hr.
  rewrite forallb_forall in H. specialize (H _ Hr).
  apply List.Forall_forall. intros t Ht.
  rewrite forallb_forall in H. specialize (H _ Ht).
  destruct t; [now apply written_ok|exact I].
Qed.

Lemma push_table_written (t : option jsstr) :
  (forall v, t = Some v -> Forall P v) -> Forall (Forall P) (push_table t).
Proof.
  intros H. destruct t as [[|x v]|]; simpl; try constructor.
  - constructor.
  - constructor; [now apply H|repeat constructor].
Qed.

Lemma properties_table_written suffix v :
  Forall (Forall P) suffix ->
  properties_table_from suffix = Some v -> Forall P v.
Proof.
  intros Hs. unfold properties_table_from.
  destruct (after_heading _ suffix) as [rest|] eqn:E; [|discriminate].
  pose proof (parse_properties_ok P P_printable rest
                (after_heading_Forall _ _ _ _ E Hs)) as Hp.
  destruct (parse_properties rest) as [|p ps]; [discriminate|].
  intros [= <-]. apply join_ok; [now apply written_ok|].
  constructor; [now apply written_ok|exact Hp].
Qed.

Lemma methods_table_written suffix v :
  Forall (Forall P) suffix ->
  methods_table_from suffix = Some v -> Forall P v.
Proof.
  intros Hs. unfold methods_table_from.
  destruct (after_heading _ suffix) as [rest|] eqn:E; [|discriminate].
  pose proof (parse_methods_ok P P_printable rest
                (after_heading_Forall _ _ _ _ E Hs)) as Hp.
  destruct (parse_methods rest) as [|p ps]; [discriminate|].
  intros [= <-]. apply join_ok; [now apply written_ok|].
  constructor; [now apply written_ok|exact Hp].
Qed.

Lemma reconstruct_from_written rest :
  Forall (Forall P) rest -> Forall (Forall P) (reconstruct_from rest).
Proof.
  induction 1 as [|l rest Hl Hr IH]; [constructor|].
  cbn [reconstruct_from]. constructor; [assumption|].
  apply Forall_app. split; [|exact IH]. unfold inserted_from.
  destruct (_ && _).
  - apply push_table_written. intros v.
    apply properties_table_written. now constructor.
  - destruct (_ && _); [|constructor].
    apply push_table_written. intros v.
    apply methods_table_written. now constructor.
Qed.

Lemma reconstructTables_written content :
  Forall P content -> Forall P (reconstructTables content).
Proof.
  intros H. rewrite reconstructTables_from. unfold unlines, lines.
  apply join_ok; [now apply written_ok|].
  now apply reconstruct_from_written, split_ok.
Qed.

Lemma cleanupForLLM_written x : Forall P x -> Forall P (cleanupForLLM x).
Proof.
  intros H. unfold cleanupForLLM.
  apply reconstructTables_written, trim_ok, replace_ok.
  { constructor; [now apply written_ok|constructor]. }
  unfold unlines, lines. apply join_ok; [now apply written_ok|].
  apply filter_ok, split_ok.
  apply apply_rules_ok; [apply rules_written_ok; vm_compute; reflexivity|].
  apply trim_ok.
  apply apply_rules_ok; [apply rules_written_ok; vm_compute; reflexivity|].
  unfold removeImageReferences.
  apply apply_rules_ok; [apply rules_written_ok; vm_compute; reflexivity|].
  exact H.
Qed.

End Provenance.

(** X13. The cleaner invents no character: every code unit of the output of
    cleanupForLLM occurs in the input, or is a line feed or printable
    ASCII (the text of the replacement templates and of the reconstructed
    tables).  So a carriage return, a control character or a non-ASCII
    unit is in the output only when it is in the input. *)
Theorem cleanupForLLM_units_from_input (x : jsstr) :
  Forall (from_input x) (cleanupForLLM x).
Proof.
  apply cleanupForLLM_written.
  - intros c Hc. right. now right.
  - right. now left.
  - apply List.Forall_forall. intros c Hc. now left.
Qed.
(** ** The line filter of the cleaner *)

Section GreedyBacktracking.

Variable cs : cset.

(** When the continuation fails after every longer run, a greedy
    quantifier that may stop here hands over here. *)
Lemma quant_greedy_stop w2 : forall p b c (k : cont),
  forallb (in_cset cs) w2 = true -> starts_free cs b ->
  (forall u v p', w2 = u ++ v -> u <> [] -> k p' (v ++ b) c = None) ->
  quant true cs 0 None p (w2 ++ b) c k = k p (w2 ++ b) c.
Proof.
  induction w2 as [|x w2 IH]; intros p b c k Hw Hb Hfail.
  - cbn [app]. destruct b as [|y b]; [reflexivity|]. cbn [quant].
    unfold starts_free in Hb. rewrite Hb. now rewrite andb_false_r.
  - cbn [forallb] in Hw. apply andb_true_iff in Hw as [Hx Hw].
    rewrite <- app_comm_cons. cbn [quant hi_allows hi_pred andb pred].
    rewrite Hx. rewrite IH; [|exact Hw|exact Hb|].
    + now rewrite (Hfail [x] w2 (Some x) eq_refl).
    + intros u v p' -> Hu. apply (Hfail (x :: u) v p'); [reflexivity|discriminate].
Qed.

(** A greedy quantifier gives back the end of its run when the
    continuation fails on every longer run. *)
Lemma quant_greedy_back w1 : forall w2 lo p b c (k : cont) res,
  forallb (in_cset cs) w1 = true -> forallb (in_cset cs) w2 = true ->
  starts_free cs b -> lo <= length w1 ->
  (forall u v p', w2 = u ++ v -> u <> [] -> k p' (v ++ b) c = None) ->
  k (last_unit p w1) (w2 ++ b) c = Some res ->
  quant true cs lo None p (w1 ++ w2 ++ b) c k = Some res.
Proof.
  induction w1 as [|x w1 IH]; intros w2 lo p b c k res H1 H2 Hb Hlo Hfail Hk.
  - simpl in Hlo. replace lo with 0 by lia. cbn [app].
    rewrite quant_greedy_stop by assumption. exact Hk.
  - cbn [forallb] in H1. apply andb_true_iff in H1 as [Hx H1].
    rewrite <- app_comm_cons. cbn [quant hi_allows hi_pred andb].
    rewrite Hx. rewrite (IH w2 (pred lo) (Some x) b c k res); auto.
    simpl in Hlo. lia.
Qed.

End GreedyBacktracking.

Section LineFilter.

Lemma test_anchored r t :
  test (plain (Seq Bol r)) t =
  match exec_at (plain (Seq Bol r)) None t with
  | Some _ => true
  | None => false
  end.
Proof.
  unfold test, search. destruct t as [|x t]; cbn [search_go].
  - destruct (exec_at _ None []) as [[rest c]|].
    + apply bool_decide_eq_true_2. eauto.
    + apply bool_decide_eq_false_2. intros [? ?]. discriminate.
  - destruct (exec_at _ None (x :: t)) as [[rest c]|].
    + apply bool_decide_eq_true_2. eauto.
    + rewrite search_go_anchored. apply bool_decide_eq_false_2.
      intros [? ?]. discriminate.
Qed.

Lemma test_by r t (cond : bool) :
  (forall rest c,
     exec_at (plain (Seq Bol r)) None t = Some (rest, c) -> cond = true) ->
  (cond = true -> exists res, exec_at (plain (Seq Bol r)) None t = Some res) ->
  test (plain (Seq Bol r)) t = cond.
Proof.
  intros Hs Hc. rewrite test_anchored.
  destruct (exec_at _ None t) as [[rest c]|] eqn:E.
  - symmetry. eauto.
  - destruct cond; [|reflexivity]. destruct (Hc eq_refl). discriminate.
Qed.

Lemma at_eol_end s : at_eol false s = true -> s = [].
Proof. now destruct s. Qed.

(** A run of a class, up to the end of the text. *)
Lemma test_run cs t :
  test (plain (cat [Bol; plus cs; Eol])) t =
  (0 <? length t) && forallb (in_cset cs) t.
Proof.
  apply test_by.
  - intros rest c E. apply exec_at_sound in E as (p' & HM).
    cbn [cat plain pattern flag_m] in HM. unfold plus in HM. invM.
    match goal with H : at_eol false _ = true |- _ => apply at_eol_end in H end.
    subst. rewrite app_nil_r.
    match goal with H : forallb _ _ = true |- _ => rewrite H end.
    rewrite andb_true_r. apply Nat.ltb_lt. lia.
  - intros H. apply andb_true_iff in H as [Hl Hw]. apply Nat.ltb_lt in Hl.
    eexists. unfold exec_at. cbn [cat plain pattern flag_m mt at_bol].
    unfold plus. cbn [mt]. rewrite <- (app_nil_r t).
    apply quant_greedy_first; [exact Hw|exact I|lia|]. reflexivity.
Qed.

Lemma trimmed_start t ws rest :
  trim t = t -> t = ws ++ rest -> forallb (in_cset space) ws = true -> ws = [].
Proof.
  intros Ht E H. destruct ws as [|s ws]; [reflexivity|].
  cbn [forallb] in H. apply andb_true_iff in H as [Hs _].
  rewrite in_space_is_space in Hs.
  destruct (trim_ends t) as [E0|(x & y & w & [E1 Hx] & _)]; rewrite Ht in *.
  - subst t. discriminate.
  - rewrite E1 in E. injection E as -> _. congruence.
Qed.

Lemma trimmed_end t pre ws :
  trim t = t -> t = pre ++ ws -> forallb (in_cset space) ws = true -> ws = [].
Proof.
  intros Ht E H. induction ws as [|z ws _] using rev_ind; [reflexivity|].
  rewrite forallb_app in H. apply andb_true_iff in H as [_ H].
  cbn [forallb] in H. rewrite andb_true_r, in_space_is_space in H.
  destruct (trim_ends t) as [E0|(x & y & w & _ & w' & E1 & Hy)];
    rewrite Ht in *.
  - rewrite E0 in E. symmetry in E. apply app_eq_nil in E as [_ E].
    now apply app_eq_nil in E as [_ E].
  - rewrite E1, app_assoc in E. apply app_inj_tail in E as [_ ->]. congruence.
Qed.

Ltac norm_pattern H :=
  cbn [flag_m plain pattern] in H;
  match type of H with
  | Matches _ ?r _ _ _ _ _ _ =>
      let r' := eval vm_compute in r in change r with r' in H
  end.

Lemma trimmed_parts t w0 m w :
  trim t = t -> t = w0 ++ m ++ w ->
  forallb (in_cset space) w0 = true -> forallb (in_cset space) w = true ->
  w0 = [] /\ w = [].
Proof.
  intros Ht E H0 H1. split.
  - now apply (trimmed_start t w0 (m ++ w)).
  - apply (trimmed_end t (w0 ++ m) w); [exact Ht| |exact H1].
    now rewrite <- app_assoc.
Qed.

Ltac norm_goal :=
  match goal with
  | |- mt _ ?r _ _ _ _ = _ =>
      let r' := eval vm_compute in r in change r with r'
  end.

Ltac sound_start :=
  let rest := fresh "rest" in let c := fresh "c" in let E := fresh "E" in
  let p' := fresh "p'" in let HM := fresh "HM" in
  intros rest c E; apply exec_at_sound in E as (p' & HM);
  norm_pattern HM; invM;
  match goal with H : at_eol false _ = true |- _ => apply at_eol_end in H end;
  subst; rewrite ?app_nil_r in *.

Lemma test_group t :
  trim t = t ->
  test (plain (cat [Bol; star space; lit "group"; star space; Eol])) t =
  eqb_str t (str "group").
Proof.
  intros Ht. apply test_by.
  - sound_start.
    match goal with
    | H0 : forallb _ ?w0 = true, H1 : forallb _ ?w = true
      |- context [?w0 ++ _] =>
        destruct (trimmed_parts _ w0 (str "group") w Ht eq_refl H0 H1)
          as [-> ->]
    end.
    reflexivity.
  - intros H. apply bool_decide_eq_true_1 in H. subst t.
    eexists. vm_compute. reflexivity.
Qed.

Lemma test_separator t :
  trim t = t ->
  test (plain (cat [Bol; star space; lit "separator"; star space; Eol])) t =
  eqb_str t (str "separator").
Proof.
  intros Ht. apply test_by.
  - sound_start.
    match goal with
    | H0 : forallb _ ?w0 = true, H1 : forallb _ ?w = true
      |- context [?w0 ++ _] =>
        destruct (trimmed_parts _ w0 (str "separator") w Ht eq_refl H0 H1)
          as [-> ->]
    end.
    reflexivity.
  - intros H. apply bool_decide_eq_true_1 in H. subst t.
    eexists. vm_compute. reflexivity.
Qed.

Lemma startsWith_split s p :
  startsWith s p = true -> exists w, s = p ++ w.
Proof.
  revert s. induction p as [|a p IH]; intros s H; [now exists s|].
  destruct s as [|b s]; [discriminate|]. cbn [startsWith] in H.
  apply andb_true_iff in H as [E H]. apply N.eqb_eq in E. subst b.
  destruct (IH _ H) as [w ->]. now exists w.
Qed.

Lemma prefix_starts (p s : jsstr) : startsWith (p ++ s) p = true.
Proof.
  induction p as [|a p IH]; [now destruct s|]. simpl.
  now rewrite N.eqb_refl.
Qed.

Lemma test_classref t :
  trim t = t ->
  test (plain (cat [Bol; star space; lit "classref-"; star Dot; Eol])) t =
  startsWith t (str "classref-") && forallb (in_cset Dot) t.
Proof.
  intros Ht. apply test_by.
  - sound_start.
    match goal with
    | H0 : forallb (in_cset (Class false [ISpace])) ?w0 = true,
      H1 : forallb (in_cset Dot) ?w = true |- context [?w0 ++ _] =>
        pose proof (trimmed_start _ w0 (str "classref-" ++ w) Ht eq_refl H0);
        subst w0; cbn [app];
        change (startsWith (str "classref-" ++ w) (str "classref-")
                && forallb (in_cset Dot) (str "classref-" ++ w) = true);
        rewrite prefix_starts, forallb_app, H1
    end.
    reflexivity.
  - intros H. apply andb_true_iff in H as [Hs Hd].
    apply startsWith_split in Hs as [w ->].
    rewrite forallb_app in Hd. apply andb_true_iff in Hd as [_ Hd].
    eexists. unfold exec_at. norm_goal.
    cbn [mt at_bol].
    apply (quant_greedy_first _ []); [reflexivity|reflexivity|lia|].
    repeat (cbn [mt]; rewrite ?N.eqb_refl; cbn iota).
    rewrite <- (app_nil_r w).
    apply quant_greedy_first; [exact Hd|exact I|lia|]. reflexivity.
Qed.

Lemma test_angle t :
  trim t = t ->
  test (plain (cat [Bol; star space; lit "<"; star Dot; lit ">"; star space;
                    Eol])) t =
  match t with
  | x :: r =>
      (x =? 60)%N && forallb (in_cset Dot) r
      && bool_decide (last r = Some 62%N)
  | [] => false
  end.
Proof.
  intros Ht. apply test_by.
  - sound_start.
    match goal with
    | H0 : forallb (in_cset (Class false [ISpace])) ?w0 = true,
      H1 : forallb (in_cset (Class false [ISpace])) ?w1 = true,
      H2 : forallb (in_cset Dot) ?w = true |- context [?w0 ++ _] =>
        destruct (trimmed_parts _ w0 (60%N :: w ++ [62%N]) w1 Ht) as [-> ->];
        [cbn [app]; now rewrite <- app_assoc|exact H0|exact H1|];
        cbn [app]; rewrite N.eqb_refl, forallb_app, H2, last_snoc
    end.
    now rewrite bool_decide_eq_true_2.
  - intros H. destruct t as [|x r]; [discriminate|].
    apply andb_true_iff in H as [H Hl]. apply andb_true_iff in H as [Hx Hd].
    apply N.eqb_eq in Hx. subst x. apply bool_decide_eq_true_1 in Hl.
    induction r as [|y w _] using rev_ind; [discriminate|].
    rewrite last_snoc in Hl. injection Hl as ->.
    rewrite forallb_app in Hd. apply andb_true_iff in Hd as [Hd _].
    eexists. unfold exec_at. norm_goal.
    cbn [mt at_bol].
    apply (quant_greedy_first _ []); [reflexivity|reflexivity|lia|].
    repeat (cbn [mt]; rewrite ?N.eqb_refl; cbn iota).
    change (w ++ [62%N]) with (w ++ [62%N] ++ []).
    apply (quant_greedy_back _ w [62%N]);
      [exact Hd|reflexivity|exact I|lia| |].
    + intros u v p' E Hu. destruct u as [|u0 u]; [congruence|].
      injection E as -> E. symmetry in E. apply app_eq_nil in E as [-> ->].
      reflexivity.
    + cbn [app mt]. rewrite N.eqb_refl. cbn iota. reflexivity.
Qed.

End LineFilter.

(** X14. Which lines the line filter of the cleaner drops (lines 426-435),
    said without patterns.  A line is dropped exactly when its trimmed
    text is empty, or is a run of dashes and colons, or a run of braces,
    or the word group or separator, or starts with classref- and has no
    line terminator in it, or starts with an opening angle bracket, ends
    with a closing one and has no line terminator in between; every other
    line is kept. *)
Theorem keep_line_rejects (line : jsstr) :
  keep_line line = negb (rejected (trim line)).
Proof.
  unfold keep_line, artifact_patterns, rejected. cbn zeta. cbn [forallb].
  pose proof (trim_idempotent line) as Ht. revert Ht.
  generalize (trim line). intros t Ht.
  rewrite (test_run (Class false [IChar (ch "-"); IChar (ch ":")])).
  rewrite (test_run (Class false [IChar (ch "{"); IChar (ch "}")])).
  rewrite (test_group t Ht), (test_separator t Ht), (test_classref t Ht),
    (test_angle t Ht).
  fold dashes. fold braces.
  destruct t as [|x r]; [reflexivity|].
  cbn [length Nat.ltb Nat.leb Nat.eqb andb orb].
  change (0 <? S (length r)) with true. cbn [andb].
  repeat match goal with
         | |- context [negb (?a || ?b)] => rewrite (negb_orb a b)
         end.
  rewrite andb_true_r, !andb_assoc. reflexivity.
Qed.
(** ** Two rules of the cleaner *)

Section GlobalReplace.

Variable re : regexp.
Variable tpl : list titem.
Hypothesis re_global : flag_g re = true.

(** One occurrence in a text that has no other place where the pattern
    matches. *)
Lemma replace_occurrence a m b c :
  (forall a1 y a2 p', a = a1 ++ y :: a2 ->
     exec_at re p' (y :: a2 ++ m ++ b) = None) ->
  m <> [] ->
  exec_at re (last_unit None a) (m ++ b) = Some (b, c) ->
  (forall p' u v, b = u ++ v -> exec_at re p' v = None) ->
  replace re tpl (a ++ m ++ b) = a ++ expand tpl c ++ b.
Proof.
  intros Ha Hm He Hb. unfold replace.
  rewrite replace_go_prefix by exact Ha. f_equal.
  destruct m as [|x m]; [congruence|].
  rewrite <- app_comm_cons. cbn [replace_go].
  rewrite app_comm_cons, He, <- app_comm_cons. f_equal.
  replace (length (x :: m ++ b) - length b) with (S (length m))
    by (simpl; rewrite length_app; lia).
  rewrite re_global, replace_go_skip. now apply replace_go_no_match.
Qed.

End GlobalReplace.

Lemma space_not_lower c : is_space c = true -> in_cset lower_start c = false.
Proof.
  intros H. destruct (in_cset lower_start c) eqn:E; [|reflexivity].
  unfold is_space, is_line_terminator in H.
  unfold lower_start in E. cbn [in_cset in_citem existsb xorb] in E.
  rewrite ?orb_false_r in E.
  change (ch "a") with 97%N in E. change (ch "z") with 122%N in E.
  change (ch "_") with 95%N in E.
  rewrite ?orb_true_iff, ?andb_true_iff, ?N.eqb_eq, ?N.leb_le in *. lia.
Qed.

Lemma metadata_exec key ws sp rest :
  key <> [] -> forallb (in_cset lower_start) key = true ->
  forallb is_space ws = true -> forallb is_space sp = true ->
  ~ In LF rest -> starts_free space rest ->
  exec_at re_metadata None (key ++ ws ++ 58%N :: sp ++ rest) = Some ([], []).
Proof.
  intros Hk Hkey Hws Hsp Hrest Hfree. unfold exec_at.
  let r := eval vm_compute in (pattern re_metadata) in
  change (pattern re_metadata) with r.
  cbn [mt flag_m re_metadata GM at_bol].
  apply quant_greedy_first; [exact Hkey| |now apply nonempty_length|].
  { destruct ws as [|s0 ws]; [reflexivity|]. cbn [app starts_free].
    cbn [forallb] in Hws. apply andb_true_iff in Hws as [Hs0 _].
    now apply space_not_lower. }
  apply quant_greedy_first; [now apply spaces_forallb|reflexivity|lia|].
  cbn [mt]. change (58 =? 58)%N with true. cbn iota.
  apply quant_greedy_first; [now apply spaces_forallb|exact Hfree|lia|].
  rewrite <- (app_nil_r rest) at 1.
  apply quant_greedy_first; [now apply absent_forallb|exact I|lia|].
  reflexivity.
Qed.

(** X15. The rule of line 375 deletes more than a metadata line.  A text
    made of a lower-case key, optional white space, a colon, any white
    space, line breaks included, and the rest of a line is deleted as a
    whole: when the value of the key is empty, the line after it goes
    too. *)
Theorem metadata_rule_deletes (key ws sp rest : jsstr) :
  key <> [] -> forallb (in_cset lower_start) key = true ->
  forallb is_space ws = true -> forallb is_space sp = true ->
  ~ In LF rest -> starts_free space rest ->
  rules_main !! 17 = Some (re_metadata, del)
  /\ replace re_metadata del (key ++ ws ++ str ":" ++ sp ++ rest) = [].
Proof.
  intros Hk Hkey Hws Hsp Hrest Hfree. split; [reflexivity|].
  pose proof (metadata_exec key ws sp rest Hk Hkey Hws Hsp Hrest Hfree) as He.
  change (key ++ ws ++ str ":" ++ sp ++ rest)
    with (key ++ ws ++ 58%N :: sp ++ rest).
  rewrite <- (app_nil_r (key ++ ws ++ 58%N :: sp ++ rest)) in He |- *.
  apply (replace_occurrence re_metadata del eq_refl []
           (key ++ ws ++ 58%N :: sp ++ rest) [] []).
  - intros a1 y a2 p' E. now destruct a1.
  - destruct key; [congruence|discriminate].
  - exact He.
  - intros p' u v E. symmetry in E. apply app_eq_nil in E as [_ ->].
    unfold exec_at. cbn. now destruct (at_bol true p').
Qed.

Lemma metadata_rule_deletes_witness :
  replace re_metadata del
          (str "description" ++ [] ++ str ":" ++ [LF] ++ str "The node.")
  = [].
Proof.
  apply (metadata_rule_deletes (str "description") [] [LF] (str "The node."));
    try reflexivity; try discriminate.
  vm_compute. intuition discriminate.
Defined.

Lemma class_reference_exec p u0 us x b :
  in_cset upper u0 = true -> forallb (in_cset alnum_) us = true ->
  ~ In 62%N x ->
  exec_at re_class_reference p
    ((96%N :: (u0 :: us) ++ str "<class_" ++ x ++ [62%N; 96%N]) ++ b)
  = Some (b, [(1, u0 :: us)]).
Proof.
  intros Hu0 Hus Hx. unfold exec_at.
  let r := eval vm_compute in (pattern re_class_reference) in
  change (pattern re_class_reference) with r.
  let r := eval vm_compute in (str "<class_") in
  change (str "<class_") with r.
  cbn [mt flag_m re_class_reference G app].
  change (96 =? 96)%N with true. cbn iota.
  change (in_cset (Class false [IRange 65 90]) u0) with (in_cset upper u0).
  rewrite Hu0.
  rewrite <- !app_assoc. cbn [app].
  apply quant_greedy_first; [exact Hus|reflexivity|lia|].
  cbn beta.
  match goal with
  | |- context [take (length ?s - length ?r) ?s] =>
      change (take (length s - length r) s)
        with (take (length ((u0 :: us) ++ r) - length r) ((u0 :: us) ++ r))
  end.
  rewrite take_len_prefix.
  cbn [mt].
  change (60 =? 60)%N with true. change (99 =? 99)%N with true.
  change (108 =? 108)%N with true. change (97 =? 97)%N with true.
  change (115 =? 115)%N with true. change (95 =? 95)%N with true.
  cbn iota. rewrite <- app_assoc. cbn [app].
  apply (quant_greedy_first _ x);
    [now apply absent_forallb|reflexivity|lia|].
  cbn [mt]. change (62 =? 62)%N with true. cbn iota.
  change (96 =? 96)%N with true. cbn iota. reflexivity.
Qed.

Lemma class_reference_needs_backtick p v :
  ~ In 96%N v -> exec_at re_class_reference p v = None.
Proof.
  intros H. unfold exec_at.
  let r := eval vm_compute in (pattern re_class_reference) in
  change (pattern re_class_reference) with r.
  cbn [mt]. destruct v as [|y v]; [reflexivity|].
  destruct (N.eqb_spec 96 y) as [<-|]; [|reflexivity].
  destruct H. now left.
Qed.

(** X16. The rule of line 386 replaces a backticked class reference, a
    capitalised name followed by its target in angle brackets, by the name
    alone, and leaves the text around it, when it has no backtick, as it
    is. *)
Theorem class_reference_rule (a name x b : jsstr) :
  ~ In (ch "`") a -> ~ In (ch "`") b ->
  match name with
  | u0 :: us => in_cset upper u0 && forallb (in_cset alnum_) us
  | [] => false
  end = true ->
  ~ In (ch ">") x ->
  rules_main !! 22 = Some (re_class_reference, T1)
  /\ replace re_class_reference T1
       (a ++ (str "`" ++ name ++ str "<class_" ++ x ++ str ">`") ++ b) =
     a ++ name ++ b.
Proof.
  intros Ha Hb Hname Hx. split; [reflexivity|].
  destruct name as [|u0 us]; [discriminate|].
  apply andb_true_iff in Hname as [Hu0 Hus].
  change (str "`" ++ (u0 :: us) ++ str "<class_" ++ x ++ str ">`")
    with (96%N :: (u0 :: us) ++ str "<class_" ++ x ++ [62%N; 96%N]).
  rewrite (replace_occurrence re_class_reference T1 eq_refl a _ b
             [(1, u0 :: us)]).
  - cbn [expand T1 flat_map cap Nat.eqb default from_option]. unfold id.
    now rewrite app_nil_r.
  - intros a1 y a2 p' E. unfold exec_at.
    let r := eval vm_compute in (pattern re_class_reference) in
    change (pattern re_class_reference) with r.
    cbn [mt]. destruct (N.eqb_spec 96 y) as [<-|]; [|reflexivity].
    destruct Ha. rewrite E. apply in_or_app. right. now left.
  - discriminate.
  - now apply class_reference_exec.
  - intros p' u v E. apply class_reference_needs_backtick.
    intros Hin. apply Hb. rewrite E. apply in_or_app. now right.
Qed.

Lemma class_reference_rule_witness :
  replace re_class_reference T1
    (str "See " ++ (str "`" ++ str "Node2D" ++ str "<class_" ++ str "Node2D"
                    ++ str ">`") ++ str " for details") =
  str "See " ++ str "Node2D" ++ str " for details".
Proof.
  apply (class_reference_rule (str "See ") (str "Node2D") (str "Node2D")
           (str " for details"));
    try reflexivity; vm_compute; intuition discriminate.
Defined.
(** ** Further properties of the batch orchestrator *)

Section OrchestratorEdges.

Variable readFile : jsstr -> option jsstr.
Variable pandoc : jsstr -> option jsstr.
Variable relativePath : jsstr -> jsstr.
Variable lang : language.

Local Abbreviation outcome :=
  (convertRstToMarkdown readFile pandoc relativePath lang).

Lemma startsWith_prefix (p s : jsstr) : startsWith (p ++ s) p = true.
Proof.
  induction p as [|a p IH]; [now destruct s|]. simpl.
  now rewrite N.eqb_refl.
Qed.

Lemma batch_loop_result concurrency rstFiles schedule :
  0 < concurrency ->
  admissible concurrency rstFiles schedule ->
  convertFilesConcurrently readFile pandoc relativePath lang concurrency
                           rstFiles schedule =
  Some (omap outcome rstFiles).
Proof.
  intros Hk Hadm. unfold convertFilesConcurrently.
  destruct (batch_loop_inv readFile pandoc relativePath lang concurrency
              rstFiles schedule Hk Hadm (length rstFiles) 0
              (replicate (length rstFiles) None)) as (res & -> & Hinv).
  - lia.
  - split; [apply length_replicate|]. intros j Hj.
    rewrite lookup_replicate_2 by lia.
    now rewrite bool_decide_eq_false_2 by lia.
  - apply loop_inv_final in Hinv. subst res. now rewrite omap_id_fmap.
Qed.

(** X17. A converted document begins with two line feeds and the heading
    of its file, so it is never blank: the test of line 167 always stores
    it in its slot, even when the cleaned content is empty. *)
Theorem converted_document_is_stored (rstFile md : jsstr)
    (results : list (option jsstr)) (globalIndex : nat) :
  outcome rstFile = Some md ->
  startsWith md (nl ++ nl ++ str "## " ++ relativePath rstFile ++ nl ++ nl)
    = true
  /\ trim md <> []
  /\ complete readFile pandoc relativePath lang results globalIndex rstFile =
     <[globalIndex := Some md]> results.
Proof.
  intros H. split; [|split].
  - unfold convertRstToMarkdown in H.
    destruct (readFile rstFile); [|discriminate].
    destruct (pandoc _); [|discriminate].
    injection H as <-.
    cbv zeta. apply startsWith_prefix.
  - eapply outcome_not_blank. exact H.
  - rewrite complete_eq, H. reflexivity.
Qed.

(** X18. The bound and the completion order do not show in the result: for
    any two positive concurrency bounds and any orders in which the
    conversions of the batches complete, the loop returns the same list of
    documents, never longer than the list of files. *)
Theorem convertFilesConcurrently_bound_irrelevant (c1 c2 : nat)
    (rstFiles : list jsstr) (s1 s2 : nat -> list nat) :
  0 < c1 -> 0 < c2 ->
  admissible c1 rstFiles s1 -> admissible c2 rstFiles s2 ->
  convertFilesConcurrently readFile pandoc relativePath lang c1 rstFiles s1 =
  convertFilesConcurrently readFile pandoc relativePath lang c2 rstFiles s2
  /\ exists docs,
       convertFilesConcurrently readFile pandoc relativePath lang c1
                                rstFiles s1 = Some docs
       /\ length docs <= length rstFiles.
Proof.
  intros H1 H2 A1 A2. rewrite !batch_loop_result by assumption.
  split; [reflexivity|]. eexists. split; [reflexivity|].
  clear. induction rstFiles as [|f fs IH]; [constructor|].
  cbn [omap list_omap]. destruct (outcome f); simpl in *; lia.
Qed.

(** X19. Edge cases of the loop of line 161.  An empty list of files gives
    the empty list of documents, whatever the bound.  With a bound of 0
    and a file left to convert the index never advances: the loop does not
    return, however many iterations it is given. *)
Theorem batch_loop_zero_concurrency (rstFiles : list jsstr)
    (schedule : nat -> list nat) :
  (forall concurrency,
     convertFilesConcurrently readFile pandoc relativePath lang concurrency
                              [] schedule = Some [])
  /\ (forall fuel i results,
        i < length rstFiles ->
        batch_loop readFile pandoc relativePath lang 0 fuel rstFiles
                   schedule i results = None).
Proof.
  split; [reflexivity|].
  induction fuel as [|fuel IH]; intros i results Hi; simpl;
    rewrite (proj2 (Nat.ltb_lt _ _) Hi); [reflexivity|].
  replace (i + 0) with i by lia. now apply IH.
Qed.

End OrchestratorEdges.

Lemma converted_document_is_stored_witness :
  let md := nl ++ nl ++ str "## a.rst" ++ nl ++ nl in
  convertRstToMarkdown Some (fun _ => Some []) id both (str "a.rst") = Some md
  /\ trim md <> []
  /\ complete Some (fun _ => Some []) id both [None; None] 1 (str "a.rst") =
     [None; Some md].
Proof.
  split; [vm_compute; reflexivity|].
  apply (converted_document_is_stored Some (fun _ => Some []) id both
           (str "a.rst") (nl ++ nl ++ str "## a.rst" ++ nl ++ nl)
           [None; None] 1).
  vm_compute. reflexivity.
Defined.

Lemma convertFilesConcurrently_bound_irrelevant_witness :
  let files := [str "a.rst"; str "b.rst"; str "c.rst"] in
  convertFilesConcurrently Some Some id both 1 files
    (fun i => seq 0 (length (take 1 (drop i files)))) =
  convertFilesConcurrently Some Some id both 2 files
    (fun i => rev (seq 0 (length (take 2 (drop i files))))).
Proof.
  apply (convertFilesConcurrently_bound_irrelevant Some Some id both 1 2
           [str "a.rst"; str "b.rst"; str "c.rst"]); try lia.
  - intros i. reflexivity.
  - intros i. cbv beta. symmetry. apply Permutation_rev.
Defined.

Lemma batch_loop_zero_concurrency_witness :
  batch_loop Some Some id both 0 1000 [str "a.rst"] (fun _ => []) 0 [None]
  = None.
Proof.
  apply (batch_loop_zero_concurrency Some Some id both [str "a.rst"]
           (fun _ => [])).
  simpl. lia.
Defined.
(** ** The temporary file of a conversion *)

Section ConversionEffectsFacts.

Variable pandoc : jsstr -> option jsstr.
Variable relativePath : jsstr -> jsstr.
Variable lang : language.

Local Abbreviation run := (convertRstToMarkdown_fs pandoc relativePath lang).

Lemma eqb_str_refl (p : jsstr) : eqb_str p p = true.
Proof. unfold eqb_str. now apply bool_decide_eq_true_2. Qed.

Lemma eqb_str_neq (p q : jsstr) : p <> q -> eqb_str p q = false.
Proof. intros H. unfold eqb_str. now apply bool_decide_eq_false_2. Qed.

Lemma temp_file_differs (f : jsstr) : f <> f ++ str ".tmp".
Proof.
  intros E. apply (f_equal (@length N)) in E. rewrite length_app in E.
  simpl in E. lia.
Qed.

Lemma run_result fs f :
  snd (run fs f) = convertRstToMarkdown fs pandoc relativePath lang f.
Proof.
  unfold convertRstToMarkdown_fs, convertRstToMarkdown.
  destruct (fs f) as [c|]; [|reflexivity]. cbn [snd].
  unfold writeFile. rewrite eqb_str_refl. reflexivity.
Qed.

Lemma run_files fs f q :
  fst (run fs f) q =
  if eqb_str q (f ++ str ".tmp") && bool_decide (is_Some (fs f)) then None
  else fs q.
Proof.
  unfold convertRstToMarkdown_fs.
  destruct (fs f) as [c|] eqn:E; cbn [fst].
  - rewrite bool_decide_eq_true_2 by eauto. rewrite andb_true_r.
    unfold writeFile at 1. rewrite eqb_str_refl. unfold unlink, writeFile.
    now destruct (eqb_str q (f ++ str ".tmp")).
  - rewrite bool_decide_eq_false_2 by (intros [? ?]; discriminate).
    now rewrite andb_false_r.
Qed.


End ConversionEffectsFacts.

(** ** The search for the source files *)

Section StringOrder.

Lemma str_ltb_asym a : forall b, str_ltb a b = true -> str_ltb b a = false.
Proof.
  induction a as [|x a IH]; intros [|y b] H; simpl in *; try congruence.
  apply orb_true_iff in H as [H|H].
  - apply N.ltb_lt in H.
    rewrite (proj2 (N.ltb_ge _ _)) by lia.
    rewrite (proj2 (N.eqb_neq _ _)) by lia. reflexivity.
  - apply andb_true_iff in H as [E H]. apply N.eqb_eq in E. subst y.
    rewrite N.ltb_irrefl, N.eqb_refl. simpl. now apply IH.
Qed.

(** a <= b and b <= c give a <= c, where a <= b reads: not b < a. *)
Lemma str_le_trans a : forall b c,
  str_ltb b a = false -> str_ltb c b = false -> str_ltb c a = false.
Proof.
  induction a as [|x a IH]; intros b c Hab Hbc.
  - now destruct c.
  - destruct b as [|y b]; [discriminate|].
    destruct c as [|z c]; [discriminate|].
    simpl in *. apply orb_false_iff in Hab as [H1 H2].
    apply orb_false_iff in Hbc as [H3 H4].
    apply N.ltb_ge in H1, H3.
    destruct (N.eqb_spec y x) as [Eyx|Hyx];
      destruct (N.eqb_spec z y) as [Ezy|Hzy]; simpl in *; subst.
    + rewrite N.ltb_irrefl, N.eqb_refl. simpl. eauto.
    + rewrite (proj2 (N.ltb_ge _ _)) by lia.
      rewrite (proj2 (N.eqb_neq _ _)) by lia. reflexivity.
    + rewrite (proj2 (N.ltb_ge _ _)) by lia.
      rewrite (proj2 (N.eqb_neq _ _)) by lia. reflexivity.
    + rewrite (proj2 (N.ltb_ge _ _)) by lia.
      rewrite (proj2 (N.eqb_neq _ _)) by lia. reflexivity.
Qed.

Lemma sort_insert_In x l p : In p (sort_insert x l) <-> p = x \/ In p l.
Proof.
  induction l as [|y l IH]; simpl; [intuition congruence|].
  destruct (str_ltb y x); simpl; [rewrite IH|]; intuition congruence.
Qed.

Lemma sort_In l p : In p (sort l) <-> In p l.
Proof.
  induction l as [|x l IH]; simpl; [tauto|].
  rewrite sort_insert_In, IH. intuition congruence.
Qed.

Lemma sort_insert_sorted x l : sorted l = true -> sorted (sort_insert x l) = true.
Proof.
  induction l as [|y l IH]; intros H; [reflexivity|].
  cbn [sort_insert]. destruct (str_ltb y x) eqn:E.
  - cbn [sorted] in H |- *. apply andb_true_iff in H as [Hy Hl].
    rewrite (IH Hl), andb_true_r.
    destruct l as [|z l]; cbn [sort_insert].
    + now rewrite (str_ltb_asym _ _ E).
    + destruct (str_ltb z x); [exact Hy|now rewrite (str_ltb_asym _ _ E)].
  - cbn [sorted] in H |- *. rewrite E. simpl. exact H.
Qed.

Lemma sort_sorted l : sorted (sort l) = true.
Proof.
  induction l as [|x l IH]; [reflexivity|]. simpl. now apply sort_insert_sorted.
Qed.

End StringOrder.

Lemma node_nested_ind (P : node -> Prop) :
  P File -> P Other -> P Broken ->
  (forall items, Forall (fun e => P (snd e)) items -> P (Dir items)) ->
  forall n, P n.
Proof.
  intros HF HO HB HD. fix IH 1.
  intros [|items| |]; [exact HF| |exact HO|exact HB].
  apply HD.
  refine ((fix go (l : list (jsstr * node)) : Forall (fun e => P (snd e)) l :=
             match l with
             | [] => List.Forall_nil _
             | e :: r => List.Forall_cons _ e r (IH (snd e)) (go r)
             end) items).
Qed.

Section SearchFacts.

Variable excludedDirectories : list jsstr.
Variable godotDocsPath : jsstr.

Local Abbreviation find := (findRstFilesRecursive excludedDirectories godotDocsPath).
Local Abbreviation top_of := (topLevelDir godotDocsPath).
Local Abbreviation excl := (excludes excludedDirectories).

Lemma find_cons item child rest dir b :
  find (Dir ((item, child) :: rest)) dir b =
  if skipped item then find (Dir rest) dir b
  else if b && excl (top_of dir) then find (Dir rest) dir b
  else
    match child with
    | Broken => None
    | Dir _ =>
        if negb b && excl item then find (Dir rest) dir b
        else
          match find child (path_join dir item) true with
          | Some found =>
              match find (Dir rest) dir b with
              | Some more => Some (found ++ more)
              | None => None
              end
          | None => None
          end
    | File =>
        if endsWith item (str ".rst") && b then
          match find (Dir rest) dir b with
          | Some more => Some (path_join dir item :: more)
          | None => None
          end
        else find (Dir rest) dir b
    | Other => find (Dir rest) dir b
    end.
Proof. reflexivity. Qed.

Lemma at_path_cons e rest names :
  at_path (Dir (e :: rest)) names File <->
  (exists names', names = fst e :: names' /\ at_path (snd e) names' File)
  \/ at_path (Dir rest) names File.
Proof.
  split.
  - intros H. inversion H as [|items name child names' n Hin Hp]; subst.
    destruct Hin as [->|Hin]; [left; eauto|].
    right. econstructor; eassumption.
  - intros [(names' & -> & Hp)|H].
    + destruct e as [name child]. econstructor; [now left|exact Hp].
    + inversion H as [|items name child names' n Hin Hp]; subst.
      econstructor; [right; exact Hin|exact Hp].
Qed.

Lemma at_path_nil names : ~ at_path (Dir []) names File.
Proof. intros H. inversion H as [|items name child names' n Hin Hp]; subst. destruct Hin. Qed.

Lemma at_path_file names : at_path File names File <-> names = [].
Proof. split; [now inversion 1|intros ->; constructor]. Qed.

Lemma at_path_dir items names : at_path (Dir items) names File -> names <> [].
Proof. now inversion 1. Qed.

Lemma matching_cons item names :
  matching (item :: names) =
  negb (skipped item)
  && match names with
     | [] => endsWith item (str ".rst")
     | _ => matching names
     end.
Proof.
  unfold matching. cbn [forallb]. destruct names as [|n names].
  - simpl. now rewrite andb_true_r.
  - rewrite <- andb_assoc. reflexivity.
Qed.

Lemma render_cons dir item names :
  render dir (item :: names) = render (path_join dir item) names.
Proof. reflexivity. Qed.

(** Below the first level the top-level directory of a path does not
    change. *)
Lemma top_of_join dir item :
  S (length godotDocsPath) <= length dir ->
  top_of (path_join dir item) = top_of dir.
Proof.
  intros H. unfold topLevelDir, path_relative, path_join.
  rewrite drop_app_le by lia. rewrite split_app_sep.
  pose proof (split_nonempty path_sep (drop (S (length godotDocsPath)) dir)).
  now destruct (split path_sep (drop (S (length godotDocsPath)) dir)).
Qed.

Lemma top_of_first item :
  existsb (N.eqb path_sep) item = false ->
  top_of (path_join godotDocsPath item) = item.
Proof.
  intros H. unfold topLevelDir, path_relative, path_join.
  rewrite drop_app_ge by lia.
  replace (S (length godotDocsPath) - length godotDocsPath) with 1 by lia.
  simpl. rewrite split_single; [reflexivity|].
  intros Hin. assert (E : existsb (N.eqb path_sep) item = true);
    [|congruence].
  apply existsb_exists. exists path_sep. split; [exact Hin|apply N.eqb_refl].
Qed.

Lemma at_path_split (Q : list jsstr -> Prop) e rest dir p :
  (exists names, at_path (Dir (e :: rest)) names File
                 /\ Q names /\ p = render dir names) <->
  (exists names', at_path (snd e) names' File
                  /\ Q (fst e :: names') /\ p = render dir (fst e :: names'))
  \/ (exists names, at_path (Dir rest) names File
                    /\ Q names /\ p = render dir names).
Proof.
  split.
  - intros (names & Ha & Hm & Hp).
    apply at_path_cons in Ha as [(names' & -> & Ha)|Ha]; [left|right]; eauto.
  - intros [(names' & Ha & Hm & Hp)|(names & Ha & Hm & Hp)].
    + exists (fst e :: names'). split; [apply at_path_cons; left; eauto|auto].
    + exists names. split; [apply at_path_cons; right; auto|auto].
Qed.

(** The paths pushed by the search of a directory below the root. *)
Lemma find_below n : forall dir files,
  S (length godotDocsPath) <= length dir ->
  excl (top_of dir) = false ->
  find n dir true = Some files ->
  forall p,
    In p files <->
    exists names,
      at_path n names File /\ matching names = true /\ p = render dir names.
Proof.
  induction n as [| | |items IH] using node_nested_ind;
    try discriminate.
  induction items as [|[item child] rest IHr]; intros dir files Hlen Hex Hf p.
  - injection Hf as <-. split; [intros []|].
    intros (names & H & _). now apply at_path_nil in H.
  - inversion IH as [|? ? IHc IHrest]; subst. cbn [snd] in IHc.
    specialize (IHr IHrest dir).
    rewrite find_cons, Hex in Hf. cbn [andb negb] in Hf.
    assert (Hrest : forall files',
               find (Dir rest) dir true = Some files' ->
               (In p files' <->
                exists names, at_path (Dir rest) names File
                              /\ matching names = true /\ p = render dir names)).
    { intros files' Hf'. now apply IHr. }
    rewrite (at_path_split (fun names => matching names = true)
               (item, child) rest dir p).
    cbn [fst snd].
    destruct (skipped item) eqn:Esk.
    { rewrite (Hrest _ Hf). split; [auto|].
      intros [(names' & _ & Hm & _)|H]; [|exact H].
      rewrite matching_cons, Esk in Hm. discriminate. }
    destruct child as [|sub| |].
    + rewrite andb_true_r in Hf.
      destruct (endsWith item (str ".rst")) eqn:Ee.
      * destruct (find (Dir rest) dir true) as [more|] eqn:Em; [|discriminate].
        injection Hf as <-. cbn [In]. rewrite (Hrest _ eq_refl). split.
        -- intros [<-|H]; [left|right; exact H].
           exists []. split; [constructor|].
           rewrite matching_cons, Esk, Ee. split; reflexivity.
        -- intros [(names' & Ha & Hm & Hp)|H]; [left|right; exact H].
           apply at_path_file in Ha. subst. reflexivity.
      * rewrite (Hrest _ Hf). split; [auto|].
        intros [(names' & Ha & Hm & _)|H]; [|exact H].
        apply at_path_file in Ha. subst.
        rewrite matching_cons, Esk, Ee in Hm. discriminate.
    + destruct (find (Dir sub) (path_join dir item) true) as [found|] eqn:Ef;
        [|discriminate].
      destruct (find (Dir rest) dir true) as [more|] eqn:Em; [|discriminate].
      injection Hf as <-. rewrite in_app_iff, (Hrest _ eq_refl).
      rewrite (IHc (path_join dir item) found); cycle 1.
      { unfold path_join. rewrite length_app. simpl. lia. }
      { now rewrite top_of_join. }
      { exact Ef. }
      split; (intros [(names' & Ha & Hm & Hp)|H]; [left|right; exact H]);
        exists names'; (split; [exact Ha|]);
        pose proof (at_path_dir _ _ Ha) as Hne;
        rewrite matching_cons, Esk in *;
        (destruct names'; [congruence|]); split; assumption.
    + rewrite (Hrest _ Hf). split; [auto|].
      intros [(names' & Ha & _)|H]; [|exact H]. inversion Ha.
    + discriminate.
Qed.

Lemma eligible_cons item names :
  eligible excludedDirectories (item :: names) =
  match names with
  | [] => false
  | _ => negb (excl item) && matching (item :: names)
  end.
Proof. now destruct names. Qed.

(** The paths pushed by the search of the root. *)
Lemma find_top items : forall files,
  forallb (fun e => negb (existsb (N.eqb path_sep) (fst e))) items = true ->
  find (Dir items) godotDocsPath false = Some files ->
  forall p,
    In p files <->
    exists names,
      at_path (Dir items) names File
      /\ eligible excludedDirectories names = true
      /\ p = render godotDocsPath names.
Proof.
  induction items as [|[item child] rest IHr]; intros files Hn Hf p.
  - injection Hf as <-. split; [intros []|].
    intros (names & H & _). now apply at_path_nil in H.
  - cbn [forallb fst] in Hn. apply andb_true_iff in Hn as [Hi Hn].
    apply negb_true_iff in Hi.
    rewrite find_cons in Hf. cbn [andb negb] in Hf.
    assert (Hrest : forall files',
               find (Dir rest) godotDocsPath false = Some files' ->
               (In p files' <->
                exists names, at_path (Dir rest) names File
                              /\ eligible excludedDirectories names = true
                              /\ p = render godotDocsPath names)).
    { intros files' Hf'. now apply IHr. }
    rewrite (at_path_split
               (fun names => eligible excludedDirectories names = true)
               (item, child) rest godotDocsPath p).
    cbn [fst snd].
    assert (Hno : forall files',
               find (Dir rest) godotDocsPath false = Some files' ->
               (forall names', at_path child names' File ->
                  eligible excludedDirectories (item :: names') = false) ->
               (In p files' <->
                (exists names', at_path child names' File
                   /\ eligible excludedDirectories (item :: names') = true
                   /\ p = render godotDocsPath (item :: names'))
                \/ (exists names, at_path (Dir rest) names File
                      /\ eligible excludedDirectories names = true
                      /\ p = render godotDocsPath names))).
    { intros files' Hf' Hnone. rewrite (Hrest _ Hf'). split; [auto|].
      intros [(names' & Ha & He & _)|H]; [|exact H].
      rewrite (Hnone _ Ha) in He. discriminate. }
    destruct (skipped item) eqn:Esk.
    { apply (Hno _ Hf). intros names' _. rewrite eligible_cons.
      destruct names'; [reflexivity|]. rewrite matching_cons, Esk.
      apply andb_false_r. }
    destruct child as [|sub| |].
    + rewrite andb_false_r in Hf. apply (Hno _ Hf). intros names' Ha.
      apply at_path_file in Ha. now subst.
    + destruct (excl item) eqn:Eex.
      { apply (Hno _ Hf). intros names' _. rewrite eligible_cons, Eex.
        now destruct names'. }
      destruct (find (Dir sub) (path_join godotDocsPath item) true)
        as [found|] eqn:Ef; [|discriminate].
      destruct (find (Dir rest) godotDocsPath false) as [more|] eqn:Em;
        [|discriminate].
      injection Hf as <-. rewrite in_app_iff, (Hrest _ eq_refl).
      rewrite (find_below (Dir sub) (path_join godotDocsPath item) found);
        cycle 1.
      { unfold path_join. rewrite length_app. simpl. lia. }
      { now rewrite top_of_first. }
      { exact Ef. }
      split; (intros [(names' & Ha & Hm & Hp)|H]; [left|right; exact H]);
        exists names'; (split; [exact Ha|]);
        pose proof (at_path_dir _ _ Ha) as Hne;
        rewrite eligible_cons, matching_cons, Eex, Esk in *;
        (destruct names'; [congruence|]); split; assumption.
    + apply (Hno _ Hf). intros names' Ha. inversion Ha.
    + discriminate.
Qed.

Local Abbreviation ok := (readable excludedDirectories).

Lemma readable_cons top item child rest :
  ok top (Dir ((item, child) :: rest)) =
  (skipped item
   || match child with
      | Broken => false
      | Dir _ => (top && excl item) || ok false child
      | _ => true
      end)
  && ok top (Dir rest).
Proof. reflexivity. Qed.

(** Below the root, the search throws exactly on an unreadable tree. *)
Lemma find_below_returns n : forall dir,
  S (length godotDocsPath) <= length dir ->
  excl (top_of dir) = false ->
  (exists items, n = Dir items) ->
  (find n dir true = None <-> ok false n = false).
Proof.
  induction n as [| | |items IH] using node_nested_ind;
    intros dir Hlen Hex [items' E]; try discriminate.
  clear items' E.
  induction items as [|[item child] rest IHr]; [now split|].
  inversion IH as [|? ? IHc IHrest]; subst. cbn [snd] in IHc.
  specialize (IHr IHrest). rewrite find_cons, readable_cons, Hex.
  cbn [andb negb].
  destruct (skipped item); [exact IHr|]. cbn [orb].
  destruct child as [|sub| |].
  - rewrite andb_true_r. cbn [andb].
    destruct (endsWith item (str ".rst"));
      destruct (find (Dir rest) dir true), (ok false (Dir rest));
      intuition congruence.
  - assert (Hc : find (Dir sub) (path_join dir item) true = None <->
                 ok false (Dir sub) = false).
    { apply IHc; [|now rewrite top_of_join|eauto].
      unfold path_join. rewrite length_app. simpl. lia. }
    destruct (find (Dir sub) (path_join dir item) true),
      (ok false (Dir sub)), (find (Dir rest) dir true),
      (ok false (Dir rest)); cbn [andb]; intuition congruence.
  - cbn [andb]. exact IHr.
  - cbn [andb]. now split.
Qed.

Lemma find_top_returns items :
  forallb (fun e => negb (existsb (N.eqb path_sep) (fst e))) items = true ->
  (find (Dir items) godotDocsPath false = None <->
   ok true (Dir items) = false).
Proof.
  induction items as [|[item child] rest IHr]; intros Hn; [now split|].
  cbn [forallb fst] in Hn. apply andb_true_iff in Hn as [Hi Hn].
  apply negb_true_iff in Hi. specialize (IHr Hn).
  rewrite find_cons, readable_cons. cbn [andb negb].
  destruct (skipped item); [exact IHr|]. cbn [orb].
  destruct child as [|sub| |].
  - rewrite andb_false_r. cbn [andb]. exact IHr.
  - destruct (excl item) eqn:Eex; [exact IHr|]. cbn [orb].
    assert (Hc : find (Dir sub) (path_join godotDocsPath item) true = None <->
                 ok false (Dir sub) = false).
    { apply find_below_returns; [|now rewrite top_of_first|eauto].
      unfold path_join. rewrite length_app. simpl. lia. }
    destruct (find (Dir sub) (path_join godotDocsPath item) true),
      (ok false (Dir sub)), (find (Dir rest) godotDocsPath false),
      (ok true (Dir rest)); cbn [andb]; intuition congruence.
  - cbn [andb]. exact IHr.
  - cbn [andb]. now split.
Qed.

End SearchFacts.


(** X22. When the search throws.  It throws when godotDocsPath does not
    exist.  For a root whose entry names have no separator in them, it
    throws exactly when the root is no directory or a broken entry is met;
    a broken entry does no harm under a name that starts with a dot or an
    underscore, or inside an excluded directory of the root, since these
    are not looked at. *)
Theorem findRstFiles_throws (excludedDirectories : list jsstr)
    (godotDocsPath : jsstr) (root : node) :
  top_names_ok root = true ->
  findRstFiles excludedDirectories godotDocsPath None = None
  /\ (findRstFiles excludedDirectories godotDocsPath (Some root) = None <->
      readable excludedDirectories true root = false).
Proof.
  intros Hn. split; [reflexivity|]. unfold findRstFiles.
  destruct root as [|items| |]; try now split.
  pose proof (find_top_returns excludedDirectories godotDocsPath items Hn)
    as H.
  destruct (findRstFilesRecursive _ _ (Dir items) _ _);
    destruct (readable excludedDirectories true (Dir items));
    intuition congruence.
Qed.


Lemma findRstFiles_throws_witness :
  let tree :=
    Dir [(str "classes", Dir [(str "a.rst", File)]);
         (str "about", Dir [(str "lost", Broken)]);
         (str "_build", Broken)] in
  top_names_ok tree = true
  /\ readable [str "about"] true tree = true
  /\ readable [] true tree = false
  /\ (findRstFiles [] (str "docs") (Some tree) = None <->
      readable [] true tree = false).
Proof.
  split; [reflexivity|]. split; [reflexivity|]. split; [reflexivity|].
  apply (findRstFiles_throws [] (str "docs")). reflexivity.
Defined.
(** ** The whole conversion *)

Lemma render_flat names : forall dir,
  render dir names = dir ++ flat_map (fun name => path_sep :: name) names.
Proof.
  unfold render.
  induction names as [|name names IH]; intros dir; cbn [fold_left flat_map].
  - now rewrite app_nil_r.
  - rewrite IH. unfold path_join. now rewrite <- app_assoc.
Qed.

Lemma flat_join name names :
  flat_map (fun name => path_sep :: name) (name :: names) =
  path_sep :: join [path_sep] (name :: names).
Proof.
  revert name. induction names as [|n names IH]; intros name.
  - simpl. now rewrite app_nil_r.
  - change (flat_map (fun name => path_sep :: name) (name :: n :: names))
      with ((path_sep :: name)
            ++ flat_map (fun name => path_sep :: name) (n :: names)).
    rewrite IH, join_cons. reflexivity.
Qed.

(** X23. What convert writes.  With a positive concurrency bound, when the
    git step is disabled or has returned and the search for the files
    returns, the text written to the output file is the sequence of the
    converted documents of the files found, in the order of the search
    (ascending paths), joined by empty lines; a file whose conversion
    fails is left out, and nothing else is written: the header built by
    combineMarkdownFiles is not.  The heading of each document is the path
    of its file below the root, the names joined by the separator. *)
Theorem convert_output (excludedDirectories : list jsstr)
    (godotDocsPath : jsstr) (concurrency : nat) (lang : language)
    (readFile pandoc : jsstr -> option jsstr) (root : option node)
    (schedule : list jsstr -> nat -> list nat) (rstFiles : list jsstr) :
  0 < concurrency ->
  (forall files, admissible concurrency files (schedule files)) ->
  findRstFiles excludedDirectories godotDocsPath root = Some rstFiles ->
  convert excludedDirectories godotDocsPath concurrency lang readFile pandoc
          true root schedule =
    Some (combineMarkdownFiles
            (omap (convertRstToMarkdown readFile pandoc
                     (path_relative godotDocsPath) lang) rstFiles))
  /\ (forall names,
        names <> [] ->
        path_relative godotDocsPath (render godotDocsPath names) =
        join [path_sep] names).
Proof.
  intros Hk Hadm Hf. split.
  - unfold convert. rewrite Hf.
    now rewrite (batch_loop_result readFile pandoc
                   (path_relative godotDocsPath) lang concurrency rstFiles
                   (schedule rstFiles) Hk (Hadm rstFiles)).
  - intros [|name names] Hn; [congruence|].
    rewrite render_flat, flat_join. unfold path_relative.
    rewrite drop_app_ge by lia.
    replace (S (length godotDocsPath) - length godotDocsPath) with 1 by lia.
    reflexivity.
Qed.

Lemma convert_output_witness :
  let tree := Dir [(str "classes", Dir [(str "b.rst", File);
                                        (str "a.rst", File)])] in
  let readFile := fun f : jsstr =>
    if eqb_str f (str "docs/classes/b.rst") then None else Some (str "Text") in
  convert [] (str "docs") 2 both readFile Some (true) (Some tree)
          (fun files i => seq 0 (length (take 2 (drop i files)))) =
  Some (nl ++ nl ++ str "## classes/a.rst" ++ nl ++ nl ++ str "Text").
Proof.
  intros tree readFile.
  refine (proj1 (convert_output [] (str "docs") 2 both readFile Some
                   (Some tree)
                   (fun files i => seq 0 (length (take 2 (drop i files))))
                   [str "docs/classes/a.rst"; str "docs/classes/b.rst"]
                   _ _ _)).
  - lia.
  - intros files i. reflexivity.
  - vm_compute. reflexivity.
Defined.
(** ** The configuration *)

Lemma assign_git_same g : assign_git g g = g.
Proof. destruct g as [[|] [|] [|] [|]]; reflexivity. Qed.

(** X24. The configuration is merged one level deep only.  The constructor
    gives the same configuration as the defaults followed by updateConfig:
    its second merge, of the git object, changes nothing, because the
    first one has already replaced the git object.  So a git object that
    is given replaces the default one as a whole, and the keys that it
    does not give are lost, not defaulted: with a configuration whose git
    object has no enabled key, as the one that gives a branch and
    autoUpdate only, the git step of convert is skipped. *)
Theorem configuration_merge_is_shallow (config : ConverterConfig)
    (newConfig : PartialConfig) (git : GitConfig) :
  p_git newConfig = Some git ->
  constructor (Some newConfig) = updateConfig (constructor None) newConfig
  /\ cfg_git (getConfig (updateConfig config newConfig)) = git
  /\ (git_enabled git = None ->
      runs_git_step (updateConfig config newConfig) = false)
  /\ runs_git_step (constructor None) = true.
Proof.
  intros Hg. split; [|split; [|split]].
  - unfold constructor, updateConfig. rewrite Hg.
    unfold assign at 6. rewrite Hg. cbn [default from_option].
    rewrite assign_git_same. unfold assign. rewrite Hg. reflexivity.
  - unfold getConfig, updateConfig, assign. cbn [cfg_git]. now rewrite Hg.
  - intros He. unfold runs_git_step, updateConfig, assign. cbn [cfg_git].
    rewrite Hg. cbn [default from_option]. unfold id. now rewrite He.
  - reflexivity.
Qed.

Lemma configuration_merge_is_shallow_witness :
  let git := {| git_enabled := None; git_repository := None;
                git_branch := Some (str "4.2-stable");
                git_autoUpdate := Some false |} in
  let file := {| p_excludedDirectories := Some [str "about"; str "community"];
                 p_godotDocsPath := None;
                 p_outputFile := Some (str "./godot-classes-only.md");
                 p_concurrency := Some 10;
                 p_language := Some gdscript;
                 p_git := Some git |} in
  runs_git_step (updateConfig (constructor None) file) = false.
Proof.
  intros git file.
  apply (configuration_merge_is_shallow (constructor None) file git);
    reflexivity.
Defined.
